(** * Science Fictions podcast analyzer: a shallow embedding and its properties

    The development embeds [analyze_podcast.py] and [generate_report_only.py]
    and states, over that embedding, the properties the specification
    attaches to them.

    Modelling choices, valid throughout:
    - a Python [str] is a [list ascii]; a character is a code point in
      0..255 (the Latin-1 range), classified the way CPython classifies
      it ([str.isspace], [str.isalnum], [str.lower], and the [re] classes
      [\s], [\w], [\d] of a [str] pattern);
    - a Python [int] is a [Z]; the interpreter's limit on the number of
      digits converted by [int()] and [str()] is not modelled;
    - a finite non-negative [float] of seconds is the rational it denotes:
      [//] and [%] on floats are exact for such values;
    - [json.dump] followed by [json.load] is the identity on the data model,
      so a JSON file holds the value itself;
    - standard output is not modelled;
    - the data the program reads is well typed: an entry of the feed has
      its title, date and link, a transcript has its [text], a cached
      JSON file parses, and the [topic], [quote] and [context] of an
      element of the model's array are strings when they are present;
    - the exceptions modelled are those of the program's own conversions
      ([int()] on an identifier) and of the report-only program finding no
      progress file. The failure of [requests.get] on the feed, of
      [whisper.load_model] and of a file-system call, which the source
      lets propagate, are outside the model: the properties below are
      about the runs in which none of them happens. *)

From Stdlib Require Import ZArith QArith Qround Ascii String List Lia Bool Sorted.
From stdpp Require Import gmap strings list.

Set Default Proof Using "Type".

(** ** Python strings *)

Abbreviation str := (list ascii).

(** A literal of the source. *)
Definition py (lit : string) : str := list_ascii_of_string lit.

Module Py.

Definition code (c : ascii) : N := N_of_ascii c.

Definition in_range (lo hi : N) (c : ascii) : bool :=
  ((lo <=? code c) && (code c <=? hi))%N.

(** [\d] of a [str] pattern: decimal digits. *)
Definition is_digit (c : ascii) : bool := in_range 48 57 c.

(** [str.isspace] and [\s]: TAB..CR, FS..US, SPACE, NEL, NBSP. *)
Definition is_space (c : ascii) : bool :=
  in_range 9 13 c || in_range 28 32 c
  || (code c =? 133)%N || (code c =? 160)%N.

(** [str.isalnum] on the Latin-1 range. *)
Definition is_alnum (c : ascii) : bool :=
  is_digit c || in_range 65 90 c || in_range 97 122 c
  || (code c =? 170)%N || in_range 178 179 c || (code c =? 181)%N
  || in_range 185 186 c || in_range 188 190 c
  || in_range 192 214 c || in_range 216 246 c || in_range 248 255 c.

(** [\w]: alphanumerics and the underscore. *)
Definition is_word (c : ascii) : bool := is_alnum c || (code c =? 95)%N.

Definition is_upper (c : ascii) : bool :=
  in_range 65 90 c || in_range 192 214 c || in_range 216 222 c.

Definition lower_char (c : ascii) : ascii :=
  if is_upper c then ascii_of_N (code c + 32) else c.

(** [s.lower()] *)
Definition lower (t : str) : str := map lower_char t.

(** [s.lstrip()], [s.rstrip()], [s.strip()] *)
Fixpoint lstrip (t : str) : str :=
  match t with
  | c :: t' => if is_space c then lstrip t' else t
  | [] => []
  end.

Definition rstrip (t : str) : str := rev (lstrip (rev t)).

Definition strip (t : str) : str := rstrip (lstrip t).

(** [t.startswith(p)] *)
Fixpoint startswith (p t : str) : bool :=
  match p, t with
  | [], _ => true
  | a :: p', b :: t' => Ascii.eqb a b && startswith p' t'
  | _ :: _, [] => false
  end.

(** [a in b] on strings. *)
Fixpoint contains (a b : str) : bool :=
  startswith a b ||
  match b with
  | [] => false
  | _ :: b' => contains a b'
  end.

(** [t.replace(old, new)] for a one-character [old]. *)
Definition replace_char (old : ascii) (new : str) (t : str) : str :=
  flat_map (fun c => if Ascii.eqb c old then new else [c]) t.

(** Truthiness of a string: the empty string is falsy. *)
Definition truthy (t : str) : bool :=
  match t with [] => false | _ :: _ => true end.

(** *** Integers and their text *)

Local Open Scope Z_scope.

Definition digit_char (d : Z) : ascii := ascii_of_N (48 + Z.to_N d).

Definition digit_val (c : ascii) : Z := Z.of_N (code c) - 48.

(** Decimal digits of a non-negative number, most significant first;
    [fuel] bounds the number of digits. *)
Fixpoint digits_fuel (fuel : nat) (n : Z) (acc : str) : str :=
  match fuel with
  | O => acc
  | S fuel' =>
      let acc' := digit_char (n mod 10) :: acc in
      if n <? 10 then acc' else digits_fuel fuel' (n / 10) acc'
  end.

Definition digits (n : Z) : str := digits_fuel (S (Z.to_nat (Z.log2 n))) n [].

(** [str(n)] for an [int]. *)
Definition str_of_int (n : Z) : str :=
  if n <? 0 then "-"%char :: digits (- n) else digits n.

(** [format(n, '0{w}d')]: sign first, then zeros up to width [w]. *)
Definition fmt_0d (w : nat) (n : Z) : str :=
  let body := digits (Z.abs n) in
  let sign := if n <? 0 then ["-"%char] else [] in
  sign ++ repeat "0"%char (w - length sign - length body)%nat ++ body.

(** Value of a run of decimal digits. *)
Definition digits_value (t : str) : Z :=
  fold_left (fun acc c => 10 * acc + digit_val c) t 0.

(** One group of digits up to the next underscore. *)
Fixpoint int_body (t : str) (acc : Z) (after_digit : bool) : option Z :=
  match t with
  | [] => if after_digit then Some acc else None
  | c :: t' =>
      if is_digit c then int_body t' (10 * acc + digit_val c) true
      else if Ascii.eqb c "_" && after_digit then
             match t' with
             | d :: _ => if is_digit d then int_body t' acc false else None
             | [] => None
             end
           else None
  end.

(** [int(t)] for a [str]: surrounding whitespace, an optional sign,
    digits with single underscores between them. [None] is
    [ValueError]. *)
Definition int_of_str (t : str) : option Z :=
  match strip t with
  | c :: t' =>
      if Ascii.eqb c "-" then Z.opp <$> int_body t' 0 false
      else if Ascii.eqb c "+" then int_body t' 0 false
      else int_body (c :: t') 0 false
  | [] => None
  end.

End Py.

(** ** Regular expressions of the source

    Every pattern of the source is a sequence of single-character classes,
    each taken once or under [*], [+] or the lazy [*?], with one capture
    group. The matcher is the backtracking matcher of [re]: a greedy
    repetition tries the longest run first, a lazy one the shortest. A
    successful match is returned as the text consumed by each item. *)

Module Re.

Inductive quant := One | Star | Plus | StarLazy.

Record item := Item { cls : ascii -> bool; qt : quant; grp : bool }.

Abbreviation regex := (list item).

Abbreviation cont := (str -> option (list str)).

Definition grow (c : ascii) (r : str * list str) : str * list str :=
  (c :: r.1, r.2).

Definition stop (k : cont) (t : str) : option (str * list str) :=
  pair [] <$> k t.

Fixpoint greedy (p : ascii -> bool) (k : cont) (t : str)
  : option (str * list str) :=
  match t with
  | c :: t' =>
      if p c then
        match greedy p k t' with
        | Some r => Some (grow c r)
        | None => stop k t
        end
      else stop k t
  | [] => stop k t
  end.

Fixpoint reluctant (p : ascii -> bool) (k : cont) (t : str)
  : option (str * list str) :=
  match k t with
  | Some segs => Some ([], segs)
  | None =>
      match t with
      | c :: t' => if p c then grow c <$> reluctant p k t' else None
      | [] => None
      end
  end.

Definition join (r : str * list str) : list str := r.1 :: r.2.

Definition match_item (it : item) (k : cont) : cont := fun t =>
  match qt it with
  | One =>
      match t with
      | c :: t' => if cls it c then cons [c] <$> k t' else None
      | [] => None
      end
  | Star => join <$> greedy (cls it) k t
  | Plus =>
      match t with
      | c :: t' =>
          if cls it c then join <$> (grow c <$> greedy (cls it) k t')
          else None
      | [] => None
      end
  | StarLazy => join <$> reluctant (cls it) k t
  end.

(** [re.match]: the pattern anchored at the start of [t]. *)
Fixpoint match_here (re : regex) : cont :=
  match re with
  | [] => fun _ => Some []
  | it :: re' => match_item it (match_here re')
  end.

(** [re.search]: the first position where the pattern matches; the
    result is the text skipped and the text consumed by each item. *)
Fixpoint search (re : regex) (t : str) : option (str * list str) :=
  match match_here re t with
  | Some segs => Some ([], segs)
  | None =>
      match t with
      | [] => None
      | c :: t' => grow c <$> search re t'
      end
  end.

(** [match.group(1)] *)
Fixpoint group1 (re : regex) (segs : list str) : str :=
  match re, segs with
  | it :: re', seg :: segs' =>
      (if grp it then seg else []) ++ group1 re' segs'
  | _, _ => []
  end.

Definition search_group1 (re : regex) (t : str) : option str :=
  (fun r => group1 re r.2) <$> search re t.

(** Pattern builders. *)
Definition chr (c : ascii) : item := Item (Ascii.eqb c) One false.

Definition chr_i (c : ascii) : item :=
  Item (fun x => Ascii.eqb (Py.lower_char x) (Py.lower_char c)) One false.

Definition lit (l : string) : regex := map chr (py l).

Definition lit_i (l : string) : regex := map chr_i (py l).

Definition any : ascii -> bool := fun _ => true.

Definition in_group (re : regex) : regex :=
  map (fun it => Item (cls it) (qt it) true) re.

(** [re.sub] of a single-character class by [repl]. *)
Definition sub_char (p : ascii -> bool) (repl : str) (t : str) : str :=
  flat_map (fun c => if p c then repl else [c]) t.

(** [re.sub] of [class+] by [repl]: each maximal run is replaced once. *)
Fixpoint sub_runs (p : ascii -> bool) (repl : str) (t : str) : str :=
  match t with
  | [] => []
  | c :: t' =>
      if p c then
        match t' with
        | d :: _ => if p d then sub_runs p repl t' else repl ++ sub_runs p repl t'
        | [] => repl
        end
      else c :: sub_runs p repl t'
  end.

(** What a match is, apart from the order in which the matcher tries
    the alternatives: the text consumed by each item fits the item. *)
Definition all (p : ascii -> bool) (t : str) : Prop :=
  Forall (fun c => p c = true) t.

Definition seg_ok (it : item) (seg : str) : Prop :=
  match qt it with
  | One => exists c, seg = [c] /\ cls it c = true
  | Star | StarLazy => all (cls it) seg
  | Plus => seg <> [] /\ all (cls it) seg
  end.

Definition matches (re : regex) (segs : list str) : Prop :=
  Forall2 seg_ok re segs.

End Re.

(** ** Data model *)

(** [episode_number]: an [int], a [str] such as ["P25"], or [None]. *)
Inductive EpNum :=
| EpInt (n : Z)
| EpStr (t : str)
| EpNone.

Record Episode := {
  title : str;
  episode_number : EpNum;
  published : str;
  audio_url : option str;
  link : str
}.

Record Segment := { seg_text : str; seg_start : Q; seg_end : Q }.

(** A transcript; [segments = None] when the key is missing. The key
    [text], which [analyze_with_claude] reads before its [try], is always
    there. *)
Record Transcript := { text : str; segments : option (list Segment) }.

Record Finding := {
  f_episode_number : EpNum;
  f_episode_title : str;
  f_timestamp : str;
  f_topic : str;
  f_quote : str;
  f_context : str
}.

Record Progress := {
  episodes_parsed : list EpNum;
  episodes_transcribed : list EpNum;
  episodes_analyzed : list EpNum;
  results : list Finding
}.

(** An entry of the parsed feed: the [href] of each enclosure. The
    entry has the [title], [published] and [link] the source reads; an
    entry without one of them, on which the source raises
    [AttributeError], has no counterpart here. *)
Record Entry := {
  entry_title : str;
  entry_published : str;
  entry_enclosures : list (option str);
  entry_link : str
}.

(** An element of the array the model answers with: an object with its
    three optional keys, or anything else. The value of a key that is
    present is a string; an object with another value there (a JSON
    [null], a number) has no counterpart here. *)
Inductive JItem :=
| JDict (topic quote context : option str)
| JOther.

(** ** State and effects *)

Inductive dir := Downloads | Transcripts | Results.

Inductive event :=
| Exists (d : dir) (name : str)
| Read (d : dir) (name : str)
| Write (d : dir) (name : str)
| HttpGet (url : str)
| Transcribe (name : str)
| Ask (prompt_text : str).

(** What a streaming GET does: fail before any byte, deliver the chunks,
    or fail after some chunks. *)
Inductive Response :=
| HttpError
| HttpBody (chunks : list str)
| HttpBroken (chunks : list str).

Inductive exc := ValueError | FileNotFoundError.

Inductive result (A : Type) :=
| Ok (a : A)
| Raise (e : exc).
Arguments Ok {A} a.
Arguments Raise {A} e.

(** The three directories, the log of what the program did, and the
    fields of the analyzer object. *)
Record St := {
  downloads : gmap str str;
  transcripts : gmap str Transcript;
  progress_file : option Progress;
  csv_file : option str;
  md_file : option str;
  trace : list event;
  progress : Progress;
  whisper_model : bool
}.

Definition M (A : Type) : Type := St -> result A * St.

Definition ret {A} (a : A) : M A := fun st => (Ok a, st).

Definition raise {A} (e : exc) : M A := fun st => (Raise e, st).

Definition bind {A B} (m : M A) (k : A -> M B) : M B := fun st =>
  match m st with
  | (Ok a, st') => k a st'
  | (Raise e, st') => (Raise e, st')
  end.

Notation "'do' x <- m ; k" := (bind m (fun x => k))
  (at level 10, x name, m at level 100, k at level 200).
Notation "m ;; k" := (bind m (fun _ => k))
  (at level 100, k at level 200, right associativity).

Definition get : M St := fun st => (Ok st, st).

Definition log (ev : event) : M unit := fun st =>
  (Ok tt, {| downloads := downloads st; transcripts := transcripts st;
             progress_file := progress_file st; csv_file := csv_file st;
             md_file := md_file st; trace := trace st ++ [ev];
             progress := progress st; whisper_model := whisper_model st |}).

Definition set_downloads (f : gmap str str) : M unit := fun st =>
  (Ok tt, {| downloads := f; transcripts := transcripts st;
             progress_file := progress_file st; csv_file := csv_file st;
             md_file := md_file st; trace := trace st;
             progress := progress st; whisper_model := whisper_model st |}).

Definition set_transcripts (f : gmap str Transcript) : M unit := fun st =>
  (Ok tt, {| downloads := downloads st; transcripts := f;
             progress_file := progress_file st; csv_file := csv_file st;
             md_file := md_file st; trace := trace st;
             progress := progress st; whisper_model := whisper_model st |}).

Definition set_progress_file (p : option Progress) : M unit := fun st =>
  (Ok tt, {| downloads := downloads st; transcripts := transcripts st;
             progress_file := p; csv_file := csv_file st;
             md_file := md_file st; trace := trace st;
             progress := progress st; whisper_model := whisper_model st |}).

Definition set_csv_file (c : option str) : M unit := fun st =>
  (Ok tt, {| downloads := downloads st; transcripts := transcripts st;
             progress_file := progress_file st; csv_file := c;
             md_file := md_file st; trace := trace st;
             progress := progress st; whisper_model := whisper_model st |}).

Definition set_md_file (c : option str) : M unit := fun st =>
  (Ok tt, {| downloads := downloads st; transcripts := transcripts st;
             progress_file := progress_file st; csv_file := csv_file st;
             md_file := c; trace := trace st;
             progress := progress st; whisper_model := whisper_model st |}).

Definition set_progress (p : Progress) : M unit := fun st =>
  (Ok tt, {| downloads := downloads st; transcripts := transcripts st;
             progress_file := progress_file st; csv_file := csv_file st;
             md_file := md_file st; trace := trace st;
             progress := p; whisper_model := whisper_model st |}).

Definition set_whisper_model (b : bool) : M unit := fun st =>
  (Ok tt, {| downloads := downloads st; transcripts := transcripts st;
             progress_file := progress_file st; csv_file := csv_file st;
             md_file := md_file st; trace := trace st;
             progress := progress st; whisper_model := b |}).

(** [path.exists()], on a name the file system accepts. *)
Definition exists_download (name : str) : M bool :=
  log (Exists Downloads name) ;;
  do st <- get ;
  ret (bool_decide (is_Some (downloads st !! name))).

Definition exists_transcript (name : str) : M bool :=
  log (Exists Transcripts name) ;;
  do st <- get ;
  ret (bool_decide (is_Some (transcripts st !! name))).

(** The URLs a run has called [requests.get] on, oldest first. The calls
    of the language model's client are the [Ask] events and are not in
    this list. *)
Fixpoint http_requests (tr : list event) : list str :=
  match tr with
  | HttpGet url :: tr' => url :: http_requests tr'
  | _ :: tr' => http_requests tr'
  | [] => []
  end.

(** ** analyze_podcast.py *)

Definition TEST_MODE : bool := false.
Definition TEST_EPISODES_COUNT : nat := 3.

Definition dquote : ascii := ascii_of_N 34.
Definition newline : ascii := ascii_of_N 10.

(** [r'Paid-only episode (\d+)'] and [r'Episode (\d+)'], both with
    [re.IGNORECASE]. *)
Definition digits_group : Re.regex := [Re.Item Py.is_digit Re.Plus true].

Definition paid_pattern : Re.regex := Re.lit_i "Paid-only episode " ++ digits_group.

Definition plain_pattern : Re.regex := Re.lit_i "Episode " ++ digits_group.

(** [_extract_episode_number]; [int(match.group(1))] raises [ValueError]
    on a text that is not a number. *)
Definition _extract_episode_number (title : str) : result EpNum :=
  match Re.search_group1 paid_pattern title with
  | Some g => Ok (EpStr (py "P" ++ g))
  | None =>
      match Re.search_group1 plain_pattern title with
      | Some g =>
          match Py.int_of_str g with
          | Some n => Ok (EpInt n)
          | None => Raise ValueError
          end
      | None => Ok EpNone
      end
  end.

(** One entry of the feed loop of [parse_rss_feed]. *)
Definition parse_entry (en : Entry) : result Episode :=
  match _extract_episode_number (entry_title en) with
  | Ok episode_num =>
      Ok {| title := entry_title en;
            episode_number := episode_num;
            published := entry_published en;
            audio_url := match entry_enclosures en with
                         | href :: _ => href
                         | [] => None
                         end;
            link := entry_link en |}
  | Raise e => Raise e
  end.

(** [parse_rss_feed], from the entries of the fetched feed: what the
    loop does once [requests.get] and [feedparser.parse] have returned. *)
Fixpoint parse_entries (entries : list Entry) : result (list Episode) :=
  match entries with
  | [] => Ok []
  | en :: entries' =>
      match parse_entry en with
      | Ok episode =>
          match parse_entries entries' with
          | Ok episodes => Ok (episode :: episodes)
          | Raise e => Raise e
          end
      | Raise e => Raise e
      end
  end.

Definition parse_rss_feed (entries : list Entry) : result (list Episode) :=
  match parse_entries entries with
  | Ok episodes =>
      Ok (if TEST_MODE then take TEST_EPISODES_COUNT episodes else episodes)
  | Raise e => Raise e
  end.

(** [[^\w\s-]] and [[-\s]+] *)
Definition unsafe_char (c : ascii) : bool :=
  negb (Py.is_word c || Py.is_space c || Ascii.eqb c "-").

Definition dash_or_space (c : ascii) : bool :=
  Ascii.eqb c "-" || Py.is_space c.

Definition safe_title (title : str) : str :=
  let t := Py.strip (Re.sub_char unsafe_char [] title) in
  take 50 (Re.sub_runs dash_or_space (py "-") t).

(** The [filename] of [download_episode]. *)
Definition audio_filename (e : Episode) : str :=
  match episode_number e with
  | EpInt ep_num => Py.fmt_0d 3 ep_num ++ py "_" ++ safe_title (title e) ++ py ".mp3"
  | EpStr ep_num => ep_num ++ py "_" ++ safe_title (title e) ++ py ".mp3"
  | EpNone => safe_title (title e) ++ py ".mp3"
  end.

(** [not episode['audio_url']]: [None] and the empty string are falsy. *)
Definition no_audio_url (e : Episode) : bool :=
  match audio_url e with
  | None => true
  | Some u => negb (Py.truthy u)
  end.

Definition url_of (e : Episode) : str := default [] (audio_url e).

Section Pipeline.

(** The services the program calls: the HTTP server, the transcription
    engine on the bytes of an audio file ([None]: it raised), the language
    model on the transcript text embedded in the fixed prompt ([None]: the
    call raised), and [json.loads] on an array of findings ([None]: it
    raised). *)
Variable http_get : str -> Response.
Variable whisper_transcribe : str -> option Transcript.
Variable claude : str -> option str.
Variable json_loads : str -> option (list JItem).

(** The [try] block of [download_episode]. *)
Definition fetch (e : Episode) (filename : str) : M (option str) :=
  log (HttpGet (url_of e)) ;;
  match http_get (url_of e) with
  | HttpError => ret None
  | HttpBody chunks =>
      log (Write Downloads filename) ;;
      do st <- get ;
      set_downloads (<[filename := concat chunks]> (downloads st)) ;;
      ret (Some filename)
  | HttpBroken chunks =>
      log (Write Downloads filename) ;;
      do st <- get ;
      set_downloads (<[filename := concat chunks]> (downloads st)) ;;
      ret None
  end.

Definition download_episode (e : Episode) : M (option str) :=
  if no_audio_url e then ret None
  else
    let filename := audio_filename e in
    do hit <- exists_download filename ;
    if hit then ret (Some filename)
    else
      match episode_number e with
      | EpStr ep_num =>
          if Py.startswith (py "P") ep_num then
            match Py.int_of_str (drop 1 ep_num) with
            | None => raise ValueError
            | Some old_num =>
                let old_filename :=
                  Py.fmt_0d 3 old_num ++ py "_" ++ safe_title (title e) ++ py ".mp3" in
                do old_hit <- exists_download old_filename ;
                if old_hit then ret (Some old_filename)
                else fetch e filename
            end
          else fetch e filename
      | _ => fetch e filename
      end.

(** The [transcript_filename] of [transcribe_episode]. *)
Definition transcript_filename (e : Episode) : str :=
  match episode_number e with
  | EpInt ep_num => Py.fmt_0d 3 ep_num ++ py "_transcript.json"
  | EpStr ep_num => ep_num ++ py "_transcript.json"
  | EpNone => safe_title (title e) ++ py "_transcript.json"
  end.

(** [json.load] of a cached transcript, the file holding a transcript. *)
Definition load_transcript (name : str) : M (option Transcript) :=
  log (Read Transcripts name) ;;
  do st <- get ;
  ret (transcripts st !! name).

(** The tail of [transcribe_episode]: load the engine once, run it.
    [whisper.load_model], which is outside the [try], is taken to
    return. *)
Definition run_whisper (audio_path name : str) : M (option Transcript) :=
  do st <- get ;
  (if whisper_model st then ret tt else set_whisper_model true) ;;
  log (Transcribe audio_path) ;;
  do st' <- get ;
  match downloads st' !! audio_path ≫= whisper_transcribe with
  | Some tr =>
      log (Write Transcripts name) ;;
      set_transcripts (<[name := tr]> (transcripts st')) ;;
      ret (Some tr)
  | None => ret None
  end.

Definition transcribe_episode (e : Episode) (audio_path : str)
  : M (option Transcript) :=
  let name := transcript_filename e in
  do hit <- exists_transcript name ;
  if hit then load_transcript name
  else
    match episode_number e with
    | EpStr ep_num =>
        if Py.startswith (py "P") ep_num then
          match Py.int_of_str (drop 1 ep_num) with
          | None => raise ValueError
          | Some old_num =>
              let old_filename := Py.fmt_0d 3 old_num ++ py "_transcript.json" in
              do old_hit <- exists_transcript old_filename ;
              if old_hit then load_transcript old_filename
              else run_whisper audio_path name
          end
        else run_whisper audio_path name
    | _ => run_whisper audio_path name
    end.

(** [r'```json\s*(\[.*?\])\s*```'] and [r'(\[.*\])'], both with
    [re.DOTALL]. *)
Definition fence_pattern : Re.regex :=
  Re.lit "```json" ++ [Re.Item Py.is_space Re.Star false]
  ++ Re.in_group (Re.lit "[" ++ [Re.Item Re.any Re.StarLazy false] ++ Re.lit "]")
  ++ [Re.Item Py.is_space Re.Star false] ++ Re.lit "```".

Definition bare_pattern : Re.regex :=
  Re.in_group (Re.lit "[" ++ [Re.Item Re.any Re.Star false] ++ Re.lit "]").

(** The [findings_json] of [analyze_with_claude]. *)
Definition extract_json (response_text : str) : str :=
  match Re.search_group1 fence_pattern response_text with
  | Some g => g
  | None =>
      match Re.search_group1 bare_pattern response_text with
      | Some g => g
      | None => py "[]"
      end
  end.

(** [seconds // d], [seconds % d] and [int(x)] on floats. *)
Definition floordiv (x d : Q) : Q := inject_Z (Qfloor (x / d)).

Definition fmod (x d : Q) : Q := x - d * inject_Z (Qfloor (x / d)).

Definition int_of_float (x : Q) : Z :=
  if Qle_bool 0 x then Qfloor x else Qceiling x.

Definition _format_timestamp (seconds : Q) : str :=
  let hours := int_of_float (floordiv seconds 3600) in
  let minutes := int_of_float (floordiv (fmod seconds 3600) 60) in
  let secs := int_of_float (fmod seconds 60) in
  if (hours >? 0)%Z then
    Py.str_of_int hours ++ py ":" ++ Py.fmt_0d 2 minutes ++ py ":" ++ Py.fmt_0d 2 secs
  else
    Py.str_of_int minutes ++ py ":" ++ Py.fmt_0d 2 secs.

(** The segment loop of [_find_timestamp]. *)
Fixpoint scan_segments (quote_lower : str) (segs : list Segment) : str :=
  match segs with
  | [] => py "Unknown"
  | segment :: segs' =>
      let segment_text := Py.lower (seg_text segment) in
      if Py.contains quote_lower segment_text || Py.contains segment_text quote_lower
      then _format_timestamp (seg_start segment)
      else scan_segments quote_lower segs'
  end.

Definition _find_timestamp (transcript : Transcript) (quote : str) : str :=
  if negb (Py.truthy quote) then py "Unknown"
  else
    match segments transcript with
    | None => py "Unknown"
    | Some segs => scan_segments (take 50 (Py.lower quote)) segs
    end.

(** The body of the loop over [findings]; [None] when the element has
    no [get]. *)
Definition enhance (e : Episode) (transcript : Transcript) (finding : JItem)
  : option Finding :=
  match finding with
  | JDict topic quote context =>
      Some {| f_episode_number := episode_number e;
              f_episode_title := title e;
              f_timestamp := _find_timestamp transcript (default [] quote);
              f_topic := default (py "Unknown") topic;
              f_quote := default [] quote;
              f_context := default [] context |}
  | JOther => None
  end.

(** [analyze_with_claude]: every failure inside the [try] gives [].
    [transcript['text']], read before the [try], is there. *)
Definition analyze_with_claude (e : Episode) (transcript : Transcript)
  : M (list Finding) :=
  log (Ask (text transcript)) ;;
  match claude (text transcript) with
  | None => ret []
  | Some response_text =>
      match json_loads (extract_json response_text) with
      | None => ret []
      | Some findings =>
          match mapM (enhance e transcript) findings with
          | Some enhanced_findings => ret enhanced_findings
          | None => ret []
          end
      end
  end.

Definition progress_name : str := py "progress.json".

Definition empty_progress : Progress :=
  {| episodes_parsed := []; episodes_transcribed := [];
     episodes_analyzed := []; results := [] |}.

Definition _load_progress : M Progress :=
  log (Exists Results progress_name) ;;
  do st <- get ;
  match progress_file st with
  | Some p => log (Read Results progress_name) ;; ret p
  | None => ret empty_progress
  end.

Definition _save_progress : M unit :=
  log (Write Results progress_name) ;;
  do st <- get ;
  set_progress_file (Some (progress st)).

(** [PodcastAnalyzer.__init__], the directories being there. *)
Definition init : M unit :=
  set_whisper_model false ;;
  do p <- _load_progress ;
  set_progress p.

Definition with_results (p : Progress) (fs : list Finding) : Progress :=
  {| episodes_parsed := episodes_parsed p;
     episodes_transcribed := episodes_transcribed p;
     episodes_analyzed := episodes_analyzed p;
     results := fs |}.

(** The body of the loop of [process_episodes]: the findings gathered
    so far, after this episode. [self.progress['results']] and
    [all_findings] are one list object after the first assignment; the
    loop reads neither between a later [extend] and the assignment that
    follows it, so assigning the extended list gives the same states at
    every save. *)
Definition process_one (episode : Episode) (all_findings : list Finding)
  : M (list Finding) :=
  do audio_path <- download_episode episode ;
  match audio_path with
  | None => ret all_findings
  | Some path =>
      do transcript <- transcribe_episode episode path ;
      match transcript with
      | None => ret all_findings
      | Some tr =>
          do findings <- analyze_with_claude episode tr ;
          let all_findings' := all_findings ++ findings in
          do st <- get ;
          set_progress (with_results (progress st) all_findings') ;;
          _save_progress ;;
          ret all_findings'
      end
  end.

Fixpoint process_loop (episodes : list Episode) (all_findings : list Finding)
  : M (list Finding) :=
  match episodes with
  | [] => ret all_findings
  | episode :: episodes' =>
      do all_findings' <- process_one episode all_findings ;
      process_loop episodes' all_findings'
  end.

Definition process_episodes (episodes : list Episode) : M (list Finding) :=
  process_loop episodes [].

(** *** Reports *)

(** [sort_key]; [None] is the [ValueError] of [int(ep_num[1:])]. *)
Definition sort_key (x : Finding) : option (Z * Z) :=
  match f_episode_number x with
  | EpNone => Some (2, 0)%Z
  | EpStr ep_num => pair 1%Z <$> Py.int_of_str (drop 1 ep_num)
  | EpInt ep_num => Some (0%Z, ep_num)
  end.

(** [a < b] on tuples of two integers. *)
Definition key_ltb (a b : Z * Z) : bool :=
  (a.1 <? b.1)%Z || ((a.1 =? b.1)%Z && (a.2 <? b.2)%Z).

(** [list.sort(key=..., reverse=True)]: the keys are computed first, a
    key that raises leaves the list as it was; the order is descending
    and elements of equal key keep their order. *)
Fixpoint insert_desc {A} (p : (Z * Z) * A) (l : list ((Z * Z) * A))
  : list ((Z * Z) * A) :=
  match l with
  | [] => [p]
  | q :: l' => if key_ltb p.1 q.1 then q :: insert_desc p l' else p :: l
  end.

Definition sort_desc {A} (l : list ((Z * Z) * A)) : list ((Z * Z) * A) :=
  foldr insert_desc [] l.

Definition sort_reverse {A} (key : A -> option (Z * Z)) (l : list A)
  : option (list A) :=
  keyed ← mapM (fun x => (fun k => (k, x)) <$> key x) l ;
  Some (snd <$> sort_desc keyed).

(** An [episode_number] inside an f-string. *)
Definition ep_text (n : EpNum) : str :=
  match n with
  | EpInt n => Py.str_of_int n
  | EpStr t => t
  | EpNone => py "None"
  end.

Definition csv_escape (t : str) : str :=
  Py.replace_char dquote [dquote; dquote] t.

Definition csv_row (finding : Finding) : str :=
  ep_text (f_episode_number finding) ++ py "," ++ [dquote]
  ++ csv_escape (f_episode_title finding) ++ [dquote] ++ py ","
  ++ f_timestamp finding ++ py "," ++ [dquote]
  ++ csv_escape (f_topic finding) ++ [dquote] ++ py "," ++ [dquote]
  ++ csv_escape (f_context finding) ++ [dquote] ++ [newline].

Definition csv_text (findings : list Finding) : str :=
  py "Episode Number,Episode Title,Timestamp,Topic Summary,Context"
  ++ [newline] ++ concat (map csv_row findings).

Definition md_escape (t : str) : str := Py.replace_char "|" (py "\|") t.

Definition md_row (finding : Finding) : str :=
  py "| " ++ ep_text (f_episode_number finding) ++ py " | "
  ++ md_escape (f_episode_title finding) ++ py " | "
  ++ f_timestamp finding ++ py " | "
  ++ md_escape (f_topic finding) ++ py " | "
  ++ Py.replace_char newline (py " ") (md_escape (f_context finding))
  ++ py " |" ++ [newline].

Definition md_text (findings : list Finding) : str :=
  py "# Science Fictions: Future Episode Suggestions" ++ [newline; newline]
  ++ py "Total instances found: " ++ Py.str_of_int (Z.of_nat (length findings))
  ++ [newline; newline]
  ++ py "| Episode # | Episode Title | Timestamp | Topic Summary | Context |"
  ++ [newline]
  ++ py "|-----------|---------------|-----------|---------------|----------|"
  ++ [newline]
  ++ concat (map md_row findings).

Definition csv_name : str := py "future_episodes.csv".
Definition md_name : str := py "future_episodes.md".

(** The part of [generate_report] the two programs share: sort the list
    in place, write the two files. The sorted list is returned, being
    what the caller's list has become. *)
Definition write_reports (findings : list Finding) : M (list Finding) :=
  match sort_reverse sort_key findings with
  | None => raise ValueError
  | Some sorted =>
      log (Write Results csv_name) ;;
      set_csv_file (Some (csv_text sorted)) ;;
      log (Write Results md_name) ;;
      set_md_file (Some (md_text sorted)) ;;
      ret sorted
  end.

(** [PodcastAnalyzer.generate_report] *)
Definition generate_report (findings : list Finding) : M (list Finding) :=
  write_reports findings.

(** [main] of analyze_podcast.py, the configuration file being there. *)
Definition main (entries : list Entry) : M unit :=
  init ;;
  match parse_rss_feed entries with
  | Raise e => raise e
  | Ok episodes =>
      do findings <- process_episodes episodes ;
      generate_report findings ;;
      ret tt
  end.

End Pipeline.

(** ** generate_report_only.py

    Its [sort_key] and its two writing loops have the text of those of
    analyze_podcast.py. *)
Module ReportOnly.

Definition generate_report : M unit :=
  log (Read Results progress_name) ;;
  do st <- get ;
  match progress_file st with
  | None => raise FileNotFoundError
  | Some progress =>
      let findings := results progress in
      write_reports findings ;;
      ret tt
  end.

End ReportOnly.

(** * Vocabulary of the properties *)

(** ** Episode identifiers *)

(** [title] holds, after [pre], a text equal to [L] up to case and then
    the number [N], which the next character does not continue. *)
Definition number_at (L title pre N : str) : Prop :=
  exists m rest,
    title = pre ++ m ++ N ++ rest /\ Py.lower m = Py.lower L /\
    N <> [] /\ Re.all Py.is_digit N /\
    forall c rest', rest = c :: rest' -> Py.is_digit c = false.

(** [title] matches the pattern "[L] N": somewhere it holds a text equal
    to [L] up to case, followed by at least one digit. *)
Definition has_number (L title : str) : Prop :=
  exists pre m N rest,
    title = pre ++ m ++ N ++ rest /\ Py.lower m = Py.lower L /\
    N <> [] /\ Re.all Py.is_digit N.

(** [N] is the number of the first place where [title] matches. *)
Definition first_number (L title N : str) : Prop :=
  exists pre,
    number_at L title pre N /\
    forall pre' m' N' rest',
      title = pre' ++ m' ++ N' ++ rest' -> Py.lower m' = Py.lower L ->
      N' <> [] -> Re.all Py.is_digit N' -> length pre <= length pre'.

(** Three titles: a paid one that also holds "Episode 3", a plain one,
    and one without number. *)
Definition paid_title : str := py "PAID-ONLY Episode 12 (after Episode 3)".
Definition plain_title : str := py "Episode 25: The Replication Crisis".
Definition bonus_title : str := py "Bonus: Listener Questions".

(** ** The audio cache *)

(** The legacy name of a paid episode numbered [N]: the number padded to
    three digits, as for a plain episode. *)
Definition legacy_filename (N title : str) : str :=
  Py.fmt_0d 3 (Py.digits_value N) ++ py "_" ++ safe_title title ++ py ".mp3".

(** A state with one file in the downloads directory and nothing else. *)
Definition one_download (name : str) : St :=
  {| downloads := {[ name := py "audio" ]}; transcripts := ∅;
     progress_file := None; csv_file := None; md_file := None; trace := [];
     progress := empty_progress; whisper_model := false |}.

Definition no_server : str -> Response := fun _ => HttpError.

Definition bonus_entry : Entry :=
  {| entry_title := py "Bonus: Listener Questions"; entry_published := py "2024";
     entry_enclosures := [Some (py "https://example.org/bonus.mp3")];
     entry_link := py "https://example.org/bonus" |}.

Definition bonus_episode : Episode :=
  {| title := py "Bonus: Listener Questions"; episode_number := EpNone;
     published := py "2024";
     audio_url := Some (py "https://example.org/bonus.mp3");
     link := py "https://example.org/bonus" |}.

(** The same episode from an entry without enclosure. *)
Definition bonus_no_url : Episode :=
  {| title := py "Bonus: Listener Questions"; episode_number := EpNone;
     published := py "2024"; audio_url := None;
     link := py "https://example.org/bonus" |}.

Definition paid_episode : Episode :=
  {| title := py "Paid-only episode 25: Replication"; episode_number := EpStr (py "P25");
     published := py "2024";
     audio_url := Some (py "https://example.org/p25.mp3");
     link := py "https://example.org/p25" |}.

Definition paid_no_url : Episode :=
  {| title := py "Paid-only episode 25: Replication"; episode_number := EpStr (py "P25");
     published := py "2024"; audio_url := None;
     link := py "https://example.org/p25" |}.

(** ** Reports *)

(** Descending order of the keys: no element is below its successor. *)
Definition desc {A} (p q : (Z * Z) * A) : Prop := key_ltb p.1 q.1 = false.

Definition finding_of (n : EpNum) : Finding :=
  {| f_episode_number := n; f_episode_title := py "A title";
     f_timestamp := py "1:02"; f_topic := py "A topic";
     f_quote := py "we should do an episode on it";
     f_context := py "said near the end" |}.

(** The findings of the specification's example, in its order. *)
Definition example_findings : list Finding :=
  [finding_of (EpInt 5); finding_of (EpStr (py "P3")); finding_of EpNone;
   finding_of (EpInt 10)].

Definition blank : St :=
  {| downloads := ∅; transcripts := ∅; progress_file := None;
     csv_file := None; md_file := None; trace := [];
     progress := empty_progress; whisper_model := false |}.

(** ** Timestamps *)

(** [a] is a substring of [b]. *)
Definition substring (a b : str) : Prop := exists u v, b = u ++ a ++ v.

(** The quote prefix is in the segment's lower-cased text, or the other
    way round. *)
Definition seg_matches (quote_lower : str) (segment : Segment) : Prop :=
  substring quote_lower (Py.lower (seg_text segment))
  \/ substring (Py.lower (seg_text segment)) quote_lower.

Definition two_digits (n : Z) : str :=
  [Py.digit_char (n / 10); Py.digit_char (n mod 10)]%Z.

(** H:MM:SS from one hour on, M:SS below, for a whole number of seconds. *)
Definition clock (t : Z) : str :=
  (if 3600 <=? t then
     Py.str_of_int (t / 3600) ++ py ":" ++ two_digits ((t mod 3600) / 60)
     ++ py ":" ++ two_digits (t mod 60)
   else Py.str_of_int (t / 60) ++ py ":" ++ two_digits (t mod 60))%Z.

Definition example_transcript : Transcript :=
  {| text := py "Welcome back. We should do an episode on p-hacking. Bye.";
     segments := Some [ {| seg_text := py "Welcome back."; seg_start := 0; seg_end := 2 |};
                        {| seg_text := py " We should do an episode on p-hacking.";
                           seg_start := 7451 # 2; seg_end := 3730 |};
                        {| seg_text := py " Bye."; seg_start := 3730; seg_end := 3731 |} ] |}.

(** ** The reply of the model *)

(** After [pre], [response] holds a ```json fence around the array [a]:
    the opening, white space, a text from "[" to "]", white space, the
    closing. *)
Definition fenced_at (response pre a : str) : Prop :=
  exists ws1 body ws2 post,
    response = pre ++ py "```json" ++ ws1 ++ a ++ ws2 ++ py "```" ++ post
    /\ a = py "[" ++ body ++ py "]"
    /\ Re.all Py.is_space ws1 /\ Re.all Py.is_space ws2.

Definition has_fence (response : str) : Prop :=
  exists pre a, fenced_at response pre a.

(** [a] is the array of the first fence of [response], and the shortest
    array that fence can be read to hold. *)
Definition first_fenced (response a : str) : Prop :=
  exists pre,
    fenced_at response pre a
    /\ forall pre' a',
        fenced_at response pre' a' ->
        length pre <= length pre'
        /\ (length pre' = length pre -> length a <= length a').

(** [response] holds a "[" with a "]" somewhere after it. *)
Definition has_brackets (response : str) : Prop :=
  exists pre body post, response = pre ++ py "[" ++ body ++ py "]" ++ post.

(** [a] is the text of [response] from its first "[" to its last "]". *)
Definition bare_array (response a : str) : Prop :=
  exists pre body post,
    response = pre ++ a ++ post
    /\ a = py "[" ++ body ++ py "]"
    /\ ("["%char ∉ pre) /\ ("]"%char ∉ post).

(** What [analyze_with_claude] returns, from the reply. *)
Definition findings_of_reply (json_loads : str -> option (list JItem))
    (e : Episode) (transcript : Transcript) (reply : option str) : list Finding :=
  match reply with
  | None => []
  | Some response_text =>
      match json_loads (extract_json response_text) with
      | None => []
      | Some items => default [] (mapM (enhance e transcript) items)
      end
  end.

(** The pieces of the fence pattern after the lazy repetition. *)
Definition space_star : Re.item := Re.Item Py.is_space Re.Star false.

Definition fence_close : Re.regex :=
  Re.Item (Ascii.eqb "]") Re.One true :: space_star :: Re.lit "```".

(** A JSON array with one finding, and three replies: one with the array
    in a fence, one with the bare array, one with neither. *)
Definition quoted (t : string) : str := [dquote] ++ py t ++ [dquote].

Definition payload_body : str :=
  py "{" ++ quoted "topic" ++ py ": " ++ quoted "p-hacking" ++ py ", "
  ++ quoted "quote" ++ py ": " ++ quoted "we should do an episode on p-hacking"
  ++ py "}".

Definition payload : str := py "[" ++ payload_body ++ py "]".

Definition reply_fenced : str :=
  py "Here it is:" ++ [newline] ++ py "```json" ++ [newline] ++ payload
  ++ [newline] ++ py "```" ++ [newline] ++ py "Reference [3] is not part of it.".

Definition reply_bare : str := py "I found " ++ payload ++ py " in the transcript.".

Definition reply_plain : str := py "I found nothing ] to report [.".

Definition model_says (reply : str) : str -> option str := fun _ => Some reply.

(** [json.loads] on [payload] and on the empty array; other texts are
    taken as malformed. *)
Definition sample_loads : str -> option (list JItem) := fun t =>
  if decide (t = payload) then
    Some [JDict (Some (py "p-hacking"))
                (Some (py "we should do an episode on p-hacking")) None]
  else if decide (t = py "[]") then Some []
  else None.

(** A reply in which further bracketed text follows the bare array. *)
Definition reply_two_arrays : str :=
  py "I found " ++ payload ++ py " and reference [1].".

(** [f] is the finding made of the element [item] for the episode: the
    element is an object; the finding has the number and the title of the
    episode, the topic, quote and context of the object, "Unknown" standing
    for a missing topic and the empty text for a missing quote or context,
    and the timestamp found for its quote. *)
Definition finding_of_item (e : Episode) (transcript : Transcript)
    (item : JItem) (f : Finding) : Prop :=
  exists topic quote context,
    item = JDict topic quote context
    /\ f_episode_number f = episode_number e
    /\ f_episode_title f = title e
    /\ f_topic f = match topic with Some t => t | None => py "Unknown" end
    /\ f_quote f = match quote with Some q => q | None => [] end
    /\ f_context f = match context with Some c => c | None => [] end
    /\ f_timestamp f = _find_timestamp transcript (f_quote f).

(** ** The progress record *)

(** From [st], the episode passes the three stages and the analysis gives
    [findings]. *)
Definition completes (http_get : str -> Response)
    (whisper_transcribe : str -> option Transcript)
    (claude : str -> option str) (json_loads : str -> option (list JItem))
    (e : Episode) (st : St) (findings : list Finding) : Prop :=
  exists path st1 transcript st2 st3,
    download_episode http_get e st = (Ok (Some path), st1)
    /\ transcribe_episode whisper_transcribe e path st1 = (Ok (Some transcript), st2)
    /\ analyze_with_claude claude json_loads e transcript st2 = (Ok findings, st3).

(** The run that starts in [st] takes the episode at position [i] of the
    list through the three stages, from the state in which it reaches that
    episode, and the analysis gives [findings]. *)
Definition completed_at (http_get : str -> Response)
    (whisper_transcribe : str -> option Transcript)
    (claude : str -> option str) (json_loads : str -> option (list JItem))
    (episodes : list Episode) (st : St) (i : nat) (findings : list Finding)
  : Prop :=
  exists e earlier st_i,
    episodes !! i = Some e
    /\ process_episodes http_get whisper_transcribe claude json_loads
         (take i episodes) st
       = (Ok earlier, st_i)
    /\ completes http_get whisper_transcribe claude json_loads e st_i findings.

Definition episode_7 : Episode :=
  {| title := py "Episode 7: P-values"; episode_number := EpInt 7;
     published := py "2023";
     audio_url := Some (py "https://example.org/7.mp3");
     link := py "https://example.org/7" |}.

Definition no_engine : str -> option Transcript := fun _ => None.

(** A finding of an earlier run, about another episode. *)
Definition old_finding : Finding := finding_of (EpInt 3).

(** The state a run that was interrupted after episode 3 leaves behind,
    with the audio and the transcript of episode 7 already cached. *)
Definition interrupted : St :=
  {| downloads := {[ audio_filename episode_7 := py "audio" ]};
     transcripts := {[ transcript_filename episode_7 := example_transcript ]};
     progress_file := Some {| episodes_parsed := []; episodes_transcribed := [];
                              episodes_analyzed := []; results := [old_finding] |};
     csv_file := None; md_file := None; trace := [];
     progress := empty_progress; whisper_model := false |}.

(** The findings the analysis of episode 7 gives there. *)
Definition new_findings : list Finding :=
  findings_of_reply sample_loads episode_7 example_transcript (Some reply_fenced).

(** ** Further properties: vocabulary *)

(** No two hyphens in a row. *)
Fixpoint single_dashes (t : str) : Prop :=
  match t with
  | a :: (b :: _) as t' => ~ (a = "-"%char /\ b = "-"%char) /\ single_dashes t'
  | _ => True
  end.

(** The audio files a run has handed to the transcription engine. *)
Fixpoint engine_runs (tr : list event) : list str :=
  match tr with
  | Transcribe name :: tr' => name :: engine_runs tr'
  | _ :: tr' => engine_runs tr'
  | [] => []
  end.

(** An identifier as the feed reader makes them: a non-negative integer,
    the tag "P" followed by digits, or absent. *)
Definition well_formed (n : EpNum) : Prop :=
  match n with
  | EpInt k => (0 <= k)%Z
  | EpStr t => exists N, t = py "P" ++ N /\ N <> [] /\ Re.all Py.is_digit N
  | EpNone => True
  end.



#[global] Instance EpNum_eq_dec : EqDecision EpNum.
Proof. solve_decision. Defined.

(** Every "|" comes right after a backslash; [after_backslash] tells
    whether the text itself does. *)
Fixpoint pipes_escaped (after_backslash : bool) (t : str) : Prop :=
  match t with
  | [] => True
  | c :: t' =>
      (c = "|"%char -> after_backslash = true)
      /\ pipes_escaped (Ascii.eqb c "\") t'
  end.

(** The double quotes of the text come in pairs. *)
Fixpoint quotes_paired (t : str) : Prop :=
  match t with
  | [] => True
  | c :: t' =>
      if Ascii.eqb c dquote then
        match t' with
        | d :: t'' => d = dquote /\ quotes_paired t''
        | [] => False
        end
      else quotes_paired t'
  end.

(** A step that leaves the progress file as it is. *)
Definition keeps_progress_file {A} (m : M A) : Prop :=
  forall st r st', m st = (r, st') -> progress_file st' = progress_file st.

(** The finding carries the number and the title of the episode. *)
Definition tagged (e : Episode) (f : Finding) : Prop :=
  f_episode_number f = episode_number e /\ f_episode_title f = title e.

(** Servers that deliver two chunks, and that break after the first. *)
Definition delivers : str -> Response := fun _ => HttpBody [py "ID3"; py "data"].

Definition engine : str -> option Transcript := fun _ => Some example_transcript.

Definition episode_25 : Episode :=
  {| title := py "Episode 25: Replication"; episode_number := EpInt 25;
     published := py "2023";
     audio_url := Some (py "https://example.org/25.mp3");
     link := py "https://example.org/25" |}.

(** A state in which only the regular episode 25 has been transcribed. *)
Definition regular_transcribed : St :=
  {| downloads := ∅;
     transcripts := {[ transcript_filename episode_25 := example_transcript ]};
     progress_file := None; csv_file := None; md_file := None; trace := [];
     progress := empty_progress; whisper_model := false |}.

(** An episode whose identifier is a string without number. *)
Definition pilot_episode : Episode :=
  {| title := py "The pilot"; episode_number := EpStr (py "Pilot");
     published := py "2020";
     audio_url := Some (py "https://example.org/pilot.mp3");
     link := py "https://example.org/pilot" |}.

Definition entry_7 : Entry :=
  {| entry_title := py "Episode 7: P-values"; entry_published := py "2023";
     entry_enclosures := [Some (py "https://example.org/7.mp3")];
     entry_link := py "https://example.org/7" |}.

(** The findings the analysis of episode 25 gives. *)
Definition newer_findings : list Finding :=
  findings_of_reply sample_loads episode_25 example_transcript (Some reply_fenced).

(** A step that does not call [requests.get]. *)
Definition no_requests {A} (m : M A) : Prop :=
  forall st r st', m st = (r, st') ->
                   http_requests (trace st') = http_requests (trace st).

Definition paid_episode_3 : Episode :=
  {| title := py "Paid-only episode 3: Priming"; episode_number := EpStr (py "P3");
     published := py "2022"; audio_url := None;
     link := py "https://example.org/p3" |}.

(** * Proofs *)

(** ** The matcher finds the matches, and the first of them *)

Module ReFacts.
Import Re.

Lemma greedy_none p k t :
  greedy p k t = None ->
  forall seg t', t = seg ++ t' -> all p seg -> k t' = None.
Proof.
  induction t as [|c t IH]; simpl; unfold stop; intros Hg seg t' Heq Hall.
  - destruct seg; [|discriminate]. simpl in Heq; subst t'.
    destruct (k []); [discriminate|done].
  - assert (Hk : p c = false \/ greedy p k t = None).
    { destruct (p c); [|by left]. destruct (greedy p k t); [discriminate|by right]. }
    assert (Hstop : k (c :: t) = None).
    { destruct (p c); [destruct (greedy p k t); [discriminate|]|];
        destruct (k (c :: t)); done. }
    destruct seg as [|d seg]; simpl in Heq; [by subst t'|].
    injection Heq as <- ->. inversion Hall as [|? ? Hd Hall']; subst.
    destruct Hk as [Hk|Hk]; [congruence|]. eapply IH; eauto.
Qed.

Lemma greedy_spec p k t seg segs :
  greedy p k t = Some (seg, segs) ->
  exists t', t = seg ++ t' /\ all p seg /\ k t' = Some segs /\
    forall seg2 t2, t = seg2 ++ t2 -> all p seg2 ->
                    length seg < length seg2 -> k t2 = None.
Proof.
  revert seg; induction t as [|c t IH]; simpl; unfold stop; intros seg Hg.
  - destruct (k []) eqn:Hk; [|discriminate]. simpl in Hg. injection Hg as <- <-.
    exists []. repeat split; [constructor|done|].
    intros [|] ? ? ? Hlen; [simpl in Hlen; lia|discriminate].
  - destruct (p c) eqn:Hp.
    + destruct (greedy p k t) as [[seg' segs']|] eqn:Hgt.
      * injection Hg as <- <-. simpl.
        destruct (IH _ eq_refl) as (t' & -> & Hall & Hk & Hmax).
        exists t'. repeat split; [by constructor|done|].
        intros [|d seg2] t2 Heq Hall2 Hlen; simpl in *; [lia|].
        injection Heq as <- Heq. inversion Hall2; subst.
        eapply Hmax; eauto. lia.
      * destruct (k (c :: t)) eqn:Hk; [|discriminate]. simpl in Hg.
        injection Hg as <- <-. exists (c :: t). repeat split; [constructor|done|].
        intros [|d seg2] t2 Heq Hall2 Hlen; simpl in *; [lia|].
        injection Heq as <- Heq. inversion Hall2; subst.
        eapply greedy_none; eauto.
    + destruct (k (c :: t)) eqn:Hk; [|discriminate]. simpl in Hg.
      injection Hg as <- <-. exists (c :: t). repeat split; [constructor|done|].
      intros [|d seg2] t2 Heq Hall2 Hlen; simpl in *; [lia|].
      injection Heq as <- Heq. inversion Hall2; subst. congruence.
Qed.

Lemma reluctant_none p k t :
  reluctant p k t = None ->
  forall seg t', t = seg ++ t' -> all p seg -> k t' = None.
Proof.
  induction t as [|c t IH]; simpl; intros Hg seg t' Heq Hall.
  - destruct seg; [|discriminate]. simpl in Heq; subst t'.
    destruct (k []); [discriminate|done].
  - destruct (k (c :: t)) eqn:Hk; [discriminate|].
    destruct seg as [|d seg]; simpl in Heq; [by subst t'|].
    injection Heq as <- ->. inversion Hall as [|? ? Hd Hall']; subst.
    rewrite Hd in Hg. destruct (reluctant p k (seg ++ t')) eqn:Hr; [discriminate|].
    eapply IH; eauto.
Qed.

Lemma reluctant_spec p k t seg segs :
  reluctant p k t = Some (seg, segs) ->
  exists t', t = seg ++ t' /\ all p seg /\ k t' = Some segs /\
    forall seg2 t2, t = seg2 ++ t2 -> length seg2 < length seg -> k t2 = None.
Proof.
  revert seg; induction t as [|c t IH]; simpl; intros seg Hg.
  - destruct (k []) eqn:Hk; [|discriminate]. injection Hg as <- <-.
    exists []. repeat split; [constructor|done|]. simpl; intros; lia.
  - destruct (k (c :: t)) eqn:Hk.
    + injection Hg as <- <-. exists (c :: t).
      repeat split; [constructor|done|]. simpl; intros; lia.
    + destruct (p c) eqn:Hp; [|discriminate].
      destruct (reluctant p k t) as [[seg' segs']|] eqn:Hr; [|discriminate].
      injection Hg as <- <-. simpl.
      destruct (IH _ eq_refl) as (t' & -> & Hall & Hk' & Hmin).
      exists t'. repeat split; [by constructor|done|].
      intros [|d seg2] t2 Heq Hlen; simpl in *; [by subst t2|].
      injection Heq as <- Heq. eapply Hmin; eauto. lia.
Qed.

Lemma match_item_sound it k t segs :
  match_item it k t = Some segs ->
  exists seg segs' t', segs = seg :: segs' /\ t = seg ++ t' /\
                       seg_ok it seg /\ k t' = Some segs'.
Proof.
  unfold match_item, seg_ok. destruct (qt it); intros H.
  - destruct t as [|c t]; [discriminate|].
    destruct (cls it c) eqn:Hc; [|discriminate].
    destruct (k t) as [segs'|] eqn:Hk; [|discriminate].
    injection H as <-. exists [c], segs', t. eauto 10.
  - destruct (greedy (cls it) k t) as [[seg segs']|] eqn:Hg; [|discriminate].
    injection H as <-. apply greedy_spec in Hg as (t' & -> & ? & ? & _).
    exists seg, segs', t'. eauto.
  - destruct t as [|c t]; [discriminate|].
    destruct (cls it c) eqn:Hc; [|discriminate].
    destruct (greedy (cls it) k t) as [[seg segs']|] eqn:Hg; [|discriminate].
    injection H as <-. apply greedy_spec in Hg as (t' & -> & ? & ? & _).
    exists (c :: seg), segs', t'. repeat split; [done|by constructor|done].
  - destruct (reluctant (cls it) k t) as [[seg segs']|] eqn:Hg; [|discriminate].
    injection H as <-. apply reluctant_spec in Hg as (t' & -> & ? & ? & _).
    exists seg, segs', t'. eauto.
Qed.

Lemma match_item_none it k t :
  match_item it k t = None ->
  forall seg t', t = seg ++ t' -> seg_ok it seg -> k t' = None.
Proof.
  unfold match_item, seg_ok. destruct (qt it); intros H seg t' -> Hok.
  - destruct Hok as (c & -> & Hc). simpl in H. rewrite Hc in H.
    destruct (k t'); [discriminate|done].
  - destruct (greedy (cls it) k (seg ++ t')) eqn:Hg; [discriminate|].
    eapply greedy_none; eauto.
  - destruct Hok as [Hne Hall]. destruct seg as [|c seg]; [done|].
    inversion Hall as [|? ? Hc Hall']; subst. simpl in H. rewrite Hc in H.
    destruct (greedy (cls it) k (seg ++ t')) eqn:Hg; [discriminate|].
    eapply greedy_none; eauto.
  - destruct (reluctant (cls it) k (seg ++ t')) eqn:Hg; [discriminate|].
    eapply reluctant_none; eauto.
Qed.

Lemma match_app_sound re1 re2 t segs :
  match_here (re1 ++ re2) t = Some segs ->
  exists segs1 segs2 t', segs = segs1 ++ segs2 /\ t = concat segs1 ++ t' /\
    matches re1 segs1 /\ match_here re2 t' = Some segs2.
Proof.
  revert t segs; induction re1 as [|it re1 IH]; simpl; intros t segs H.
  - exists [], segs, t. repeat split; [constructor|done].
  - apply match_item_sound in H as (seg & segs' & t1 & -> & -> & Hok & H).
    apply IH in H as (segs1 & segs2 & t' & -> & -> & Hm & H).
    exists (seg :: segs1), segs2, t'. simpl. rewrite <- app_assoc.
    repeat split; [by constructor|done].
Qed.

Lemma match_app_none re1 re2 t :
  match_here (re1 ++ re2) t = None ->
  forall segs1 t', matches re1 segs1 -> t = concat segs1 ++ t' ->
                   match_here re2 t' = None.
Proof.
  revert t; induction re1 as [|it re1 IH]; simpl; intros t H segs1 t' Hm ->.
  - inversion Hm; subst. done.
  - inversion Hm as [|? seg ? segs1' Hok Hm']; subst. simpl in H.
    rewrite <- app_assoc in H.
    eapply IH; [|exact Hm'|reflexivity].
    eapply match_item_none; eauto.
Qed.

Lemma match_here_sound re t segs :
  match_here re t = Some segs ->
  exists rest, t = concat segs ++ rest /\ matches re segs.
Proof.
  intros H. rewrite <- (app_nil_r re) in H.
  apply match_app_sound in H as (segs1 & segs2 & t' & -> & -> & Hm & H).
  simpl in H. injection H as <-. rewrite app_nil_r. eauto.
Qed.

Lemma match_here_complete re segs rest :
  matches re segs -> is_Some (match_here re (concat segs ++ rest)).
Proof.
  intros Hm. destruct (match_here re (concat segs ++ rest)) eqn:H; [eauto|].
  rewrite <- (app_nil_r re) in H.
  eapply match_app_none in H; [|exact Hm|reflexivity]. discriminate.
Qed.

Lemma search_some re t pre segs :
  search re t = Some (pre, segs) ->
  exists t', t = pre ++ t' /\ match_here re t' = Some segs /\
    forall pre2 t2, t = pre2 ++ t2 -> length pre2 < length pre ->
                    match_here re t2 = None.
Proof.
  revert pre; induction t as [|c t IH]; simpl; intros pre H.
  - destruct (match_here re []) eqn:Hm; [|discriminate]. injection H as <- <-.
    exists []. repeat split; [done|]. simpl; intros; lia.
  - destruct (match_here re (c :: t)) eqn:Hm.
    + injection H as <- <-. exists (c :: t). repeat split; [done|].
      simpl; intros; lia.
    + destruct (search re t) as [[pre' segs']|] eqn:Hs; [|discriminate].
      injection H as <- <-. simpl.
      destruct (IH _ eq_refl) as (t' & -> & Hh & Hmin).
      exists t'. repeat split; [done|].
      intros [|d pre2] t2 Heq Hlen; simpl in *; [by subst t2|].
      injection Heq as <- Heq. eapply Hmin; eauto. lia.
Qed.

Lemma search_none re t :
  search re t = None ->
  forall pre t', t = pre ++ t' -> match_here re t' = None.
Proof.
  induction t as [|c t IH]; simpl; intros H pre t' Heq.
  - destruct pre; [|discriminate]. simpl in Heq; subst t'.
    destruct (match_here re []); [discriminate|done].
  - destruct (match_here re (c :: t)) eqn:Hm; [discriminate|].
    destruct pre as [|d pre]; simpl in Heq; [by subst t'|].
    injection Heq as <- ->.
    destruct (search re (pre ++ t')) eqn:Hs; [discriminate|].
    eapply IH; eauto.
Qed.

Lemma concat_singletons (m : str) : concat (map (fun c => [c]) m) = m.
Proof. induction m; simpl; congruence. Qed.

Lemma matches_lit_i l segs :
  matches (map chr_i l) segs -> Py.lower (concat segs) = Py.lower l.
Proof.
  revert segs; induction l as [|a l IH]; intros segs Hm; inversion Hm; subst; [done|].
  match goal with H : seg_ok _ _ |- _ => destruct H as (c & -> & Hc) end.
  simpl in *. apply Ascii.eqb_eq in Hc. f_equal; [done|]. by apply IH.
Qed.

Lemma lit_i_matches l m :
  Py.lower m = Py.lower l -> matches (map chr_i l) (map (fun c => [c]) m).
Proof.
  revert m; induction l as [|a l IH]; intros [|c m] H; try discriminate;
    simpl; constructor.
  - exists c. split; [done|]. simpl. apply Ascii.eqb_eq. by injection H.
  - apply IH. by injection H.
Qed.

Lemma matches_lit l segs : matches (map chr l) segs -> concat segs = l.
Proof.
  revert segs; induction l as [|a l IH]; intros segs Hm; inversion Hm; subst; [done|].
  match goal with H : seg_ok _ _ |- _ => destruct H as (c & -> & Hc) end.
  simpl in *. apply Ascii.eqb_eq in Hc. f_equal; [done|]. by apply IH.
Qed.

Lemma lit_matches l : matches (map chr l) (map (fun c => [c]) l).
Proof.
  induction l as [|a l IH]; simpl; constructor; [|done].
  exists a. split; [done|]. simpl. by apply Ascii.eqb_eq.
Qed.

Lemma group1_app re1 re2 segs1 segs2 :
  length re1 = length segs1 ->
  group1 (re1 ++ re2) (segs1 ++ segs2) = group1 re1 segs1 ++ group1 re2 segs2.
Proof.
  revert segs1; induction re1 as [|it re1 IH]; intros [|seg segs1] Hlen;
    try discriminate; simpl; [by destruct re2|].
  rewrite IH by (simpl in Hlen; lia). by rewrite app_assoc.
Qed.

Lemma group1_none re segs :
  Forall (fun it => grp it = false) re -> group1 re segs = [].
Proof.
  intros H; revert segs; induction H as [|it re Hit _ IH]; intros [|seg segs];
    simpl; try done. by rewrite Hit, IH.
Qed.

Lemma group1_all re segs :
  Forall (fun it => grp it = true) re -> length re = length segs ->
  group1 re segs = concat segs.
Proof.
  intros H; revert segs; induction H as [|it re Hit _ IH]; intros [|seg segs] Hlen;
    simpl in *; try done. rewrite Hit, IH by lia. done.
Qed.

Lemma plus_last p g t segs :
  match_here [Item p Plus g] t = Some segs ->
  exists seg rest, segs = [seg] /\ t = seg ++ rest /\ seg <> [] /\ all p seg /\
    forall c rest', rest = c :: rest' -> p c = false.
Proof.
  simpl. unfold match_item; simpl. destruct t as [|c t]; [discriminate|].
  destruct (p c) eqn:Hc; [|discriminate].
  destruct (greedy p _ t) as [[seg segs']|] eqn:Hg; [|discriminate].
  intros H; injection H as <-.
  apply greedy_spec in Hg as (rest & -> & Hall & Hk & Hmax).
  injection Hk as <-. exists (c :: seg), rest.
  repeat split; [done|by constructor|].
  intros d rest' -> . destruct (p d) eqn:Hd; [|done].
  specialize (Hmax (seg ++ [d]) rest'). rewrite <- app_assoc in Hmax.
  discriminate Hmax; [done| |rewrite length_app; simpl; lia].
  apply Forall_app; split; [done|]. by constructor.
Qed.

End ReFacts.

(** ** Numbers and their text *)

Module PyFacts.
Import Py.

Lemma digit_not_space c : is_digit c = true -> is_space c = false.
Proof.
  unfold is_digit, is_space, in_range. intros H.
  apply andb_true_iff in H as [H1 H2].
  apply N.leb_le in H1. apply N.leb_le in H2.
  repeat (apply orb_false_iff; split);
    try (apply andb_false_iff);
    try (left; apply N.leb_gt; lia);
    try (right; apply N.leb_gt; lia);
    apply N.eqb_neq; lia.
Qed.

Lemma lstrip_id c t : is_space c = false -> lstrip (c :: t) = c :: t.
Proof. simpl. by intros ->. Qed.

Lemma strip_digits t : Re.all is_digit t -> strip t = t.
Proof.
  intros H. unfold strip, rstrip.
  assert (Hl : forall u, Re.all is_digit u -> lstrip u = u).
  { intros [|c u] Hu; [done|]. apply lstrip_id, digit_not_space.
    by inversion Hu. }
  rewrite (Hl t H), Hl; [apply rev_involutive|].
  by apply Forall_rev.
Qed.

Lemma int_body_digits t acc b :
  Re.all is_digit t ->
  int_body t acc b =
    match t with
    | [] => if b then Some acc else None
    | _ => Some (fold_left (fun a c => 10 * a + digit_val c)%Z t acc)
    end.
Proof.
  intros H; revert acc b; induction H as [|c t Hc _ IH]; intros acc b; [done|].
  simpl. rewrite Hc, IH. by destruct t.
Qed.

Lemma digit_not_sign c :
  is_digit c = true -> Ascii.eqb c "-" = false /\ Ascii.eqb c "+" = false.
Proof.
  intros H. split; apply Ascii.eqb_neq; intros ->; discriminate.
Qed.

(** [int()] of a run of digits is its decimal value. *)
Lemma int_of_str_digits t :
  t <> [] -> Re.all is_digit t -> int_of_str t = Some (digits_value t).
Proof.
  intros Hne H. unfold int_of_str. rewrite strip_digits by done.
  destruct t as [|c t]; [done|].
  destruct (digit_not_sign c) as [-> ->]; [by inversion H|].
  by rewrite int_body_digits.
Qed.

End PyFacts.

(** ** Episode identifiers *)

Lemma digits_group_complete N rest :
  N <> [] -> Re.all Py.is_digit N ->
  is_Some (Re.match_here digits_group (N ++ rest)).
Proof.
  intros Hne Hall.
  replace (N ++ rest) with (concat [N] ++ rest) by (simpl; by rewrite app_nil_r).
  apply ReFacts.match_here_complete. repeat constructor; done.
Qed.

Lemma lit_i_length l segs :
  Re.matches (map Re.chr_i l) segs -> length (map Re.chr_i l) = length segs.
Proof. apply Forall2_length. Qed.

Lemma lit_i_ungrouped l : Forall (fun it => Re.grp it = false) (map Re.chr_i l).
Proof. induction l; simpl; constructor; done. Qed.

(** The search for "[L] N" finds the number of the first match, and
    fails only when there is none. *)
Lemma search_number (L title : str) :
  match Re.search_group1 (map Re.chr_i L ++ digits_group) title with
  | Some N => first_number L title N
  | None => ~ has_number L title
  end.
Proof.
  unfold Re.search_group1.
  destruct (Re.search _ title) as [[pre segs]|] eqn:Hs; simpl.
  - apply ReFacts.search_some in Hs as (t' & -> & Hm & Hmin).
    apply ReFacts.match_app_sound in Hm as (segs1 & segs2 & t2 & -> & -> & Hlit & Hd).
    apply ReFacts.plus_last in Hd as (N & rest & -> & -> & Hne & Hall & Hend).
    rewrite ReFacts.group1_app by (by apply lit_i_length).
    rewrite ReFacts.group1_none by apply lit_i_ungrouped.
    simpl. rewrite app_nil_r.
    exists pre. split.
    + exists (concat segs1), rest. repeat split; try done.
      by apply ReFacts.matches_lit_i.
    + intros pre' m' N' rest' Heq Hm' Hne' Hall'.
      destruct (decide (length pre' < length pre)) as [Hlt|]; [|lia].
      specialize (Hmin _ _ Heq Hlt).
      eapply ReFacts.match_app_none in Hmin;
        [|by apply ReFacts.lit_i_matches
         |by rewrite ReFacts.concat_singletons].
      destruct (digits_group_complete N' rest' Hne' Hall') as [? Hsome].
      congruence.
  - intros (pre & m & N & rest & Heq & Hm & Hne & Hall).
    eapply ReFacts.search_none in Hs; [|exact Heq].
    eapply ReFacts.match_app_none in Hs;
      [|by apply ReFacts.lit_i_matches
       |by rewrite ReFacts.concat_singletons].
    destruct (digits_group_complete N rest Hne Hall) as [? Hsome].
    congruence.
Qed.

(** C5. For every title: when it matches "Paid-only episode N" up to case,
    the identifier is the tag "P" followed by the digits N of the first
    such match, so never the plain integer; otherwise, when it matches
    "Episode N" up to case, it is the integer N of the first such match;
    otherwise it is absent. The extraction never raises. *)
Theorem extract_episode_number_spec (title : str) :
  (has_number (py "Paid-only episode ") title ->
   exists N, first_number (py "Paid-only episode ") title N /\
             _extract_episode_number title = Ok (EpStr (py "P" ++ N))) /\
  (~ has_number (py "Paid-only episode ") title ->
   has_number (py "Episode ") title ->
   exists N, first_number (py "Episode ") title N /\
             _extract_episode_number title = Ok (EpInt (Py.digits_value N))) /\
  (~ has_number (py "Paid-only episode ") title ->
   ~ has_number (py "Episode ") title ->
   _extract_episode_number title = Ok EpNone).
Proof.
  unfold _extract_episode_number, paid_pattern, plain_pattern, Re.lit_i.
  pose proof (search_number (py "Paid-only episode ") title) as Hpaid.
  pose proof (search_number (py "Episode ") title) as Hplain.
  destruct (Re.search_group1 _ title) as [N|].
  - repeat split; [eauto|intros Hno; exfalso; apply Hno..].
    + destruct Hpaid as (pre & (m & rest & ? & ? & ? & ? & _) & _).
      by exists pre, m, N, rest.
    + destruct Hpaid as (pre & (m & rest & ? & ? & ? & ? & _) & _).
      by exists pre, m, N, rest.
  - repeat split; [done| |].
    + intros _ Hhas. destruct (Re.search_group1 _ title) as [N|]; [|done].
      exists N. split; [done|].
      destruct Hplain as (pre & (m & rest & _ & _ & Hne & Hall & _) & _).
      by rewrite PyFacts.int_of_str_digits.
    + intros _ Hno. destruct (Re.search_group1 _ title) as [N|]; [|done].
      exfalso; apply Hno.
      destruct Hplain as (pre & (m & rest & ? & ? & ? & ? & _) & _).
      by exists pre, m, N, rest.
Qed.

Lemma extract_episode_number_spec_witness :
  (exists N, first_number (py "Paid-only episode ") paid_title N /\
             _extract_episode_number paid_title = Ok (EpStr (py "P" ++ N))) /\
  (exists N, first_number (py "Episode ") plain_title N /\
             _extract_episode_number plain_title = Ok (EpInt (Py.digits_value N))) /\
  _extract_episode_number bonus_title = Ok EpNone.
Proof.
  split; [|split].
  - apply (proj1 (extract_episode_number_spec paid_title)).
    exists [], (py "PAID-ONLY Episode "), (py "12"), (py " (after Episode 3)").
    repeat split; [discriminate|repeat constructor].
  - apply (proj1 (proj2 (extract_episode_number_spec plain_title))).
    + exact (search_number (py "Paid-only episode ") plain_title).
    + exists [], (py "Episode "), (py "25"), (py ": The Replication Crisis").
      repeat split; [discriminate|repeat constructor].
  - apply (proj2 (proj2 (extract_episode_number_spec bonus_title))).
    + exact (search_number (py "Paid-only episode ") bonus_title).
    + exact (search_number (py "Episode ") bonus_title).
Defined.

Example extract_paid :
  _extract_episode_number paid_title = Ok (EpStr (py "P12")).
Proof. reflexivity. Qed.

Example extract_plain :
  _extract_episode_number plain_title = Ok (EpInt 25).
Proof. reflexivity. Qed.

(** ** The audio cache *)

Lemma exists_download_run name st :
  exists_download name st =
    (Ok (bool_decide (is_Some (downloads st !! name))),
     (log (Exists Downloads name) st).2).
Proof. reflexivity. Qed.

Lemma http_requests_app tr1 tr2 :
  http_requests (tr1 ++ tr2) = http_requests tr1 ++ http_requests tr2.
Proof.
  induction tr1 as [|ev tr1 IH]; [done|].
  destruct ev; simpl; by rewrite ?IH.
Qed.

Lemma http_requests_exists tr d name :
  http_requests (tr ++ [Exists d name]) = http_requests tr.
Proof. rewrite http_requests_app. simpl. apply app_nil_r. Qed.

(** C3, as the code has it. For every entry of the feed whose title yields
    no episode number, the audio cache filename of its episode is the
    sanitized title capped at 50 characters followed by ".mp3": the title
    appears once, with no identifier before it and no underscore. *)
Theorem unnumbered_audio_filename (en : Entry) (e : Episode) :
  _extract_episode_number (entry_title en) = Ok EpNone ->
  parse_entry en = Ok e ->
  audio_filename e = safe_title (entry_title en) ++ py ".mp3"
  /\ length (safe_title (entry_title en)) <= 50.
Proof.
  unfold parse_entry. intros -> [= <-]. split; [reflexivity|].
  unfold safe_title. rewrite length_take. lia.
Qed.

Lemma unnumbered_audio_filename_witness :
  audio_filename bonus_episode = safe_title (entry_title bonus_entry) ++ py ".mp3"
  /\ length (safe_title (entry_title bonus_entry)) <= 50.
Proof.
  apply (unnumbered_audio_filename bonus_entry bonus_episode); reflexivity.
Defined.

(** C3, as stated, fails: the filename of an unnumbered episode is not a
    text, an underscore, the capped sanitized title and ".mp3". *)
Lemma unnumbered_audio_filename_counterexample :
  ~ (forall (en : Entry) (e : Episode),
        _extract_episode_number (entry_title en) = Ok EpNone ->
        parse_entry en = Ok e ->
        exists sanitized,
          audio_filename e
          = sanitized ++ py "_" ++ safe_title (title e) ++ py ".mp3").
Proof.
  intros H.
  destruct (H bonus_entry bonus_episode eq_refl eq_refl) as [x Hx].
  apply (f_equal length) in Hx. rewrite length_app in Hx.
  assert (Hl : length (audio_filename bonus_episode) = 28) by reflexivity.
  assert (Hr : length (py "_" ++ safe_title (title bonus_episode) ++ py ".mp3") = 29)
    by reflexivity.
  rewrite Hl, Hr in Hx. lia.
Qed.

(** C4, as the code has it. For every episode with an audio URL, if a file
    exists at the computed cache path, the fetcher returns that path,
    issues no HTTP request and leaves the downloads directory as it is. *)
Theorem cache_hit (http_get : str -> Response) (e : Episode) (st : St) :
  no_audio_url e = false ->
  is_Some (downloads st !! audio_filename e) ->
  exists st',
    download_episode http_get e st = (Ok (Some (audio_filename e)), st')
    /\ http_requests (trace st') = http_requests (trace st)
    /\ downloads st' = downloads st.
Proof.
  intros Hurl Hfile. unfold download_episode. rewrite Hurl.
  unfold bind. rewrite exists_download_run, bool_decide_eq_true_2 by done.
  eexists. split; [reflexivity|]. simpl. split; [|done].
  apply http_requests_exists.
Qed.

Lemma cache_hit_witness :
  exists st',
    download_episode no_server bonus_episode
      (one_download (audio_filename bonus_episode))
    = (Ok (Some (audio_filename bonus_episode)), st')
    /\ http_requests (trace st')
       = http_requests (trace (one_download (audio_filename bonus_episode)))
    /\ downloads st' = downloads (one_download (audio_filename bonus_episode)).
Proof.
  apply cache_hit; [reflexivity|]. vm_compute. eauto.
Defined.

(** C4, as stated, fails: an episode without audio URL is not served from
    the cache although its file is there. *)
Lemma cache_hit_counterexample :
  ~ (forall (http_get : str -> Response) (e : Episode) (st : St),
        is_Some (downloads st !! audio_filename e) ->
        exists st',
          download_episode http_get e st = (Ok (Some (audio_filename e)), st')
          /\ http_requests (trace st') = http_requests (trace st)).
Proof.
  intros H.
  destruct (H no_server bonus_no_url (one_download (audio_filename bonus_no_url)))
    as (st' & Hrun & _).
  - vm_compute. eauto.
  - vm_compute in Hrun. discriminate Hrun.
Qed.

Lemma paid_tag_number N :
  Py.startswith (py "P") (py "P" ++ N) = true /\ drop 1 (py "P" ++ N) = N.
Proof. split; reflexivity. Qed.

(** C8, as the code has it. For every paid-tagged episode with an audio
    URL whose file under the "P"+N scheme does not exist but whose legacy
    zero-padded file does, the fetcher returns the legacy path, issues no
    HTTP request and leaves the downloads directory as it is. *)
Theorem legacy_hit (http_get : str -> Response) (e : Episode) (st : St) (N : str) :
  no_audio_url e = false ->
  episode_number e = EpStr (py "P" ++ N) ->
  N <> [] -> Re.all Py.is_digit N ->
  downloads st !! audio_filename e = None ->
  is_Some (downloads st !! legacy_filename N (title e)) ->
  exists st',
    download_episode http_get e st = (Ok (Some (legacy_filename N (title e))), st')
    /\ http_requests (trace st') = http_requests (trace st)
    /\ downloads st' = downloads st.
Proof.
  intros Hurl Hnum Hne Hdig Hnew Hold. unfold download_episode.
  rewrite Hurl. unfold bind at 1.
  rewrite exists_download_run, bool_decide_eq_false_2
    by (rewrite Hnew; by intros [? ?]).
  rewrite Hnum. destruct (paid_tag_number N) as [-> ->].
  rewrite PyFacts.int_of_str_digits by done.
  unfold bind. rewrite exists_download_run. simpl downloads.
  fold (legacy_filename N (title e)).
  rewrite bool_decide_eq_true_2 by done.
  eexists. split; [reflexivity|]. simpl. split; [|done].
  by rewrite !http_requests_exists.
Qed.

Lemma legacy_hit_witness :
  exists st',
    download_episode no_server paid_episode
      (one_download (legacy_filename (py "25") (title paid_episode)))
    = (Ok (Some (legacy_filename (py "25") (title paid_episode))), st')
    /\ http_requests (trace st')
       = http_requests
           (trace (one_download (legacy_filename (py "25") (title paid_episode))))
    /\ downloads st'
       = downloads (one_download (legacy_filename (py "25") (title paid_episode))).
Proof.
  apply legacy_hit; [reflexivity|reflexivity|discriminate| |reflexivity|].
  - repeat constructor.
  - vm_compute. eauto.
Defined.

(** C8, as stated, fails: a paid-tagged episode without audio URL is not
    served from its legacy file. *)
Lemma legacy_hit_counterexample :
  ~ (forall (http_get : str -> Response) (e : Episode) (st : St) (N : str),
        episode_number e = EpStr (py "P" ++ N) ->
        N <> [] -> Re.all Py.is_digit N ->
        downloads st !! audio_filename e = None ->
        is_Some (downloads st !! legacy_filename N (title e)) ->
        exists st',
          download_episode http_get e st
          = (Ok (Some (legacy_filename N (title e))), st')
          /\ http_requests (trace st') = http_requests (trace st)).
Proof.
  intros H.
  destruct (H no_server paid_no_url
              (one_download (legacy_filename (py "25") (title paid_no_url)))
              (py "25"))
    as (st' & Hrun & _).
  - reflexivity.
  - discriminate.
  - repeat constructor.
  - reflexivity.
  - vm_compute. eauto.
  - vm_compute in Hrun. discriminate Hrun.
Qed.

(** C10. For every episode whose audio URL is absent, the fetcher returns
    absent at once: the state is untouched, so nothing was looked up in the
    downloads directory and nothing was requested, whatever files the
    directory holds, the episode's own cached file included. *)
Theorem no_url_skipped (http_get : str -> Response) (e : Episode) (st : St) :
  audio_url e = None ->
  download_episode http_get e st = (Ok None, st)
  /\ (is_Some (downloads st !! audio_filename e) ->
      (download_episode http_get e st).1 <> Ok (Some (audio_filename e))).
Proof.
  intros Hurl. unfold download_episode, no_audio_url. rewrite Hurl.
  split; [reflexivity|]. intros _. discriminate.
Qed.

Lemma no_url_skipped_witness :
  download_episode no_server bonus_no_url
    (one_download (audio_filename bonus_no_url))
  = (Ok None, one_download (audio_filename bonus_no_url))
  /\ (is_Some (downloads (one_download (audio_filename bonus_no_url))
               !! audio_filename bonus_no_url) ->
      (download_episode no_server bonus_no_url
         (one_download (audio_filename bonus_no_url))).1
      <> Ok (Some (audio_filename bonus_no_url))).
Proof.
  apply no_url_skipped. reflexivity.
Defined.

Lemma no_url_skipped_file_there :
  is_Some (downloads (one_download (audio_filename bonus_no_url))
           !! audio_filename bonus_no_url).
Proof. vm_compute. eauto. Qed.

(** ** Sorting the findings *)

Section Sorting.
Context {A : Type}.
Implicit Types (p q : (Z * Z) * A) (l : list ((Z * Z) * A)).

Lemma key_ltb_asym (a b : Z * Z) : key_ltb a b = true -> key_ltb b a = false.
Proof.
  unfold key_ltb. destruct a as [a1 a2], b as [b1 b2]; simpl.
  rewrite orb_true_iff, andb_true_iff, orb_false_iff, andb_false_iff.
  rewrite !Z.ltb_lt, !Z.ltb_ge, Z.eqb_eq, Z.eqb_neq. lia.
Qed.

Lemma insert_desc_head p q l :
  HdRel desc q l -> key_ltb p.1 q.1 = true -> HdRel desc q (insert_desc p l).
Proof.
  intros Hq Hp. destruct l as [|r l]; simpl.
  - constructor. by apply key_ltb_asym.
  - destruct (key_ltb p.1 r.1); constructor.
    + by inversion Hq.
    + by apply key_ltb_asym.
Qed.

Lemma insert_desc_sorted p l : Sorted desc l -> Sorted desc (insert_desc p l).
Proof.
  induction 1 as [|q l Hl IH Hq]; simpl; [repeat constructor|].
  destruct (key_ltb p.1 q.1) eqn:Hp.
  - constructor; [done|]. by apply insert_desc_head.
  - repeat constructor; done.
Qed.

Lemma sort_desc_sorted l : Sorted desc (sort_desc l).
Proof.
  induction l as [|p l IH]; simpl; [constructor|]. by apply insert_desc_sorted.
Qed.

(** A list already in descending order is left as it is. *)
Lemma sort_desc_id l : Sorted desc l -> sort_desc l = l.
Proof.
  induction 1 as [|p l Hl IH Hp]; [done|]. simpl. rewrite IH.
  destruct Hp as [|q l Hpq]; [done|]. simpl. by rewrite Hpq.
Qed.

Lemma insert_desc_Forall (P : (Z * Z) * A -> Prop) p l :
  P p -> Forall P l -> Forall P (insert_desc p l).
Proof.
  intros Hp; induction 1 as [|q l Hq Hl IH]; simpl; [by repeat constructor|].
  destruct (key_ltb p.1 q.1); by repeat constructor.
Qed.

Lemma sort_desc_Forall (P : (Z * Z) * A -> Prop) l :
  Forall P l -> Forall P (sort_desc l).
Proof.
  induction 1; simpl; [constructor|]. by apply insert_desc_Forall.
Qed.

Lemma insert_desc_length p l : length (insert_desc p l) = S (length l).
Proof.
  induction l as [|q l IH]; simpl; [done|].
  destruct (key_ltb p.1 q.1); simpl; by rewrite ?IH.
Qed.

Lemma sort_desc_length l : length (sort_desc l) = length l.
Proof.
  induction l as [|p l IH]; simpl; [done|]. by rewrite insert_desc_length, IH.
Qed.

Variable key : A -> option (Z * Z).

Lemma keyed_ok (xs : list A) kl :
  mapM (fun x => (fun k => (k, x)) <$> key x) xs = Some kl ->
  Forall (fun p => key p.2 = Some p.1) kl.
Proof.
  revert kl; induction xs as [|x xs IH]; simpl; intros kl H.
  - injection H as <-. constructor.
  - destruct (key x) as [k|] eqn:Hk; [|discriminate]. simpl in H.
    destruct (mapM _ xs) as [kl'|]; [|discriminate]. simpl in H.
    injection H as <-. constructor; [done|]. by apply IH.
Qed.

Lemma rekey kl :
  Forall (fun p => key p.2 = Some p.1) kl ->
  mapM (fun x => (fun k => (k, x)) <$> key x) (snd <$> kl) = Some kl.
Proof.
  induction 1 as [|[k x] kl Hk _ IH]; [done|]. simpl in *.
  rewrite Hk. simpl. change (list_fmap _ _ snd kl) with (snd <$> kl).
  by rewrite IH.
Qed.

(** Sorting a list that was just sorted changes nothing. *)
Lemma sort_reverse_idem (xs xs' : list A) :
  sort_reverse key xs = Some xs' -> sort_reverse key xs' = Some xs'.
Proof.
  unfold sort_reverse. intros H.
  destruct (mapM _ xs) as [kl|] eqn:Hkl; [|discriminate]. simpl in H.
  injection H as <-.
  rewrite rekey by (apply sort_desc_Forall; by eapply keyed_ok).
  simpl. by rewrite sort_desc_id by apply sort_desc_sorted.
Qed.

End Sorting.

(** ** Reports *)

(** C1, at the input of the specification. With episode numbers
    [5, "P3", None, 10] the list is sorted to [None, "P3", 10, 5], and the
    two files have their rows in that order: the unnumbered episode comes
    first and the regular-numbered ones last. *)
Theorem report_order_example :
  sort_reverse sort_key example_findings
  = Some [finding_of EpNone; finding_of (EpStr (py "P3"));
          finding_of (EpInt 10); finding_of (EpInt 5)]
  /\ exists st',
      generate_report example_findings blank
      = (Ok [finding_of EpNone; finding_of (EpStr (py "P3"));
             finding_of (EpInt 10); finding_of (EpInt 5)], st')
      /\ csv_file st'
         = Some (csv_text [finding_of EpNone; finding_of (EpStr (py "P3"));
                           finding_of (EpInt 10); finding_of (EpInt 5)])
      /\ md_file st'
         = Some (md_text [finding_of EpNone; finding_of (EpStr (py "P3"));
                          finding_of (EpInt 10); finding_of (EpInt 5)]).
Proof.
  split; [reflexivity|]. eexists. repeat split.
Qed.

(** In general the sorted list is in descending order of the keys, the
    key (2, 0) of unnumbered episodes being the greatest. *)
Lemma sort_reverse_descending (findings sorted : list Finding) :
  sort_reverse sort_key findings = Some sorted ->
  exists keyed,
    sorted = snd <$> keyed
    /\ Forall (fun p => sort_key p.2 = Some p.1) keyed
    /\ Sorted desc keyed.
Proof.
  unfold sort_reverse. intros H.
  destruct (mapM _ findings) as [kl|] eqn:Hkl; [|discriminate].
  simpl in H. injection H as <-. exists (sort_desc kl).
  split; [done|]. split; [|apply sort_desc_sorted].
  apply sort_desc_Forall. by eapply keyed_ok.
Qed.

Lemma write_reports_run (findings sorted : list Finding) (st : St) :
  sort_reverse sort_key findings = Some sorted ->
  exists st',
    write_reports findings st = (Ok sorted, st')
    /\ csv_file st' = Some (csv_text sorted)
    /\ md_file st' = Some (md_text sorted)
    /\ progress_file st' = progress_file st.
Proof.
  intros H. unfold write_reports. rewrite H. eexists. repeat split.
Qed.

Lemma write_reports_raise (findings : list Finding) (st : St) :
  sort_reverse sort_key findings = None ->
  write_reports findings st = (Raise ValueError, st).
Proof. intros H. unfold write_reports. by rewrite H. Qed.

Lemma log_progress_file (ev : event) (st : St) :
  progress_file (log ev st).2 = progress_file st.
Proof. reflexivity. Qed.

Lemma report_only_run (st : St) :
  ReportOnly.generate_report st =
    match progress_file st with
    | None => (Raise FileNotFoundError, (log (Read Results progress_name) st).2)
    | Some p =>
        match write_reports (results p) (log (Read Results progress_name) st).2 with
        | (Ok _, st') => (Ok tt, st')
        | (Raise e, st') => (Raise e, st')
        end
    end.
Proof.
  unfold ReportOnly.generate_report, bind. simpl.
  destruct (progress_file st); reflexivity.
Qed.

(** C9. Report generation is idempotent. In analyze_podcast.py, a second
    call on the list the first call has sorted writes the same two files
    and leaves the list as it is; a call that raises has written nothing
    and raises again. In generate_report_only.py, a second run on the
    unchanged progress file writes the same two files, and a run that
    raises has written nothing and raises again. *)
Theorem report_idempotent :
  (forall (findings : list Finding) (st : St),
      match generate_report findings st with
      | (Ok sorted, st1) =>
          exists st2,
            generate_report sorted st1 = (Ok sorted, st2)
            /\ csv_file st2 = csv_file st1 /\ md_file st2 = md_file st1
      | (Raise e, st1) =>
          st1 = st /\ generate_report findings st1 = (Raise e, st1)
      end)
  /\ (forall st : St,
        match ReportOnly.generate_report st with
        | (Ok _, st1) =>
            progress_file st1 = progress_file st
            /\ exists st2,
                ReportOnly.generate_report st1 = (Ok tt, st2)
                /\ csv_file st2 = csv_file st1 /\ md_file st2 = md_file st1
        | (Raise e, st1) =>
            csv_file st1 = csv_file st /\ md_file st1 = md_file st
            /\ exists st2,
                ReportOnly.generate_report st1 = (Raise e, st2)
                /\ csv_file st2 = csv_file st /\ md_file st2 = md_file st
        end).
Proof.
  split.
  - intros findings st. unfold generate_report.
    destruct (sort_reverse sort_key findings) as [sorted|] eqn:Hs.
    + destruct (write_reports_run findings sorted st Hs) as (st1 & -> & Hc & Hm & _).
      apply sort_reverse_idem in Hs.
      destruct (write_reports_run sorted sorted st1 Hs) as (st2 & -> & Hc2 & Hm2 & _).
      exists st2. by rewrite Hc, Hm, Hc2, Hm2.
    + rewrite write_reports_raise by done. split; [done|].
      by rewrite write_reports_raise.
  - intros st. rewrite report_only_run.
    pose proof (log_progress_file (Read Results progress_name) st) as Hlog.
    destruct (progress_file st) as [p|] eqn:Hp.
    + destruct (sort_reverse sort_key (results p)) as [sorted|] eqn:Hs.
      * edestruct (write_reports_run (results p) sorted) as (st1 & -> & Hc & Hm & Hf);
          [done|].
        rewrite Hf. split; [done|].
        rewrite report_only_run, Hf, Hlog.
        edestruct (write_reports_run (results p) sorted) as (st2 & -> & Hc2 & Hm2 & _);
          [done|].
        exists st2. by rewrite Hc, Hm, Hc2, Hm2.
      * rewrite write_reports_raise by done. repeat split.
        rewrite report_only_run, Hlog.
        rewrite write_reports_raise by done. eexists. repeat split.
    + repeat split. rewrite report_only_run, Hlog.
      eexists. repeat split.
Qed.

(** ** Timestamps *)

Module ClockFacts.
Local Open Scope Z_scope.

Lemma Qfloor_div_pos (x : Q) (n : positive) :
  Qfloor (x / inject_Z (Z.pos n)) = Qfloor x / Z.pos n.
Proof.
  destruct x as [a b]. unfold Qdiv, Qinv, Qmult, Qfloor, inject_Z. simpl.
  rewrite Z.mul_1_r, Pos2Z.inj_mul, Z.div_div; lia.
Qed.

Lemma Qfloor_fmod (x : Q) (n : positive) :
  Qfloor (fmod x (inject_Z (Z.pos n))) = Qfloor x mod Z.pos n.
Proof.
  unfold fmod. rewrite Qfloor_div_pos.
  destruct x as [a b]. unfold Qminus, Qplus, Qopp, Qmult, Qfloor, inject_Z. simpl.
  rewrite !Pos.mul_1_r, !Z.mul_1_r.
  set (q := a / Z.pos b / Z.pos n).
  rewrite Z.div_add by lia.
  rewrite (Z.mod_eq (a / Z.pos b)) by lia. subst q. lia.
Qed.

Lemma fmod_nonneg (x : Q) (n : positive) :
  Qle_bool 0 (fmod x (inject_Z (Z.pos n))) = true.
Proof.
  unfold fmod. rewrite Qfloor_div_pos.
  destruct x as [a b]. unfold Qle_bool, Qminus, Qplus, Qopp, Qmult, Qfloor, inject_Z.
  simpl. apply Z.leb_le. rewrite !Z.mul_1_r.
  pose proof (Z.mul_div_le (a / Z.pos b) (Z.pos n)).
  pose proof (Z.mul_div_le a (Z.pos b)).
  nia.
Qed.

Lemma int_of_float_Z (z : Z) : int_of_float (inject_Z z) = z.
Proof.
  unfold int_of_float. destruct (Qle_bool 0 (inject_Z z));
    [apply Qfloor_Z|apply Qceiling_Z].
Qed.

Lemma Qfloor_nonneg (x : Q) : (0 <= x)%Q -> 0 <= Qfloor x.
Proof.
  intros H. change 0 with (Qfloor 0). by apply Qfloor_resp_le.
Qed.

Lemma digits_one (n : Z) : 0 <= n < 10 -> Py.digits n = [Py.digit_char n].
Proof.
  intros H. unfold Py.digits. simpl.
  destruct (Z.ltb_spec n 10); [|lia]. by rewrite Z.mod_small by lia.
Qed.

Lemma digits_two (n : Z) :
  10 <= n < 100 -> Py.digits n = [Py.digit_char (n / 10); Py.digit_char (n mod 10)].
Proof.
  intros H. unfold Py.digits.
  assert (Hlog : 3 <= Z.log2 n) by (change 3 with (Z.log2 8); apply Z.log2_le_mono; lia).
  destruct (Z.to_nat (Z.log2 n)) as [|k] eqn:Hk; [lia|]. simpl.
  destruct (Z.ltb_spec n 10); [lia|].
  destruct (Z.ltb_spec (n / 10) 10) as [_|Hge].
  - by rewrite (Z.mod_small (n / 10)) by (split; [apply Z.div_pos|apply Z.div_lt_upper_bound]; lia).
  - assert (n / 10 < 10) by (apply Z.div_lt_upper_bound; lia). lia.
Qed.

Lemma fmt_two_digits (n : Z) : 0 <= n < 100 -> Py.fmt_0d 2 n = two_digits n.
Proof.
  intros H. unfold Py.fmt_0d, two_digits. rewrite Z.abs_eq by lia.
  destruct (Z.ltb_spec n 0); [lia|].
  destruct (Z_lt_le_dec n 10).
  - rewrite digits_one by lia. simpl.
    by rewrite Z.div_small, Z.mod_small by lia.
  - by rewrite digits_two by lia.
Qed.

Lemma format_timestamp_floor (seconds : Q) :
  (0 <= seconds)%Q -> _format_timestamp seconds = clock (Qfloor seconds).
Proof.
  intros Hpos. apply Qfloor_nonneg in Hpos.
  unfold _format_timestamp, clock, floordiv.
  rewrite !int_of_float_Z.
  change 3600%Q with (inject_Z (Z.pos 3600)).
  change 60%Q with (inject_Z (Z.pos 60)).
  rewrite !Qfloor_div_pos, Qfloor_fmod.
  unfold int_of_float. rewrite fmod_nonneg, Qfloor_fmod.
  set (t := Qfloor seconds) in *.
  assert (0 <= t mod 60 < 60) by (apply Z.mod_pos_bound; lia).
  assert (0 <= t mod 3600 < 3600) by (apply Z.mod_pos_bound; lia).
  assert (0 <= t mod 3600 / 60 < 60)
    by (split; [apply Z.div_pos|apply Z.div_lt_upper_bound]; lia).
  rewrite !fmt_two_digits by lia.
  destruct (Z.leb_spec 3600 t) as [Hh|Hh].
  - assert (1 <= t / 3600) by (apply Z.div_le_lower_bound; lia).
    destruct (Z.gtb_spec (t / 3600) 0); [done|lia].
  - rewrite (Z.div_small t 3600), (Z.mod_small t 3600) by lia. done.
Qed.

End ClockFacts.

Lemma startswith_spec (p t : str) :
  Py.startswith p t = true <-> exists v, t = p ++ v.
Proof.
  revert t; induction p as [|a p IH]; intros t; simpl.
  - split; [by exists t|done].
  - destruct t as [|b t]; [split; [done|by intros [? ?]]|].
    rewrite andb_true_iff, IH, Ascii.eqb_eq. split.
    + intros [-> [v ->]]. by exists v.
    + intros [v [= -> ->]]. eauto.
Qed.

Lemma contains_spec (a b : str) : Py.contains a b = true <-> substring a b.
Proof.
  unfold substring. induction b as [|c b IH]; simpl; rewrite orb_true_iff, startswith_spec.
  - split.
    + intros [[v Hv]|?]; [|done]. by exists [], v.
    + intros ([|? ?] & v & Hv); [|done]. left. by exists v.
  - rewrite IH. split.
    + intros [[v Hv]|(u & v & ->)]; [by exists [], v|by exists (c :: u), v].
    + intros ([|d u] & v & Hv); [left; by exists v|].
      injection Hv as -> ->. right. by exists u, v.
Qed.

Lemma seg_matches_spec (quote_lower : str) (segment : Segment) :
  Py.contains quote_lower (Py.lower (seg_text segment))
  || Py.contains (Py.lower (seg_text segment)) quote_lower = true
  <-> seg_matches quote_lower segment.
Proof. unfold seg_matches. by rewrite orb_true_iff, !contains_spec. Qed.

Lemma scan_none (quote_lower : str) (segs : list Segment) :
  (forall segment, segment ∈ segs -> ~ seg_matches quote_lower segment) ->
  scan_segments quote_lower segs = py "Unknown".
Proof.
  induction segs as [|segment segs IH]; intros H; [done|]. simpl.
  destruct (_ || _) eqn:Hm.
  - apply seg_matches_spec in Hm. destruct (H segment); [left|done].
  - apply IH. intros s' Hin. apply H. by right.
Qed.

Lemma scan_first (quote_lower : str) (before after : list Segment) (segment : Segment) :
  (forall s', s' ∈ before -> ~ seg_matches quote_lower s') ->
  seg_matches quote_lower segment ->
  scan_segments quote_lower (before ++ segment :: after)
  = _format_timestamp (seg_start segment).
Proof.
  induction before as [|s0 before IH]; intros Hno Hm; simpl.
  - apply seg_matches_spec in Hm. by rewrite Hm.
  - destruct (_ || _) eqn:Hm0.
    + apply seg_matches_spec in Hm0. destruct (Hno s0); [left|done].
    + apply IH; [|done]. intros s' Hin. apply Hno. by right.
Qed.

(** C7. The timestamp of a quote: "Unknown" for the empty quote and when
    no segment matches; otherwise the start of the first segment, in
    order, whose lower-cased text contains the quote lower-cased and cut to
    its first 50 characters, or is contained in it. A start of at least
    one hour is written H:MM:SS, a shorter one M:SS, so that 45 seconds
    give "0:45", 125 give "2:05" and 3725 give "1:02:05". *)
Theorem find_timestamp_spec :
  (forall transcript, _find_timestamp transcript [] = py "Unknown")
  /\ (forall transcript quote,
        (forall segs segment,
            segments transcript = Some segs -> segment ∈ segs ->
            ~ seg_matches (take 50 (Py.lower quote)) segment) ->
        _find_timestamp transcript quote = py "Unknown")
  /\ (forall transcript quote before segment after,
        quote <> [] ->
        segments transcript = Some (before ++ segment :: after) ->
        (forall s', s' ∈ before -> ~ seg_matches (take 50 (Py.lower quote)) s') ->
        seg_matches (take 50 (Py.lower quote)) segment ->
        _find_timestamp transcript quote = _format_timestamp (seg_start segment))
  /\ (forall seconds : Q,
        (0 <= seconds)%Q -> _format_timestamp seconds = clock (Qfloor seconds))
  /\ _format_timestamp 45 = py "0:45"
  /\ _format_timestamp 125 = py "2:05"
  /\ _format_timestamp 3725 = py "1:02:05".
Proof.
  repeat split.
  - intros transcript quote Hno. unfold _find_timestamp.
    destruct (negb _); [done|].
    destruct (segments transcript) as [segs|] eqn:Hsegs; [|done].
    apply scan_none. intros segment Hin. by eapply Hno.
  - intros transcript quote before segment after Hne Hsegs Hno Hm.
    unfold _find_timestamp. rewrite Hsegs.
    destruct quote; [done|]. simpl negb. cbv iota. by apply scan_first.
  - apply ClockFacts.format_timestamp_floor.
Qed.

Lemma find_timestamp_spec_witness :
  _find_timestamp example_transcript (py "we should do an episode on P-HACKING")
  = _format_timestamp (7451 # 2)
  /\ _find_timestamp example_transcript (py "nothing of the kind was said")
     = py "Unknown"
  /\ _format_timestamp (7451 # 2) = clock 3725.
Proof.
  destruct find_timestamp_spec as (_ & Hnone & Hfirst & Hclock & _).
  split; [|split].
  - apply (Hfirst example_transcript _
             [ {| seg_text := py "Welcome back."; seg_start := 0; seg_end := 2 |} ]
             {| seg_text := py " We should do an episode on p-hacking.";
                seg_start := 7451 # 2; seg_end := 3730 |}
             [ {| seg_text := py " Bye."; seg_start := 3730; seg_end := 3731 |} ]).
    + discriminate.
    + reflexivity.
    + intros s' Hin. apply list_elem_of_singleton in Hin as ->.
      intros Hm. apply seg_matches_spec in Hm. discriminate Hm.
    + apply seg_matches_spec. reflexivity.
  - apply Hnone. intros segs segment [= <-] Hin Hm.
    apply seg_matches_spec in Hm.
    repeat (apply elem_of_cons in Hin as [->|Hin]; [discriminate Hm|]).
    by apply elem_of_nil in Hin.
  - apply (Hclock (7451 # 2)). discriminate.
Defined.

(** ** The reply of the model *)

Module ReSteps.
Import Re.

Lemma match_one p g re t segs :
  match_here (Item p One g :: re) t = Some segs ->
  exists c t' segs',
    t = c :: t' /\ p c = true /\ segs = [c] :: segs'
    /\ match_here re t' = Some segs'.
Proof.
  simpl. unfold match_item. simpl. destruct t as [|c t]; [done|].
  destruct (p c) eqn:Hc; [|done].
  destruct (match_here re t) as [segs'|] eqn:Hm; [|done].
  simpl. intros [= <-]. by exists c, t, segs'.
Qed.

Lemma match_star p g re t segs :
  match_here (Item p Star g :: re) t = Some segs ->
  exists seg t' segs',
    t = seg ++ t' /\ all p seg /\ segs = seg :: segs'
    /\ match_here re t' = Some segs'
    /\ forall seg2 t2, t = seg2 ++ t2 -> all p seg2 ->
                       length seg < length seg2 -> match_here re t2 = None.
Proof.
  simpl. unfold match_item. simpl.
  destruct (greedy p (match_here re) t) as [[seg segs']|] eqn:Hg; [|done].
  simpl. intros [= <-]. apply ReFacts.greedy_spec in Hg as (t' & -> & ? & ? & ?).
  by exists seg, t', segs'.
Qed.

Lemma match_lazy p g re t segs :
  match_here (Item p StarLazy g :: re) t = Some segs ->
  exists seg t' segs',
    t = seg ++ t' /\ all p seg /\ segs = seg :: segs'
    /\ match_here re t' = Some segs'
    /\ forall seg2 t2, t = seg2 ++ t2 -> length seg2 < length seg ->
                       match_here re t2 = None.
Proof.
  simpl. unfold match_item. simpl.
  destruct (reluctant p (match_here re) t) as [[seg segs']|] eqn:Hg; [|done].
  simpl. intros [= <-]. apply ReFacts.reluctant_spec in Hg as (t' & -> & ? & ? & ?).
  by exists seg, t', segs'.
Qed.

(** Where a run of [p] ends at a character outside [p] is determined. *)
Lemma run_unique p (u u' : str) c x x' :
  all p u -> all p u' -> p c = false ->
  u ++ c :: x = u' ++ c :: x' -> u = u' /\ x = x'.
Proof.
  intros Hu; revert u'; induction Hu as [|a u Ha _ IH];
    intros u' Hu' Hc Heq; destruct Hu' as [|a' u' Ha' Hu']; simpl in *.
  - by injection Heq.
  - injection Heq as -> _. congruence.
  - injection Heq as -> _. congruence.
  - injection Heq as -> Heq. destruct (IH u' Hu' Hc Heq) as [-> ->]. done.
Qed.

Lemma all_any t : all any t.
Proof. induction t; by constructor. Qed.

End ReSteps.

Lemma fence_pattern_eq :
  fence_pattern
  = Re.lit "```json"
    ++ space_star :: Re.Item (Ascii.eqb "[") Re.One true
       :: Re.Item Re.any Re.StarLazy true :: fence_close.
Proof. reflexivity. Qed.

Lemma fence_close_complete ws2 post :
  Re.all Py.is_space ws2 ->
  is_Some (Re.match_here fence_close (py "]" ++ ws2 ++ py "```" ++ post)).
Proof.
  intros Hws.
  replace (py "]" ++ ws2 ++ py "```" ++ post)
    with (concat (["]"%char] :: ws2 :: map (fun c => [c]) (py "```")) ++ post)
    by (simpl; by repeat (rewrite <- app_assoc; simpl)).
  apply ReFacts.match_here_complete.
  constructor; [by exists "]"%char|].
  constructor; [done|]. apply (ReFacts.lit_matches (py "```")).
Qed.

Lemma fence_complete ws1 body ws2 post :
  Re.all Py.is_space ws1 -> Re.all Py.is_space ws2 ->
  is_Some (Re.match_here fence_pattern
             (py "```json" ++ ws1 ++ (py "[" ++ body ++ py "]")
              ++ ws2 ++ py "```" ++ post)).
Proof.
  intros Hws1 Hws2.
  replace (py "```json" ++ ws1 ++ (py "[" ++ body ++ py "]")
           ++ ws2 ++ py "```" ++ post)
    with (concat (map (fun c => [c]) (py "```json")
                  ++ ws1 :: ["["%char] :: body :: ["]"%char] :: ws2
                     :: map (fun c => [c]) (py "```")) ++ post)
    by (rewrite concat_app, ReFacts.concat_singletons; simpl;
        by repeat (rewrite <- app_assoc; simpl)).
  apply ReFacts.match_here_complete. rewrite fence_pattern_eq.
  apply Forall2_app; [apply (ReFacts.lit_matches (py "```json"))|].
  constructor; [done|]. constructor; [by exists "["%char|].
  constructor; [apply ReSteps.all_any|].
  constructor; [by exists "]"%char|].
  constructor; [done|]. apply (ReFacts.lit_matches (py "```")).
Qed.

Lemma lit_ungrouped l : Forall (fun it => Re.grp it = false) (Re.lit l).
Proof. unfold Re.lit. induction (py l); simpl; constructor; done. Qed.

Lemma group1_cons it re seg segs :
  Re.group1 (it :: re) (seg :: segs)
  = (if Re.grp it then seg else []) ++ Re.group1 re segs.
Proof. reflexivity. Qed.

Lemma open_bracket_not_space : Py.is_space "[" = false.
Proof. reflexivity. Qed.

(** A match of the fence pattern at the start of [t]: the parts, the
    group, and the array being the shortest that can be read there. *)
Lemma fence_sound t segs :
  Re.match_here fence_pattern t = Some segs ->
  exists ws1 body ws2 post,
    t = py "```json" ++ ws1 ++ (py "[" ++ body ++ py "]")
        ++ ws2 ++ py "```" ++ post
    /\ Re.all Py.is_space ws1 /\ Re.all Py.is_space ws2
    /\ Re.group1 fence_pattern segs = py "[" ++ body ++ py "]"
    /\ forall ws1' body' ws2' post',
        t = py "```json" ++ ws1' ++ (py "[" ++ body' ++ py "]")
            ++ ws2' ++ py "```" ++ post' ->
        Re.all Py.is_space ws1' -> Re.all Py.is_space ws2' ->
        length body <= length body'.
Proof.
  rewrite fence_pattern_eq. intros H.
  apply ReFacts.match_app_sound in H as (segs1 & segs2 & t1 & -> & -> & Hlit & H).
  pose proof (ReFacts.matches_lit _ _ Hlit) as Hopen.
  apply ReSteps.match_star in H as (ws1 & t2 & segs3 & -> & Hws1 & -> & H & _).
  apply ReSteps.match_one in H as (c & t3 & segs4 & -> & Hc & -> & H).
  apply Ascii.eqb_eq in Hc; subst c.
  apply ReSteps.match_lazy in H as (body & t4 & segs5 & -> & _ & -> & H & Hmin).
  unfold fence_close in H.
  apply ReSteps.match_one in H as (c & t5 & segs6 & -> & Hc & -> & H).
  apply Ascii.eqb_eq in Hc; subst c.
  apply ReSteps.match_star in H as (ws2 & t6 & segs7 & -> & Hws2 & -> & H & _).
  apply ReFacts.match_here_sound in H as (post & -> & Hlit3).
  pose proof (ReFacts.matches_lit _ _ Hlit3) as Hclose.
  exists ws1, body, ws2, post. rewrite Hopen, Hclose.
  split; [simpl; by repeat (rewrite <- app_assoc; simpl)|].
  split; [done|]. split; [done|]. split.
  - rewrite ReFacts.group1_app by (by apply Forall2_length in Hlit).
    rewrite ReFacts.group1_none by apply lit_ungrouped.
    unfold fence_close. do 5 rewrite group1_cons.
    rewrite ReFacts.group1_none by apply (lit_ungrouped "```").
    simpl. by repeat (rewrite <- app_assoc; simpl).
  - intros ws1' body' ws2' post' Heq Hws1' Hws2'.
    apply app_inv_head in Heq.
    replace (ws1' ++ (py "[" ++ body' ++ py "]") ++ ws2' ++ py "```" ++ post')
      with (ws1' ++ "["%char :: body' ++ py "]" ++ ws2' ++ py "```" ++ post')
      in Heq by (simpl; by repeat (rewrite <- app_assoc; simpl)).
    apply (ReSteps.run_unique Py.is_space) in Heq as [_ Heq];
      [|done|done|exact open_bracket_not_space].
    destruct (decide (length body' < length body)) as [Hlt|]; [|lia].
    rewrite Hclose in Hmin. specialize (Hmin body' _ Heq Hlt).
    destruct (fence_close_complete ws2' post' Hws2') as [? Hsome].
    congruence.
Qed.

(** The search for a fence finds the array of the first fence, and fails
    only when there is none. *)
Lemma search_fence (response : str) :
  match Re.search_group1 fence_pattern response with
  | Some a => first_fenced response a
  | None => ~ has_fence response
  end.
Proof.
  unfold Re.search_group1.
  destruct (Re.search fence_pattern response) as [[pre segs]|] eqn:Hs;
    cbn -[Re.group1 fence_pattern].
  - apply ReFacts.search_some in Hs as (t & -> & Hm & Hfirst).
    apply fence_sound in Hm as (ws1 & body & ws2 & post & -> & Hws1 & Hws2 & -> & Hmin).
    exists pre. split; [by exists ws1, body, ws2, post|].
    intros pre' a' (ws1' & body' & ws2' & post' & Heq & -> & Hws1' & Hws2').
    split.
    + destruct (decide (length pre' < length pre)) as [Hlt|]; [|lia].
      specialize (Hfirst _ _ Heq Hlt).
      destruct (fence_complete ws1' body' ws2' post' Hws1' Hws2') as [? Hsome].
      congruence.
    + intros Hlen. apply app_inj_1 in Heq as [_ Heq]; [|done].
      specialize (Hmin _ _ _ _ Heq Hws1' Hws2').
      rewrite !length_app. simpl. lia.
  - intros (pre & a & ws1 & body & ws2 & post & Heq & -> & Hws1 & Hws2).
    eapply ReFacts.search_none in Hs; [|exact Heq].
    destruct (fence_complete ws1 body ws2 post Hws1 Hws2) as [? Hsome].
    congruence.
Qed.

Lemma bare_pattern_eq :
  bare_pattern
  = [Re.Item (Ascii.eqb "[") Re.One true; Re.Item Re.any Re.Star true;
     Re.Item (Ascii.eqb "]") Re.One true].
Proof. reflexivity. Qed.

Lemma bare_complete body post :
  is_Some (Re.match_here bare_pattern (py "[" ++ body ++ py "]" ++ post)).
Proof.
  replace (py "[" ++ body ++ py "]" ++ post)
    with (concat [["["%char]; body; ["]"%char]] ++ post)
    by (simpl; by repeat (rewrite <- app_assoc; simpl)).
  apply ReFacts.match_here_complete. rewrite bare_pattern_eq.
  constructor; [by exists "["%char|].
  constructor; [apply ReSteps.all_any|].
  constructor; [by exists "]"%char|]. constructor.
Qed.

(** A match of the bare pattern at the start of [t] runs to the last "]". *)
Lemma bare_sound t segs :
  Re.match_here bare_pattern t = Some segs ->
  exists body post,
    t = py "[" ++ body ++ py "]" ++ post
    /\ Re.group1 bare_pattern segs = py "[" ++ body ++ py "]"
    /\ "]"%char ∉ post.
Proof.
  rewrite bare_pattern_eq. intros H.
  apply ReSteps.match_one in H as (c & t1 & segs1 & -> & Hc & -> & H).
  apply Ascii.eqb_eq in Hc; subst c.
  apply ReSteps.match_star in H as (body & t2 & segs2 & -> & _ & -> & H & Hmax).
  apply ReSteps.match_one in H as (c & post & segs3 & -> & Hc & -> & H).
  apply Ascii.eqb_eq in Hc; subst c.
  simpl in H. injection H as <-.
  exists body, post. split; [done|]. split.
  - simpl. by repeat (rewrite <- app_assoc; simpl).
  - intros Hin. apply list_elem_of_split in Hin as (q1 & q2 & ->).
    specialize (Hmax (body ++ "]"%char :: q1) ("]"%char :: q2)).
    rewrite <- app_assoc in Hmax.
    discriminate Hmax; [done|apply ReSteps.all_any|].
    rewrite length_app. simpl. lia.
Qed.

(** The search for a bare array finds the text from the first "[" to the
    last "]", and fails only when no "]" follows a "[". *)
Lemma search_bare (response : str) :
  match Re.search_group1 bare_pattern response with
  | Some a => bare_array response a
  | None => ~ has_brackets response
  end.
Proof.
  unfold Re.search_group1.
  destruct (Re.search bare_pattern response) as [[pre segs]|] eqn:Hs;
    cbn -[Re.group1 bare_pattern].
  - apply ReFacts.search_some in Hs as (t & -> & Hm & Hfirst).
    apply bare_sound in Hm as (body & post & -> & -> & Hlast).
    exists pre, body, post.
    split; [by repeat (rewrite <- app_assoc; simpl)|].
    split; [done|]. split; [|done].
    intros Hin. apply list_elem_of_split in Hin as (p1 & p2 & ->).
    specialize (Hfirst p1 (py "[" ++ (p2 ++ py "[" ++ body) ++ py "]" ++ post)).
    destruct (bare_complete (p2 ++ py "[" ++ body) post) as [? Hsome].
    rewrite Hfirst in Hsome; [done| |rewrite length_app; simpl; lia].
    simpl. by repeat (rewrite <- app_assoc; simpl).
  - intros (pre & body & post & Heq).
    eapply ReFacts.search_none in Hs; [|exact Heq].
    destruct (bare_complete body post) as [? Hsome]. congruence.
Qed.

(** The three branches of the extraction. *)
Lemma extract_json_branches (response : str) :
  (has_fence response -> first_fenced response (extract_json response))
  /\ (~ has_fence response -> has_brackets response ->
      bare_array response (extract_json response))
  /\ (~ has_fence response -> ~ has_brackets response ->
      extract_json response = py "[]").
Proof.
  unfold extract_json.
  pose proof (search_fence response) as Hfence.
  pose proof (search_bare response) as Hbare.
  destruct (Re.search_group1 fence_pattern response) as [a|].
  - split; [done|]. destruct Hfence as (pre & Hat & _).
    split; intros Hno; destruct Hno; by exists pre, a.
  - split; [done|].
    destruct (Re.search_group1 bare_pattern response) as [a|].
    + split; [done|]. intros _ Hno. destruct Hno.
      destruct Hbare as (pre & body & post & -> & -> & _).
      exists pre, body, post. by repeat (rewrite <- app_assoc; simpl).
    + split; done.
Qed.

(** The loop over the parsed elements, element by element. *)
Lemma enhance_items (e : Episode) (transcript : Transcript) (items : list JItem)
      (findings : list Finding) :
  mapM (enhance e transcript) items = Some findings ->
  Forall (fun item => item <> JOther) items
  /\ Forall2 (finding_of_item e transcript) items findings.
Proof.
  intros H. apply mapM_Some in H.
  induction H as [|item f items fs Hf _ [IH1 IH2]]; [split; constructor|].
  destruct item as [topic quote context|]; [|discriminate].
  injection Hf as <-.
  split; constructor; try done.
  exists topic, quote, context. cbn.
  repeat split; by destruct topic, quote, context.
Qed.

Lemma enhance_other (e : Episode) (transcript : Transcript) (items : list JItem) :
  mapM (enhance e transcript) items = None -> JOther ∈ items.
Proof.
  induction items as [|item items IH]; [discriminate|].
  destruct item as [topic quote context|]; [|intros _; left].
  cbn. destruct (mapM (enhance e transcript) items); [discriminate|].
  intros _. right. by apply IH.
Qed.

(** C6, as the code has it. For every reply of the model the payload is
    taken by a rule of three branches: when the reply holds a ```json fence
    around an array, the array of the first fence; otherwise, when a "]"
    follows a "[", the text from the first "[" to the last "]", which is
    the bare array only when no bracket follows it; otherwise the empty
    array "[]". The analysis of a transcript that has its text never
    raises. It returns no finding when the call fails, when [json.loads]
    rejects the payload, or when an element of the array is not an object;
    otherwise it returns one finding for each element, in order, with the
    number and the title of the episode,
    the topic, quote and context of the element ("Unknown" for a missing
    topic, the empty text for a missing quote or context) and the
    timestamp found for the quote. For a reply with neither pattern it
    returns no finding, [json.loads] giving the empty list for "[]". *)
Theorem extract_json_spec :
  (forall response : str,
      (has_fence response -> first_fenced response (extract_json response))
      /\ (~ has_fence response -> has_brackets response ->
          bare_array response (extract_json response))
      /\ (~ has_fence response -> ~ has_brackets response ->
          extract_json response = py "[]"))
  /\ (forall (claude : str -> option str)
             (json_loads : str -> option (list JItem))
             (e : Episode) (transcript : Transcript) (st : St),
        exists findings st',
          analyze_with_claude claude json_loads e transcript st = (Ok findings, st')
          /\ match claude (text transcript) with
             | None => findings = []
             | Some response =>
                 match json_loads (extract_json response) with
                 | None => findings = []
                 | Some items =>
                     (Forall (fun item => item <> JOther) items
                      /\ Forall2 (finding_of_item e transcript) items findings)
                     \/ (JOther ∈ items /\ findings = [])
                 end
             end)
  /\ (forall (claude : str -> option str)
             (json_loads : str -> option (list JItem))
             (e : Episode) (transcript : Transcript) (st : St) (response : str),
        claude (text transcript) = Some response ->
        json_loads (py "[]") = Some [] ->
        ~ has_fence response -> ~ has_brackets response ->
        exists st',
          analyze_with_claude claude json_loads e transcript st = (Ok [], st')).
Proof.
  split; [exact extract_json_branches|]. split.
  - intros claude json_loads e transcript st.
    unfold analyze_with_claude, bind. simpl.
    destruct (claude (text transcript)) as [response|]; [|by eexists _, _].
    destruct (json_loads (extract_json response)) as [items|]; [|by eexists _, _].
    destruct (mapM (enhance e transcript) items) as [fs|] eqn:Hm;
      eexists _, _; (split; [reflexivity|]).
    + left. by apply enhance_items.
    + right. split; [by eapply enhance_other|done].
  - intros claude json_loads e transcript st response Hsays Hempty Hnf Hnb.
    unfold analyze_with_claude, bind. simpl. rewrite Hsays.
    rewrite (proj2 (proj2 (extract_json_branches response)) Hnf Hnb), Hempty.
    by eexists.
Qed.

Lemma extract_json_spec_witness :
  first_fenced reply_fenced (extract_json reply_fenced)
  /\ bare_array reply_bare (extract_json reply_bare)
  /\ bare_array reply_two_arrays (extract_json reply_two_arrays)
  /\ extract_json reply_plain = py "[]"
  /\ (exists findings st',
        analyze_with_claude (model_says reply_fenced) sample_loads
          paid_episode example_transcript blank
        = (Ok findings, st')
        /\ Forall2 (finding_of_item paid_episode example_transcript)
             [JDict (Some (py "p-hacking"))
                    (Some (py "we should do an episode on p-hacking")) None]
             findings)
  /\ (exists findings st',
        analyze_with_claude (model_says reply_two_arrays) sample_loads
          paid_episode example_transcript blank
        = (Ok findings, st')
        /\ findings = [])
  /\ exists st',
      analyze_with_claude (model_says reply_plain) sample_loads
        paid_episode example_transcript blank
      = (Ok [], st').
Proof.
  destruct extract_json_spec as (Hextract & Htotal & Hnone).
  split; [|split; [|split; [|split; [|split; [|split]]]]].
  - apply (proj1 (Hextract reply_fenced)).
    exists (py "Here it is:" ++ [newline]), payload, [newline], payload_body,
      [newline], ([newline] ++ py "Reference [3] is not part of it.").
    split; [reflexivity|]. split; [reflexivity|]. split; repeat constructor.
  - apply (proj1 (proj2 (Hextract reply_bare))).
    + exact (search_fence reply_bare).
    + by exists (py "I found "), payload_body, (py " in the transcript.").
  - apply (proj1 (proj2 (Hextract reply_two_arrays))).
    + exact (search_fence reply_two_arrays).
    + by exists (py "I found "), payload_body, (py " and reference [1].").
  - apply (proj2 (proj2 (Hextract reply_plain))).
    + exact (search_fence reply_plain).
    + exact (search_bare reply_plain).
  - destruct (Htotal (model_says reply_fenced) sample_loads paid_episode
                example_transcript blank) as (findings & st' & Hrun & Hcase).
    exists findings, st'. split; [exact Hrun|].
    change (model_says reply_fenced (text example_transcript))
      with (Some reply_fenced) in Hcase.
    change (sample_loads (extract_json reply_fenced))
      with (Some [JDict (Some (py "p-hacking"))
                        (Some (py "we should do an episode on p-hacking")) None])
      in Hcase.
    cbv iota in Hcase. destruct Hcase as [[_ Hall]|[Hin _]]; [exact Hall|].
    apply list_elem_of_singleton in Hin. discriminate Hin.
  - destruct (Htotal (model_says reply_two_arrays) sample_loads paid_episode
                example_transcript blank) as (findings & st' & Hrun & Hcase).
    exists findings, st'. split; [exact Hrun|].
    change (model_says reply_two_arrays (text example_transcript))
      with (Some reply_two_arrays) in Hcase.
    change (sample_loads (extract_json reply_two_arrays))
      with (@None (list JItem)) in Hcase.
    exact Hcase.
  - apply (Hnone _ _ _ _ _ reply_plain); [reflexivity|reflexivity| |].
    + exact (search_fence reply_plain).
    + exact (search_bare reply_plain).
Defined.

(** C6, as stated, fails on its second branch: a reply without fence that
    holds a bare array which [json.loads] reads, at the first "[" of the
    reply, is not parsed to that array when bracketed text follows it. The
    payload runs on to the last "]", [json.loads] rejects it, and the
    analysis returns no finding. *)
Lemma extract_json_counterexample :
  ~ (forall (claude : str -> option str)
            (json_loads : str -> option (list JItem))
            (e : Episode) (transcript : Transcript) (st : St)
            (response pre a body post : str) (items : list JItem),
        claude (text transcript) = Some response ->
        ~ has_fence response ->
        response = pre ++ a ++ post ->
        a = py "[" ++ body ++ py "]" ->
        "["%char ∉ pre ->
        json_loads a = Some items ->
        Forall (fun item => item <> JOther) items ->
        exists findings st',
          analyze_with_claude claude json_loads e transcript st = (Ok findings, st')
          /\ Forall2 (finding_of_item e transcript) items findings).
Proof.
  intros H.
  destruct (H (model_says reply_two_arrays) sample_loads paid_episode
              example_transcript blank reply_two_arrays
              (py "I found ") payload payload_body (py " and reference [1].")
              [JDict (Some (py "p-hacking"))
                     (Some (py "we should do an episode on p-hacking")) None]
              eq_refl)
    as (findings & st' & Hrun & Hall).
  - exact (search_fence reply_two_arrays).
  - reflexivity.
  - reflexivity.
  - intros Hin. apply list_elem_of_In in Hin. simpl in Hin.
    repeat (destruct Hin as [Hin|Hin]; [discriminate Hin|]). exact Hin.
  - reflexivity.
  - repeat constructor. discriminate.
  - vm_compute in Hrun. injection Hrun as <- _. inversion Hall.
Qed.

Example extract_two_arrays :
  extract_json reply_two_arrays = payload ++ py " and reference [1]"
  /\ sample_loads (extract_json reply_two_arrays) = None.
Proof. split; reflexivity. Qed.

Example extract_fenced : extract_json reply_fenced = payload.
Proof. reflexivity. Qed.

Example extract_bare : extract_json reply_bare = payload.
Proof. reflexivity. Qed.

Example analysis_of_fenced :
  findings_of_reply sample_loads paid_episode example_transcript (Some reply_fenced)
  = [ {| f_episode_number := EpStr (py "P25");
         f_episode_title := py "Paid-only episode 25: Replication";
         f_timestamp := py "1:02:05";
         f_topic := py "p-hacking";
         f_quote := py "we should do an episode on p-hacking";
         f_context := [] |} ].
Proof. reflexivity. Qed.

(** ** The progress record *)

Section Driver.
Variable http_get : str -> Response.
Variable whisper_transcribe : str -> option Transcript.
Variable claude : str -> option str.
Variable json_loads : str -> option (list JItem).

Lemma process_loop_app (eps1 eps2 : list Episode) (all_findings : list Finding)
      (st : St) :
  process_loop http_get whisper_transcribe claude json_loads
    (eps1 ++ eps2) all_findings st =
    match process_loop http_get whisper_transcribe claude json_loads
            eps1 all_findings st with
    | (Ok all_findings', st') =>
        process_loop http_get whisper_transcribe claude json_loads
          eps2 all_findings' st'
    | (Raise e, st') => (Raise e, st')
    end.
Proof.
  revert all_findings st; induction eps1 as [|e eps1 IH]; intros all_findings st;
    [done|].
  simpl. unfold bind.
  destruct (process_one _ _ _ _ e all_findings st) as [[all'|x] st']; [|done].
  apply IH.
Qed.

(** An episode that completes has its findings appended and the record
    saved with the extended list as its results. *)
Lemma process_one_completes (e : Episode) (all_findings findings : list Finding)
      (st : St) :
  completes http_get whisper_transcribe claude json_loads e st findings ->
  exists st',
    process_one http_get whisper_transcribe claude json_loads e all_findings st
    = (Ok (all_findings ++ findings), st')
    /\ progress_file st' = Some (progress st')
    /\ results (progress st') = all_findings ++ findings.
Proof.
  intros (path & st1 & tr & st2 & st3 & Hd & Ht & Ha).
  unfold process_one, bind. rewrite Hd, Ht, Ha. simpl.
  eexists. split; [reflexivity|]. split; reflexivity.
Qed.

End Driver.

Lemma episode_7_completes :
  completes no_server no_engine (model_says reply_fenced) sample_loads
    episode_7 (init interrupted).2 new_findings.
Proof.
  exists (audio_filename episode_7),
    (download_episode no_server episode_7 (init interrupted).2).2,
    example_transcript,
    (transcribe_episode no_engine episode_7 (audio_filename episode_7)
       (download_episode no_server episode_7 (init interrupted).2).2).2,
    (analyze_with_claude (model_says reply_fenced) sample_loads episode_7
       example_transcript
       (transcribe_episode no_engine episode_7 (audio_filename episode_7)
          (download_episode no_server episode_7 (init interrupted).2).2).2).2.
  split; [|split]; vm_compute; reflexivity.
Qed.

(** C2, as stated, fails: the findings a previous run has saved are gone
    from the saved results as soon as an episode of the new run
    completes. *)
Lemma progress_results_counterexample :
  ~ (forall (http_get : str -> Response)
            (whisper_transcribe : str -> option Transcript)
            (claude : str -> option str)
            (json_loads : str -> option (list JItem))
            (st st1 st2 : St) (old : Progress) (e : Episode)
            (findings all_findings : list Finding),
        progress_file st = Some old ->
        init st = (Ok tt, st1) ->
        completes http_get whisper_transcribe claude json_loads e st1 findings ->
        process_episodes http_get whisper_transcribe claude json_loads [e] st1
        = (Ok all_findings, st2) ->
        exists p,
          progress_file st2 = Some p
          /\ (forall f, f ∈ findings -> f ∈ results p)
          /\ (forall f, f ∈ results old -> f ∈ results p)).
Proof.
  intros H.
  destruct (H no_server no_engine (model_says reply_fenced) sample_loads
              interrupted (init interrupted).2
              (process_episodes no_server no_engine (model_says reply_fenced)
                 sample_loads [episode_7] (init interrupted).2).2
              _ episode_7 new_findings new_findings eq_refl)
    as (p & Hp & _ & Hold).
  - reflexivity.
  - exact episode_7_completes.
  - vm_compute. reflexivity.
  - vm_compute in Hp. injection Hp as <-.
    specialize (Hold old_finding). simpl in Hold.
    assert (Hin : old_finding ∈ new_findings) by (apply Hold; left).
    vm_compute in Hin.
    apply list_elem_of_singleton in Hin. discriminate Hin.
Qed.

(** * Further properties *)

(** ** Sanitized titles *)

Lemma lstrip_Forall (P : ascii -> Prop) (t : str) :
  Forall P t -> Forall P (Py.lstrip t).
Proof.
  induction 1 as [|c t Hc Ht IH]; simpl; [constructor|].
  destruct (Py.is_space c); [done|by constructor].
Qed.

Lemma strip_Forall (P : ascii -> Prop) (t : str) :
  Forall P t -> Forall P (Py.strip t).
Proof.
  intros H. unfold Py.strip, Py.rstrip.
  apply Forall_rev, lstrip_Forall, Forall_rev, lstrip_Forall, H.
Qed.

Lemma sub_char_kept (t : str) :
  Forall (fun c => unsafe_char c = false) (Re.sub_char unsafe_char [] t).
Proof.
  unfold Re.sub_char. induction t as [|c t IH]; simpl; [constructor|].
  destruct (unsafe_char c) eqn:Hc; simpl; [done|by constructor].
Qed.

Lemma kept_word_or_dash (c : ascii) :
  unsafe_char c = false -> dash_or_space c = false -> Py.is_word c = true.
Proof.
  unfold unsafe_char, dash_or_space. intros H1 H2.
  apply negb_false_iff in H1. apply orb_false_iff in H2 as [H2 H3].
  rewrite H2, H3, !orb_false_r in H1. done.
Qed.

Lemma not_dash (c : ascii) : dash_or_space c = false -> c <> "-"%char.
Proof. intros H ->. discriminate H. Qed.

Lemma sub_runs_chars (t : str) :
  Forall (fun c => unsafe_char c = false) t ->
  Forall (fun c => Py.is_word c = true \/ c = "-"%char)
         (Re.sub_runs dash_or_space (py "-") t).
Proof.
  induction 1 as [|c t Hc Ht IH]; simpl; [constructor|].
  destruct (dash_or_space c) eqn:Hd.
  - destruct t as [|d t]; [repeat constructor; by right|].
    destruct (dash_or_space d); [done|]. constructor; [by right|done].
  - constructor; [|done]. left. by apply kept_word_or_dash.
Qed.

Lemma sub_runs_single (t : str) :
  single_dashes (Re.sub_runs dash_or_space (py "-") t).
Proof.
  change (py "-") with ["-"%char].
  induction t as [|c t IH]; [done|].
  cbn [Re.sub_runs]. destruct (dash_or_space c) eqn:Hc.
  - destruct t as [|d t]; [done|].
    destruct (dash_or_space d) eqn:Hd; [exact IH|].
    cbn [Re.sub_runs app] in *. rewrite Hd in *. split; [|exact IH].
    intros [_ ->]. discriminate Hd.
  - destruct (Re.sub_runs dash_or_space ["-"%char] t) eqn:Hs; [done|].
    split; [|exact IH]. intros [-> _]. discriminate Hc.
Qed.

Lemma take_single (n : nat) (t : str) : single_dashes t -> single_dashes (take n t).
Proof.
  revert n; induction t as [|a t IH]; intros n H; [by rewrite take_nil|].
  destruct n as [|n]; [done|]. cbn [take firstn].
  destruct t as [|b t]; [by rewrite take_nil|].
  destruct H as [Hab H]. specialize (IH n H).
  destruct n as [|n]; [done|]. split; [done|exact IH].
Qed.

(** X1. A sanitized title has at most 50 characters, all of them word
    characters or hyphens, and never two hyphens in a row. *)
Theorem safe_title_shape (title : str) :
  length (safe_title title) <= 50
  /\ Forall (fun c => Py.is_word c = true \/ c = "-"%char) (safe_title title)
  /\ single_dashes (safe_title title).
Proof.
  unfold safe_title. split; [rewrite length_take; lia|]. split.
  - apply Forall_take, sub_runs_chars, strip_Forall, sub_char_kept.
  - apply take_single, sub_runs_single.
Qed.

(** ** Downloading *)

Lemma bind_run {A B} (m : M A) (k : A -> M B) (st : St) :
  bind m k st =
    match m st with
    | (Ok a, st') => k a st'
    | (Raise e, st') => (Raise e, st')
    end.
Proof. reflexivity. Qed.

Lemma http_requests_snoc (tr : list event) (ev : event) :
  http_requests (tr ++ [ev])
  = http_requests tr ++ match ev with HttpGet url => [url] | _ => [] end.
Proof. rewrite http_requests_app. by destruct ev. Qed.

(** What the request and the writing loop do, by what the server does. *)
Lemma fetch_spec (http_get : str -> Response) (e : Episode) (name : str) (st : St) :
  exists st',
    http_requests (trace st') = http_requests (trace st) ++ [url_of e]
    /\ match http_get (url_of e) with
       | HttpError =>
           fetch http_get e name st = (Ok None, st')
           /\ downloads st' = downloads st
       | HttpBody chunks =>
           fetch http_get e name st = (Ok (Some name), st')
           /\ downloads st' = <[name := concat chunks]> (downloads st)
       | HttpBroken chunks =>
           fetch http_get e name st = (Ok None, st')
           /\ downloads st' = <[name := concat chunks]> (downloads st)
       end.
Proof.
  unfold fetch. rewrite bind_run. cbn [log].
  destruct (http_get (url_of e)) as [|chunks|chunks].
  - eexists. split; [|split; reflexivity]. cbn [trace].
    by rewrite http_requests_snoc.
  - eexists. split; [|split; reflexivity]. cbn.
    by rewrite !http_requests_snoc, app_nil_r.
  - eexists. split; [|split; reflexivity]. cbn.
    by rewrite !http_requests_snoc, app_nil_r.
Qed.

Lemma download_hit_run (http_get : str -> Response) (e : Episode) (st : St) :
  no_audio_url e = false ->
  is_Some (downloads st !! audio_filename e) ->
  download_episode http_get e st
  = (Ok (Some (audio_filename e)), (log (Exists Downloads (audio_filename e)) st).2).
Proof.
  intros Hurl Hfile. unfold download_episode. rewrite Hurl, bind_run.
  by rewrite exists_download_run, bool_decide_eq_true_2.
Qed.



Lemma fetch_some (http_get : str -> Response) (e : Episode) (name p : str)
      (st0 st1 : St) :
  fetch http_get e name st0 = (Ok (Some p), st1) ->
  p = name /\ is_Some (downloads st1 !! name).
Proof.
  intros H. destruct (fetch_spec http_get e name st0) as (st' & _ & Hrun).
  destruct (http_get (url_of e)) as [|chunks|chunks]; destruct Hrun as [Hrun Hfiles];
    rewrite Hrun in H; try discriminate.
  injection H as <- <-. split; [done|].
  rewrite Hfiles, lookup_insert_eq. eauto.
Qed.

(** X3. A download that returned a path is not repeated: the next call for
    the same episode returns the same path, issues no request and leaves
    the downloads directory as it is. *)
Theorem download_twice (http_get : str -> Response) (e : Episode) (st st1 : St)
        (p : str) :
  download_episode http_get e st = (Ok (Some p), st1) ->
  exists st2,
    download_episode http_get e st1 = (Ok (Some p), st2)
    /\ http_requests (trace st2) = http_requests (trace st1)
    /\ downloads st2 = downloads st1.
Proof.
  intros H.
  assert (Hurl : no_audio_url e = false).
  { unfold download_episode in H. by destruct (no_audio_url e). }
  assert (Hafter : forall st0 : St,
             fetch http_get e (audio_filename e) st0 = (Ok (Some p), st1) ->
             exists st2,
               download_episode http_get e st1 = (Ok (Some p), st2)
               /\ http_requests (trace st2) = http_requests (trace st1)
               /\ downloads st2 = downloads st1).
  { intros st0 Hf. apply fetch_some in Hf as [-> Hfile].
    rewrite download_hit_run by done. eexists. split; [reflexivity|].
    split; [apply http_requests_exists|done]. }
  unfold download_episode in H. rewrite Hurl, bind_run, exists_download_run in H.
  destruct (bool_decide _) eqn:Hhit.
  - apply bool_decide_eq_true in Hhit. injection H as <- <-.
    rewrite download_hit_run by done. eexists. split; [reflexivity|].
    split; [apply http_requests_exists|done].
  - apply bool_decide_eq_false in Hhit.
    destruct (episode_number e) as [k|t|] eqn:Hnum; [by eapply Hafter| |by eapply Hafter].
    destruct (Py.startswith (py "P") t) eqn:HP; [|by eapply Hafter].
    destruct (Py.int_of_str (drop 1 t)) as [n|] eqn:Hn; [|discriminate].
    rewrite bind_run, exists_download_run in H. cbn [downloads log snd] in H.
    destruct (bool_decide _) eqn:Hold in H; [|by eapply Hafter].
    apply bool_decide_eq_true in Hold. injection H as <- <-.
    unfold download_episode. rewrite Hurl, bind_run, exists_download_run.
    cbn [downloads log snd].
    rewrite bool_decide_eq_false_2 by done.
    rewrite Hnum, HP, Hn, bind_run, exists_download_run. cbn [downloads log snd].
    rewrite bool_decide_eq_true_2 by done.
    eexists. split; [reflexivity|]. split; [|done]. cbn [trace log snd].
    by rewrite !http_requests_exists.
Qed.


(** ** Transcribing *)

Lemma exists_transcript_run (name : str) (st : St) :
  exists_transcript name st =
    (Ok (bool_decide (is_Some (transcripts st !! name))),
     (log (Exists Transcripts name) st).2).
Proof. reflexivity. Qed.

Lemma load_transcript_run (name : str) (st : St) :
  load_transcript name st
  = (Ok (transcripts st !! name), (log (Read Transcripts name) st).2).
Proof. reflexivity. Qed.

Lemma engine_runs_app (tr1 tr2 : list event) :
  engine_runs (tr1 ++ tr2) = engine_runs tr1 ++ engine_runs tr2.
Proof.
  induction tr1 as [|ev tr1 IH]; [done|].
  destruct ev; simpl; by rewrite ?IH.
Qed.

Lemma engine_runs_snoc (tr : list event) (ev : event) :
  engine_runs (tr ++ [ev])
  = engine_runs tr ++ match ev with Transcribe name => [name] | _ => [] end.
Proof. rewrite engine_runs_app. by destruct ev. Qed.

(** What loading the engine and running it do. *)
Lemma run_whisper_spec (whisper_transcribe : str -> option Transcript)
      (audio_path name : str) (st : St) :
  exists st',
    engine_runs (trace st') = engine_runs (trace st) ++ [audio_path]
    /\ whisper_model st' = true
    /\ downloads st' = downloads st
    /\ match downloads st !! audio_path ≫= whisper_transcribe with
       | Some tr =>
           run_whisper whisper_transcribe audio_path name st = (Ok (Some tr), st')
           /\ transcripts st' = <[name := tr]> (transcripts st)
       | None =>
           run_whisper whisper_transcribe audio_path name st = (Ok None, st')
           /\ transcripts st' = transcripts st
       end.
Proof.
  unfold run_whisper. rewrite bind_run. cbn [get].
  destruct (whisper_model st) eqn:Hw; rewrite bind_run; cbn;
    destruct (downloads st !! audio_path ≫= whisper_transcribe) as [tr|];
    eexists; (split; [|split; [|split; [|split; reflexivity]]]); cbn;
    rewrite ?engine_runs_snoc, ?app_nil_r; done.
Qed.

Lemma transcribe_hit_run (whisper_transcribe : str -> option Transcript)
      (e : Episode) (audio_path : str) (st : St) :
  is_Some (transcripts st !! transcript_filename e) ->
  transcribe_episode whisper_transcribe e audio_path st
  = (Ok (transcripts st !! transcript_filename e),
     (log (Read Transcripts (transcript_filename e))
          (log (Exists Transcripts (transcript_filename e)) st).2).2).
Proof.
  intros Hfile. unfold transcribe_episode.
  by rewrite bind_run, exists_transcript_run, bool_decide_eq_true_2.
Qed.

Lemma transcribe_hit_spec (whisper_transcribe : str -> option Transcript)
      (e : Episode) (audio_path : str) (st : St) (tr : Transcript) :
  transcripts st !! transcript_filename e = Some tr ->
  exists st',
    transcribe_episode whisper_transcribe e audio_path st = (Ok (Some tr), st')
    /\ engine_runs (trace st') = engine_runs (trace st)
    /\ whisper_model st' = whisper_model st
    /\ transcripts st' = transcripts st.
Proof.
  intros Hfile. rewrite transcribe_hit_run by (rewrite Hfile; eauto).
  rewrite Hfile. eexists. split; [reflexivity|]. cbn.
  by rewrite !engine_runs_snoc, !app_nil_r.
Qed.

(** X5. If the transcript of an episode is in the cache, it is returned
    as it is stored, whatever the audio path; the engine is neither loaded
    nor run and the cache is left as it is. *)
Theorem transcript_hit (whisper_transcribe : str -> option Transcript)
        (e : Episode) (audio_path : str) (st : St) (tr : Transcript) :
  transcripts st !! transcript_filename e = Some tr ->
  exists st',
    transcribe_episode whisper_transcribe e audio_path st = (Ok (Some tr), st')
    /\ engine_runs (trace st') = engine_runs (trace st)
    /\ whisper_model st' = whisper_model st
    /\ transcripts st' = transcripts st.
Proof. apply transcribe_hit_spec. Qed.



(** X7. A transcription that returned a transcript is not repeated: the
    next call for the same episode, with any audio path, returns the same
    transcript without running the engine. *)
Theorem transcribe_twice (whisper_transcribe : str -> option Transcript)
        (e : Episode) (audio_path audio_path' : str) (st st1 : St)
        (tr : Transcript) :
  transcribe_episode whisper_transcribe e audio_path st = (Ok (Some tr), st1) ->
  exists st2,
    transcribe_episode whisper_transcribe e audio_path' st1 = (Ok (Some tr), st2)
    /\ engine_runs (trace st2) = engine_runs (trace st1)
    /\ transcripts st2 = transcripts st1.
Proof.
  intros H.
  assert (Hafter : forall st0 : St,
             run_whisper whisper_transcribe audio_path (transcript_filename e) st0
             = (Ok (Some tr), st1) ->
             exists st2,
               transcribe_episode whisper_transcribe e audio_path' st1
               = (Ok (Some tr), st2)
               /\ engine_runs (trace st2) = engine_runs (trace st1)
               /\ transcripts st2 = transcripts st1).
  { intros st0 Hr.
    destruct (run_whisper_spec whisper_transcribe audio_path
                (transcript_filename e) st0) as (st' & _ & _ & _ & Hrun).
    destruct (downloads st0 !! audio_path ≫= whisper_transcribe) as [tr0|];
      destruct Hrun as [Hrun Hfiles]; rewrite Hrun in Hr; [|discriminate].
    injection Hr as <- <-.
    destruct (transcribe_hit_spec whisper_transcribe e audio_path' st' tr0)
      as (st2 & ? & ? & _ & ?); [by rewrite Hfiles, lookup_insert_eq|].
    by exists st2. }
  unfold transcribe_episode in H. rewrite bind_run, exists_transcript_run in H.
  destruct (bool_decide _) eqn:Hhit.
  - rewrite load_transcript_run in H. cbn [transcripts log snd] in H.
    injection H as Htr <-.
    destruct (transcribe_hit_spec whisper_transcribe e audio_path'
                (log (Read Transcripts (transcript_filename e))
                     (log (Exists Transcripts (transcript_filename e)) st).2).2 tr)
      as (st2 & ? & ? & _ & ?); [done|].
    by exists st2.
  - apply bool_decide_eq_false in Hhit.
    destruct (episode_number e) as [k|t|] eqn:Hnum; [by eapply Hafter| |by eapply Hafter].
    destruct (Py.startswith (py "P") t) eqn:HP; [|by eapply Hafter].
    destruct (Py.int_of_str (drop 1 t)) as [n|] eqn:Hn; [|discriminate].
    cbv zeta in H.
    remember (Py.fmt_0d 3 n ++ py "_transcript.json") as old eqn:Hname.
    rewrite bind_run, exists_transcript_run in H. cbn [transcripts log snd] in H.
    destruct (bool_decide _) eqn:Hold in H; [|by eapply Hafter].
    apply bool_decide_eq_true in Hold.
    rewrite load_transcript_run in H. cbn [transcripts log snd] in H.
    injection H as Htr <-.
    unfold transcribe_episode. rewrite bind_run, exists_transcript_run.
    cbn [transcripts log snd].
    rewrite bool_decide_eq_false_2 by done.
    rewrite Hnum, HP, Hn. cbv zeta. rewrite <- Hname.
    rewrite bind_run, exists_transcript_run. cbn [transcripts log snd].
    rewrite bool_decide_eq_true_2 by done.
    rewrite load_transcript_run. cbn [transcripts log snd]. rewrite Htr.
    eexists. split; [reflexivity|]. split; [|done]. cbn.
    by rewrite !engine_runs_snoc, !app_nil_r.
Qed.

(** X8. The fallback name of a paid episode tagged "P"+N is the name a
    regular episode numbered N uses: when the paid episode has no
    transcript under its own name and the regular one is in the cache, the
    regular episode's transcript is returned for the paid episode, without
    running the engine. *)
Theorem paid_reads_regular_transcript
        (whisper_transcribe : str -> option Transcript)
        (e e' : Episode) (audio_path : str) (st : St) (N : str) (tr : Transcript) :
  episode_number e = EpStr (py "P" ++ N) ->
  N <> [] -> Re.all Py.is_digit N ->
  episode_number e' = EpInt (Py.digits_value N) ->
  transcripts st !! transcript_filename e = None ->
  transcripts st !! transcript_filename e' = Some tr ->
  exists st',
    transcribe_episode whisper_transcribe e audio_path st = (Ok (Some tr), st')
    /\ engine_runs (trace st') = engine_runs (trace st)
    /\ transcripts st' = transcripts st.
Proof.
  intros Hnum Hne Hdig Hnum' Hnew Hold.
  unfold transcript_filename in Hold at 1. rewrite Hnum' in Hold.
  unfold transcribe_episode. rewrite bind_run, exists_transcript_run.
  rewrite bool_decide_eq_false_2 by (rewrite Hnew; by intros [? ?]).
  rewrite Hnum. destruct (paid_tag_number N) as [-> ->].
  rewrite PyFacts.int_of_str_digits by done.
  rewrite bind_run, exists_transcript_run. cbn [transcripts log snd].
  rewrite bool_decide_eq_true_2 by (rewrite Hold; eauto).
  rewrite load_transcript_run. cbn [transcripts log snd]. rewrite Hold.
  eexists. split; [reflexivity|]. split; [|done]. cbn.
  by rewrite !engine_runs_snoc, !app_nil_r.
Qed.

(** ** Reading the feed *)

Lemma digit_val_nonneg (c : ascii) : Py.is_digit c = true -> (0 <= Py.digit_val c)%Z.
Proof.
  unfold Py.is_digit, Py.in_range, Py.digit_val. intros H.
  apply andb_true_iff in H as [H _]. apply N.leb_le in H. lia.
Qed.

Lemma digits_value_nonneg (t : str) : Re.all Py.is_digit t -> (0 <= Py.digits_value t)%Z.
Proof.
  unfold Py.digits_value. intros H.
  assert (Hgen : forall a, (0 <= a)%Z ->
            (0 <= fold_left (fun acc c => 10 * acc + Py.digit_val c) t a)%Z).
  { induction H as [|c t Hc _ IH]; intros a Ha; [done|]. simpl. apply IH.
    pose proof (digit_val_nonneg c Hc). lia. }
  apply Hgen. lia.
Qed.

(** The identifier of a title is always there and well formed. *)
Lemma extract_well_formed (title : str) :
  exists n, _extract_episode_number title = Ok n /\ well_formed n.
Proof.
  unfold _extract_episode_number, paid_pattern, plain_pattern, Re.lit_i.
  pose proof (search_number (py "Paid-only episode ") title) as Hpaid.
  pose proof (search_number (py "Episode ") title) as Hplain.
  destruct (Re.search_group1 _ title) as [N|].
  - destruct Hpaid as (pre & (m & rest & _ & _ & Hne & Hall & _) & _).
    eexists. split; [reflexivity|]. by exists N.
  - destruct (Re.search_group1 _ title) as [N|].
    + destruct Hplain as (pre & (m & rest & _ & _ & Hne & Hall & _) & _).
      rewrite PyFacts.int_of_str_digits by done.
      eexists. split; [reflexivity|]. by apply digits_value_nonneg.
    + by exists EpNone.
Qed.

(** X9. When the loop over the entries of a fetched feed returns, the
    episodes are the entries in the order of the feed, one for one: each
    keeps the title, date and link of its entry, has the link of the first
    enclosure as audio URL (none without enclosure), and an identifier
    that is a non-negative integer, "P" followed by digits, or absent. *)
Theorem parse_rss_feed_spec (entries : list Entry) (episodes : list Episode) :
  parse_rss_feed entries = Ok episodes ->
  Forall2 (fun en e =>
             title e = entry_title en
             /\ published e = entry_published en
             /\ link e = entry_link en
             /\ audio_url e = match entry_enclosures en with
                              | href :: _ => href
                              | [] => None
                              end
             /\ _extract_episode_number (entry_title en) = Ok (episode_number e)
             /\ well_formed (episode_number e))
          entries episodes.
Proof.
  unfold parse_rss_feed. change TEST_MODE with false. cbv iota.
  revert episodes; induction entries as [|en entries IH]; intros episodes.
  - intros [= <-]. constructor.
  - cbn [parse_entries]. unfold parse_entry.
    destruct (extract_well_formed (entry_title en)) as (n & Hn & Hwf).
    rewrite Hn.
    destruct (parse_entries entries) as [eps|x] eqn:Heps; [|discriminate].
    intros [= <-]. constructor; [by cbn|]. by apply IH.
Qed.

(** ** The order and the rows of the reports *)

Section SortingMore.
Context {A : Type}.
Implicit Types (p q : (Z * Z) * A) (l : list ((Z * Z) * A)).

Lemma key_ltb_irrefl (a : Z * Z) : key_ltb a a = false.
Proof.
  unfold key_ltb. rewrite !Z.ltb_irrefl. by rewrite andb_false_r.
Qed.

Lemma insert_desc_perm p l : insert_desc p l ≡ₚ p :: l.
Proof.
  induction l as [|q l IH]; simpl; [done|].
  destruct (key_ltb p.1 q.1); [|done]. rewrite IH. apply Permutation_swap.
Qed.

Lemma sort_desc_perm l : sort_desc l ≡ₚ l.
Proof.
  induction l as [|p l IH]; simpl; [done|].
  by rewrite insert_desc_perm, IH.
Qed.

(** Inserting an element does not move it past an element of its key. *)
Lemma insert_desc_filter (k : Z * Z) p l :
  filter (fun r => r.1 = k) (insert_desc p l)
  = filter (fun r => r.1 = k) (p :: l).
Proof.
  induction l as [|q l IH]; simpl; [done|].
  destruct (key_ltb p.1 q.1) eqn:Hlt; [|done].
  rewrite (filter_cons _ q), IH, !filter_cons.
  destruct (decide (p.1 = k)) as [Hp|Hp]; [|done].
  destruct (decide (q.1 = k)) as [Hq|Hq]; [|done].
  rewrite Hp, Hq, key_ltb_irrefl in Hlt. discriminate.
Qed.

Lemma sort_desc_filter (k : Z * Z) l :
  filter (fun r => r.1 = k) (sort_desc l) = filter (fun r => r.1 = k) l.
Proof.
  induction l as [|p l IH]; simpl; [done|].
  by rewrite insert_desc_filter, !filter_cons, IH.
Qed.

Variable key : A -> option (Z * Z).

Lemma keyed_snd (xs : list A) kl :
  mapM (fun x => (fun k => (k, x)) <$> key x) xs = Some kl -> snd <$> kl = xs.
Proof.
  revert kl; induction xs as [|x xs IH]; simpl; intros kl H.
  - by injection H as <-.
  - destruct (key x) as [k|]; [|discriminate]. simpl in H.
    destruct (mapM _ xs) as [kl'|]; [|discriminate]. simpl in H.
    injection H as <-. simpl. f_equal. by apply IH.
Qed.

Lemma sort_reverse_perm (xs xs' : list A) :
  sort_reverse key xs = Some xs' -> xs' ≡ₚ xs.
Proof.
  unfold sort_reverse. intros H.
  destruct (mapM _ xs) as [kl|] eqn:Hkl; [|discriminate]. simpl in H.
  injection H as <-. rewrite sort_desc_perm. by rewrite (keyed_snd xs kl).
Qed.

Lemma filter_keyed (k : Z * Z) kl :
  Forall (fun p => key p.2 = Some p.1) kl ->
  filter (fun x => key x = Some k) (snd <$> kl)
  = snd <$> filter (fun r => r.1 = k) kl.
Proof.
  induction 1 as [|[k' x] kl Hk _ IH]; [done|].
  rewrite fmap_cons, !filter_cons. simpl in *. rewrite IH.
  destruct (decide (key x = Some k)) as [Hx|Hx];
    destruct (decide (k' = k)) as [Hk'|Hk']; try done; congruence.
Qed.

(** Elements of equal key keep their order. *)
Lemma sort_reverse_stable (k : Z * Z) (xs xs' : list A) :
  sort_reverse key xs = Some xs' ->
  filter (fun x => key x = Some k) xs' = filter (fun x => key x = Some k) xs.
Proof.
  unfold sort_reverse. intros H.
  destruct (mapM _ xs) as [kl|] eqn:Hkl; [|discriminate]. simpl in H.
  injection H as <-.
  pose proof (keyed_ok key xs kl Hkl) as Hok.
  rewrite filter_keyed by (by apply sort_desc_Forall).
  rewrite sort_desc_filter, <- filter_keyed by done.
  by rewrite (keyed_snd xs kl).
Qed.

Lemma sort_reverse_none (xs : list A) (x : A) :
  x ∈ xs -> key x = None -> sort_reverse key xs = None.
Proof.
  intros Hin Hx. unfold sort_reverse.
  assert (Hm : mapM (fun x => (fun k => (k, x)) <$> key x) xs = None).
  { induction Hin as [x xs|x y xs Hin IH]; simpl.
    - by rewrite Hx.
    - rewrite (IH Hx). by destruct (key y). }
  by rewrite Hm.
Qed.

Lemma sort_reverse_some (xs : list A) :
  Forall (fun x => is_Some (key x)) xs -> is_Some (sort_reverse key xs).
Proof.
  intros H. unfold sort_reverse.
  assert (Hm : is_Some (mapM (fun x => (fun k => (k, x)) <$> key x) xs)).
  { induction H as [|x xs [k Hk] _ [kl IH]]; simpl; [eauto|].
    rewrite Hk, IH. simpl. eauto. }
  destruct Hm as [kl ->]. simpl. eauto.
Qed.

End SortingMore.

Lemma filter_none {A} (P : A -> Prop) `{!forall x, Decision (P x)} (l : list A) :
  (forall x, x ∈ l -> ~ P x) -> filter P l = [].
Proof.
  induction l as [|x l IH]; intros Hl; [done|].
  rewrite filter_cons. destruct (decide (P x)) as [Hx|Hx].
  - destruct (Hl x); [left|done].
  - apply IH. intros y Hy. apply Hl. by right.
Qed.

Lemma filter_refine {A} (P Q : A -> Prop) `{!forall x, Decision (P x)}
      `{!forall x, Decision (Q x)} (l : list A) :
  (forall x, P x -> Q x) -> filter P (filter Q l) = filter P l.
Proof.
  intros HPQ. induction l as [|x l IH]; [done|].
  rewrite !filter_cons. destruct (decide (Q x)) as [Hq|Hq].
  - rewrite filter_cons. destruct (decide (P x)); by rewrite IH.
  - destruct (decide (P x)) as [Hp|Hp]; [destruct Hq; auto|done].
Qed.

Lemma sort_key_by_number (f : Finding) :
  sort_key f = sort_key (finding_of (f_episode_number f)).
Proof. reflexivity. Qed.

(** X10. The report has one row for each finding: the list that is
    sorted and written to the two files is a rearrangement of the findings
    given, none lost and none repeated. *)
Theorem report_keeps_findings (findings sorted : list Finding) (st st' : St) :
  generate_report findings st = (Ok sorted, st') ->
  sorted ≡ₚ findings
  /\ csv_file st' = Some (csv_text sorted)
  /\ md_file st' = Some (md_text sorted).
Proof.
  unfold generate_report. intros H.
  destruct (sort_reverse sort_key findings) as [l|] eqn:Hs.
  - destruct (write_reports_run findings l st Hs) as (st1 & Hrun & Hc & Hm & _).
    rewrite Hrun in H. injection H as <- <-.
    split; [by eapply sort_reverse_perm|done].
  - rewrite write_reports_raise in H by done. discriminate.
Qed.

(** X11. Sorting for the report keeps the findings of an episode in the
    order in which they were found. *)
Theorem report_order_within_episode (findings sorted : list Finding) (st st' : St)
        (n : EpNum) :
  generate_report findings st = (Ok sorted, st') ->
  filter (fun f => f_episode_number f = n) sorted
  = filter (fun f => f_episode_number f = n) findings.
Proof.
  unfold generate_report. intros H.
  destruct (sort_reverse sort_key findings) as [l|] eqn:Hs;
    [|rewrite write_reports_raise in H by done; discriminate].
  destruct (write_reports_run findings l st Hs) as (st1 & Hrun & _).
  rewrite Hrun in H. injection H as <- _.
  destruct (sort_key (finding_of n)) as [k|] eqn:Hk.
  - rewrite <- (filter_refine _ (fun f => sort_key f = Some k) l),
            <- (filter_refine _ (fun f => sort_key f = Some k) findings).
    + by rewrite (sort_reverse_stable sort_key k findings l).
    + intros f <-. by rewrite sort_key_by_number.
    + intros f <-. by rewrite sort_key_by_number.
  - assert (Hnone : forall f, f ∈ findings -> f_episode_number f <> n).
    { intros f Hin <-. rewrite <- sort_key_by_number in Hk.
      rewrite (sort_reverse_none sort_key findings f Hin Hk) in Hs. discriminate. }
    rewrite !filter_none; [done|done|].
    intros f Hin. apply Hnone.
    by rewrite <- (sort_reverse_perm sort_key findings l Hs).
Qed.

(** X12. A finding whose identifier is a string without a number after
    its first character makes report generation raise [ValueError] before
    anything is written, in both programs. *)
Theorem report_raises_on_bad_identifier (findings : list Finding) (f : Finding)
        (t : str) :
  f ∈ findings ->
  f_episode_number f = EpStr t ->
  Py.int_of_str (drop 1 t) = None ->
  (forall st, generate_report findings st = (Raise ValueError, st))
  /\ (forall st p,
        progress_file st = Some p -> results p = findings ->
        exists st',
          ReportOnly.generate_report st = (Raise ValueError, st')
          /\ csv_file st' = csv_file st /\ md_file st' = md_file st).
Proof.
  intros Hin Hnum Hbad.
  assert (Hkey : sort_key f = None) by (unfold sort_key; by rewrite Hnum, Hbad).
  assert (Hs : sort_reverse sort_key findings = None)
    by (by eapply sort_reverse_none).
  split.
  - intros st. unfold generate_report. by apply write_reports_raise.
  - intros st p Hp <-. rewrite report_only_run, Hp.
    rewrite write_reports_raise by done. eexists. split; [reflexivity|done].
Qed.

(** ** Escaping *)

Lemma md_escape_pipes (b : bool) (t : str) : pipes_escaped b (md_escape t).
Proof.
  unfold md_escape, Py.replace_char.
  revert b; induction t as [|c t IH]; intros b; [done|]. cbn [flat_map].
  destruct (Ascii.eqb c "|") eqn:Hc.
  - cbn. split; [discriminate|]. split; [done|]. apply IH.
  - cbn. split; [|apply IH]. intros ->. discriminate.
Qed.

Lemma unline_pipes (b : bool) (t : str) :
  pipes_escaped b t -> pipes_escaped b (Py.replace_char newline (py " ") t).
Proof.
  unfold Py.replace_char.
  revert b; induction t as [|c t IH]; intros b H; [done|]. cbn [flat_map].
  destruct H as [Hc H]. destruct (Ascii.eqb c newline) eqn:Hn.
  - apply Ascii.eqb_eq in Hn. subst c. cbn. split; [discriminate|].
    apply IH. exact H.
  - cbn. split; [done|]. by apply IH.
Qed.

Lemma unline_no_newline (t : str) :
  newline ∉ Py.replace_char newline (py " ") t.
Proof.
  unfold Py.replace_char. induction t as [|c t IH]; [apply not_elem_of_nil|].
  cbn [flat_map]. destruct (Ascii.eqb c newline) eqn:Hn.
  - cbn. apply not_elem_of_cons. split; [discriminate|done].
  - cbn. apply not_elem_of_cons. split; [|done].
    intros <-. by rewrite Ascii.eqb_refl in Hn.
Qed.

(** X13. In a row of the Markdown table every "|" of the title, the topic
    and the context comes right after a backslash, and the context cell
    holds no line break. *)
Theorem md_cells_escaped (finding : Finding) :
  pipes_escaped false (md_escape (f_episode_title finding))
  /\ pipes_escaped false (md_escape (f_topic finding))
  /\ pipes_escaped false
       (Py.replace_char newline (py " ") (md_escape (f_context finding)))
  /\ newline ∉ Py.replace_char newline (py " ") (md_escape (f_context finding)).
Proof.
  split; [apply md_escape_pipes|]. split; [apply md_escape_pipes|].
  split; [apply unline_pipes, md_escape_pipes|apply unline_no_newline].
Qed.

Lemma csv_escape_paired (t : str) : quotes_paired (csv_escape t).
Proof.
  unfold csv_escape, Py.replace_char. induction t as [|c t IH]; [done|].
  cbn [flat_map]. destruct (Ascii.eqb c dquote) eqn:Hc.
  - cbn. done.
  - cbn -[dquote]. by rewrite Hc.
Qed.

(** X14. In a row of the CSV file the double quotes inside the title, the
    topic and the context come in pairs, so that none of them closes the
    quoted field it is in. *)
Theorem csv_quotes_paired (finding : Finding) :
  quotes_paired (csv_escape (f_episode_title finding))
  /\ quotes_paired (csv_escape (f_topic finding))
  /\ quotes_paired (csv_escape (f_context finding)).
Proof. repeat split; apply csv_escape_paired. Qed.

(** ** The run as a whole *)

Section Steps.
Context {A B : Type}.

Lemma keeps_ret (a : A) : keeps_progress_file (ret a).
Proof. intros st r st' [= <- <-]. done. Qed.

Lemma keeps_raise (e : exc) : keeps_progress_file (@raise A e).
Proof. intros st r st' [= <- <-]. done. Qed.

Lemma keeps_bind (m : M A) (k : A -> M B) :
  keeps_progress_file m -> (forall a, keeps_progress_file (k a)) ->
  keeps_progress_file (bind m k).
Proof.
  intros Hm Hk st r st' H. rewrite bind_run in H.
  destruct (m st) as [[a|x] st1] eqn:Hrun.
  - rewrite (Hk a _ _ _ H). by eapply Hm.
  - injection H as <- <-. by eapply Hm.
Qed.

End Steps.

Lemma keeps_log (ev : event) : keeps_progress_file (log ev).
Proof. intros st r st' [= <- <-]. done. Qed.

Lemma keeps_get : keeps_progress_file get.
Proof. intros st r st' [= <- <-]. done. Qed.

Lemma keeps_set_downloads f : keeps_progress_file (set_downloads f).
Proof. intros st r st' [= <- <-]. done. Qed.

Lemma keeps_set_transcripts f : keeps_progress_file (set_transcripts f).
Proof. intros st r st' [= <- <-]. done. Qed.

Lemma keeps_set_whisper_model b : keeps_progress_file (set_whisper_model b).
Proof. intros st r st' [= <- <-]. done. Qed.

Ltac step_by_step :=
  repeat first
    [ apply keeps_ret | apply keeps_raise | apply keeps_log | apply keeps_get
    | apply keeps_set_downloads | apply keeps_set_transcripts
    | apply keeps_set_whisper_model
    | apply keeps_bind; [|intros ?]
    | match goal with
      | |- keeps_progress_file (match ?x with _ => _ end) => destruct x
      | |- keeps_progress_file (if ?b then _ else _) => destruct b
      end ].

Section StepsOfTheRun.
Variable http_get : str -> Response.
Variable whisper_transcribe : str -> option Transcript.
Variable claude : str -> option str.
Variable json_loads : str -> option (list JItem).

Lemma keeps_download (e : Episode) :
  keeps_progress_file (download_episode http_get e).
Proof.
  unfold download_episode, fetch, exists_download. cbv zeta. step_by_step.
Qed.

Lemma keeps_transcribe (e : Episode) (audio_path : str) :
  keeps_progress_file (transcribe_episode whisper_transcribe e audio_path).
Proof.
  unfold transcribe_episode, run_whisper, load_transcript, exists_transcript.
  cbv zeta. step_by_step.
Qed.

Lemma analyze_run (e : Episode) (transcript : Transcript) (st : St) :
  analyze_with_claude claude json_loads e transcript st
  = (Ok (findings_of_reply json_loads e transcript (claude (text transcript))),
     (log (Ask (text transcript)) st).2).
Proof.
  unfold analyze_with_claude, findings_of_reply. rewrite bind_run. cbn [log].
  destruct (claude (text transcript)) as [response|]; [|done].
  destruct (json_loads (extract_json response)) as [items|]; [|done].
  by destruct (mapM (enhance e transcript) items).
Qed.

Lemma findings_tagged (e : Episode) (transcript : Transcript) (reply : option str) :
  Forall (tagged e) (findings_of_reply json_loads e transcript reply).
Proof.
  unfold findings_of_reply. destruct reply as [response|]; [|constructor].
  destruct (json_loads (extract_json response)) as [items|]; [|constructor].
  destruct (mapM (enhance e transcript) items) as [fs|] eqn:Hm; [|constructor].
  simpl. apply mapM_Some in Hm.
  induction Hm as [|item f items fs Hf _ IH]; constructor; [|done].
  destruct item; [|discriminate]. by injection Hf as <-.
Qed.

(** One turn of the loop: the findings grow by findings of this episode,
    and the progress file is either left alone, nothing being added, or
    holds the list as it now is. *)
Lemma process_one_inv (e : Episode) (all_findings all_findings' : list Finding)
      (st st' : St) :
  process_one http_get whisper_transcribe claude json_loads e all_findings st
  = (Ok all_findings', st') ->
  exists fs,
    all_findings' = all_findings ++ fs
    /\ Forall (tagged e) fs
    /\ ((progress_file st' = progress_file st /\ fs = [])
        \/ exists p, progress_file st' = Some p /\ results p = all_findings').
Proof.
  unfold process_one. rewrite bind_run.
  destruct (download_episode http_get e st) as [[[path|]|x] st1] eqn:Hd;
    [| |discriminate].
  - rewrite bind_run.
    destruct (transcribe_episode whisper_transcribe e path st1)
      as [[[tr|]|x] st2] eqn:Ht; [| |discriminate].
    + rewrite bind_run, analyze_run. cbn. intros [= <- <-].
      eexists. split; [reflexivity|]. split; [apply findings_tagged|].
      right. eexists. split; reflexivity.
    + intros [= <- <-]. exists []. rewrite app_nil_r.
      split; [done|]. split; [constructor|]. left. split; [|done].
      rewrite (keeps_transcribe _ _ _ _ _ Ht). by eapply keeps_download.
  - intros [= <- <-]. exists []. rewrite app_nil_r.
    split; [done|]. split; [constructor|]. left. split; [|done].
    by eapply keeps_download.
Qed.

Lemma process_loop_inv (episodes : list Episode)
      (all_findings all_findings' : list Finding) (st st' : St) :
  process_loop http_get whisper_transcribe claude json_loads
    episodes all_findings st
  = (Ok all_findings', st') ->
  exists fs,
    all_findings' = all_findings ++ fs
    /\ Forall (fun f => exists e, e ∈ episodes /\ tagged e f) fs
    /\ ((progress_file st' = progress_file st /\ fs = [])
        \/ exists p, progress_file st' = Some p /\ results p = all_findings').
Proof.
  revert all_findings st; induction episodes as [|e episodes IH];
    intros all_findings st.
  - intros [= <- <-]. exists []. rewrite app_nil_r.
    split; [done|]. split; [constructor|]. by left.
  - cbn [process_loop]. rewrite bind_run.
    destruct (process_one _ _ _ _ e all_findings st) as [[all1|x] st1] eqn:Hone;
      [|discriminate].
    intros Hrest.
    apply process_one_inv in Hone as (fs1 & -> & Htag1 & Hfile1).
    apply IH in Hrest as (fs2 & -> & Htag2 & Hfile2).
    exists (fs1 ++ fs2). rewrite app_assoc. split; [done|]. split.
    + apply Forall_app. split.
      * eapply Forall_impl; [exact Htag1|]. intros f Hf. exists e. split; [left|done].
      * eapply Forall_impl; [exact Htag2|]. intros f (e' & Hin & Hf).
        exists e'. split; [by right|done].
    + destruct Hfile2 as [[Hsame ->]|Hsaved]; [|by right].
      rewrite !app_nil_r in *.
      destruct Hfile1 as [[Hsame1 ->]|(p & Hp & Hres)].
      * left. split; [congruence|done].
      * right. exists p. split; [congruence|done].
Qed.

End StepsOfTheRun.

(** ** The saved results, episode by episode *)

Section RunLog.
Variable http_get : str -> Response.
Variable whisper_transcribe : str -> option Transcript.
Variable claude : str -> option str.
Variable json_loads : str -> option (list JItem).

(** One turn of the loop either skips the episode, and then neither the
    list nor the progress file changes, or takes the episode through the
    three stages, and then the findings of the analysis are appended and
    the list is saved. *)
Lemma process_one_cases (e : Episode) (all_findings all_findings' : list Finding)
      (st st' : St) :
  process_one http_get whisper_transcribe claude json_loads e all_findings st
  = (Ok all_findings', st') ->
  (all_findings' = all_findings /\ progress_file st' = progress_file st
   /\ forall fs, ~ completes http_get whisper_transcribe claude json_loads e st fs)
  \/ exists fs p,
      completes http_get whisper_transcribe claude json_loads e st fs
      /\ all_findings' = all_findings ++ fs
      /\ progress_file st' = Some p
      /\ results p = all_findings'.
Proof.
  unfold process_one. rewrite bind_run.
  destruct (download_episode http_get e st) as [[[path|]|x] st1] eqn:Hd;
    [| |discriminate].
  - rewrite bind_run.
    destruct (transcribe_episode whisper_transcribe e path st1)
      as [[[tr|]|x] st2] eqn:Ht; [| |discriminate].
    + rewrite bind_run, analyze_run. cbn. intros [= <- <-].
      right. eexists _, _. split; [|split; [reflexivity|split; reflexivity]].
      exists path, st1, tr, st2. eexists. split; [done|]. split; [done|].
      apply analyze_run.
    + intros [= <- <-]. left. split; [done|]. split.
      * rewrite (keeps_transcribe _ _ _ _ _ _ Ht). by eapply keeps_download.
      * intros fs (path' & st1' & tr & st2' & st3 & Hd' & Ht' & _).
        rewrite Hd in Hd'. injection Hd' as <- <-. congruence.
  - intros [= <- <-]. left. split; [done|]. split; [by eapply keeps_download|].
    intros fs (path' & st1' & tr & st2' & st3 & Hd' & _). congruence.
Qed.

(** The stages are functions: an episode completes, from a state, with
    one list of findings. *)
Lemma completes_unique (e : Episode) (st : St) (fs fs' : list Finding) :
  completes http_get whisper_transcribe claude json_loads e st fs ->
  completes http_get whisper_transcribe claude json_loads e st fs' ->
  fs = fs'.
Proof.
  intros (path & st1 & tr & st2 & st3 & Hd & Ht & Ha)
         (path' & st1' & tr' & st2' & st3' & Hd' & Ht' & Ha').
  rewrite Hd in Hd'. injection Hd' as <- <-.
  rewrite Ht in Ht'. injection Ht' as <- <-.
  rewrite Ha in Ha'. by injection Ha' as <- _.
Qed.

Lemma process_episodes_snoc (before : list Episode) (e : Episode) (st : St) :
  process_episodes http_get whisper_transcribe claude json_loads (before ++ [e]) st
  = match process_episodes http_get whisper_transcribe claude json_loads before st with
    | (Ok earlier, st1) =>
        process_one http_get whisper_transcribe claude json_loads e earlier st1
    | (Raise x, st1) => (Raise x, st1)
    end.
Proof.
  unfold process_episodes. rewrite process_loop_app.
  destruct (process_loop _ _ _ _ before [] st) as [[earlier|x] st1]; [|done].
  cbn [process_loop]. rewrite bind_run.
  by destruct (process_one _ _ _ _ e earlier st1) as [[all1|x] st2].
Qed.

Lemma completed_at_lt (episodes : list Episode) (st : St) (i : nat)
      (fs : list Finding) :
  completed_at http_get whisper_transcribe claude json_loads episodes st i fs ->
  i < length episodes.
Proof. intros (e & earlier & st_i & He & _). by eapply lookup_lt_Some. Qed.

Lemma completed_at_snoc_lt (before : list Episode) (e : Episode) (st : St)
      (i : nat) (fs : list Finding) :
  i < length before ->
  completed_at http_get whisper_transcribe claude json_loads (before ++ [e]) st i fs
  <-> completed_at http_get whisper_transcribe claude json_loads before st i fs.
Proof.
  intros Hi. unfold completed_at.
  rewrite lookup_app_l by done. rewrite take_app_le by lia. done.
Qed.

Lemma completed_at_snoc_last (before : list Episode) (e : Episode) (st : St)
      (fs : list Finding) :
  completed_at http_get whisper_transcribe claude json_loads (before ++ [e]) st
    (length before) fs
  <-> exists earlier st1,
      process_episodes http_get whisper_transcribe claude json_loads before st
      = (Ok earlier, st1)
      /\ completes http_get whisper_transcribe claude json_loads e st1 fs.
Proof.
  unfold completed_at. rewrite list_lookup_middle by done.
  rewrite take_app_length. split.
  - intros (e' & earlier & st1 & [= <-] & Hrun & Hdone). by exists earlier, st1.
  - intros (earlier & st1 & Hrun & Hdone). by exists e, earlier, st1.
Qed.

(** The list a run returns is, episode by episode, the findings of the
    episodes that completed, the others adding nothing; and the progress
    file, once an episode has completed, holds that list. *)
Lemma process_episodes_log (episodes : list Episode) (st st' : St)
      (all_findings : list Finding) :
  process_episodes http_get whisper_transcribe claude json_loads episodes st
  = (Ok all_findings, st') ->
  exists fss : list (list Finding),
    length fss = length episodes
    /\ (forall i fs,
          fss !! i = Some fs ->
          completed_at http_get whisper_transcribe claude json_loads
            episodes st i fs
          \/ (fs = []
              /\ forall fs',
                  ~ completed_at http_get whisper_transcribe claude json_loads
                      episodes st i fs'))
    /\ all_findings = concat fss
    /\ (((forall i fs,
            ~ completed_at http_get whisper_transcribe claude json_loads
                episodes st i fs)
         /\ progress_file st' = progress_file st)
        \/ exists p, progress_file st' = Some p /\ results p = concat fss).
Proof.
  revert st' all_findings.
  induction episodes as [|e before IH] using rev_ind; intros st' all_findings.
  - intros [= <- <-]. exists []. split; [done|]. split; [intros i fs; done|].
    split; [done|]. left. split; [|done].
    intros i fs Hc. apply completed_at_lt in Hc. simpl in Hc. lia.
  - rewrite process_episodes_snoc.
    destruct (process_episodes _ _ _ _ before st) as [[earlier|x] st1] eqn:Hbefore;
      [|discriminate].
    intros Hone.
    destruct (IH st1 earlier eq_refl) as (fss & Hlen & Heach & -> & Hfile).
    assert (Hlast : forall fs,
               completed_at http_get whisper_transcribe claude json_loads
                 (before ++ [e]) st (length before) fs
               <-> completes http_get whisper_transcribe claude json_loads
                     e st1 fs).
    { intros fs. rewrite completed_at_snoc_last. split.
      - intros (earlier' & st1' & Hrun & Hdone). congruence.
      - intros Hdone. by exists (concat fss), st1. }
    assert (Hlift : forall i fs,
               fss !! i = Some fs ->
               completed_at http_get whisper_transcribe claude json_loads
                 (before ++ [e]) st i fs
               \/ (fs = []
                   /\ forall fs',
                       ~ completed_at http_get whisper_transcribe claude json_loads
                           (before ++ [e]) st i fs')).
    { intros i fs Hi. pose proof (lookup_lt_Some _ _ _ Hi) as Hlt.
      rewrite Hlen in Hlt.
      destruct (Heach i fs Hi) as [Hc|[-> Hno]].
      - left. by apply completed_at_snoc_lt.
      - right. split; [done|]. intros fs' Hc.
        apply completed_at_snoc_lt in Hc; [|done]. by eapply Hno. }
    apply process_one_cases in Hone
      as [(-> & Hsame & Hskip)|(fs & p & Hdone & -> & Hp & Hres)].
    + exists (fss ++ [[]]). split; [rewrite !length_app; simpl; lia|].
      split; [|split].
      * intros i fs Hi. apply lookup_app_Some in Hi as [Hi|[Hge Hi]];
          [by apply Hlift|].
        apply list_lookup_singleton_Some in Hi as [Hz <-].
        right. split; [done|]. intros fs' Hc.
        replace i with (length before) in Hc by lia.
        apply Hlast in Hc. by eapply Hskip.
      * rewrite concat_app. simpl. by rewrite app_nil_r.
      * destruct Hfile as [[Hnone Hfile]|(p & Hp & Hres)].
        -- left. split; [|congruence].
           intros i fs Hc. pose proof (completed_at_lt _ _ _ _ Hc) as Hlt.
           rewrite length_app in Hlt. simpl in Hlt.
           destruct (decide (i = length before)) as [->|Hne].
           ++ apply Hlast in Hc. by eapply Hskip.
           ++ apply completed_at_snoc_lt in Hc; [|lia]. by eapply Hnone.
        -- right. exists p. split; [congruence|].
           rewrite concat_app. simpl. by rewrite app_nil_r.
    + exists (fss ++ [fs]). split; [rewrite !length_app; simpl; lia|].
      split; [|split].
      * intros i fs' Hi. apply lookup_app_Some in Hi as [Hi|[Hge Hi]];
          [by apply Hlift|].
        apply list_lookup_singleton_Some in Hi as [Hz <-].
        left. replace i with (length before) by lia. by apply Hlast.
      * rewrite concat_app. simpl. by rewrite app_nil_r.
      * right. exists p. split; [done|].
        rewrite concat_app. simpl. by rewrite app_nil_r.
Qed.

End RunLog.

(** C2, as the code has it. The progress file is loaded on construction.
    The results a run saves are the findings of that run and nothing
    else. Whatever the loaded record holds, the list a run returns is made,
    episode by episode in the order of the list, of the findings of each
    episode that completes its pipeline, an episode that is skipped adding
    nothing; as long as no episode has completed the progress file is as
    it was, and from then on it holds exactly that list as its results.
    After each episode that completes, the saved results are the findings
    of the episodes processed before it in this run followed by its own
    findings. *)
Theorem progress_results_of_run :
  (forall (st : St) (p : Progress),
      progress_file st = Some p ->
      exists st', init st = (Ok tt, st') /\ progress st' = p)
  /\ (forall (http_get : str -> Response)
             (whisper_transcribe : str -> option Transcript)
             (claude : str -> option str)
             (json_loads : str -> option (list JItem))
             (episodes : list Episode) (st st' : St)
             (all_findings : list Finding),
        process_episodes http_get whisper_transcribe claude json_loads episodes st
        = (Ok all_findings, st') ->
        exists fss : list (list Finding),
          length fss = length episodes
          /\ (forall i fs,
                fss !! i = Some fs ->
                completed_at http_get whisper_transcribe claude json_loads
                  episodes st i fs
                \/ (fs = []
                    /\ forall fs',
                        ~ completed_at http_get whisper_transcribe claude
                            json_loads episodes st i fs'))
          /\ all_findings = concat fss
          /\ (((forall i fs,
                  ~ completed_at http_get whisper_transcribe claude json_loads
                      episodes st i fs)
               /\ progress_file st' = progress_file st)
              \/ exists p, progress_file st' = Some p
                           /\ results p = concat fss))
  /\ (forall (http_get : str -> Response)
             (whisper_transcribe : str -> option Transcript)
             (claude : str -> option str)
             (json_loads : str -> option (list JItem))
             (before : list Episode) (e : Episode) (st st1 : St)
             (earlier findings : list Finding),
        process_episodes http_get whisper_transcribe claude json_loads before st
        = (Ok earlier, st1) ->
        completes http_get whisper_transcribe claude json_loads e st1 findings ->
        exists st2 p,
          process_episodes http_get whisper_transcribe claude json_loads
            (before ++ [e]) st
          = (Ok (earlier ++ findings), st2)
          /\ progress_file st2 = Some p
          /\ results p = earlier ++ findings).
Proof.
  split; [|split].
  - intros st p Hp. unfold init, _load_progress, bind. simpl. rewrite Hp. simpl.
    eexists. split; reflexivity.
  - intros http_get whisper_transcribe claude json_loads episodes st st'
           all_findings. apply process_episodes_log.
  - intros http_get whisper_transcribe claude json_loads before e st st1
           earlier findings Hbefore Hdone.
    unfold process_episodes in *. rewrite process_loop_app, Hbefore.
    destruct (process_one_completes _ _ _ _ e earlier findings st1 Hdone)
      as (st2 & Hone & Hfile & Hres).
    exists st2, (progress st2). simpl. unfold bind. by rewrite Hone.
Qed.

Lemma episode_25_completes :
  completes delivers engine (model_says reply_fenced) sample_loads episode_25
    (process_episodes delivers engine (model_says reply_fenced) sample_loads
       [episode_7] (init interrupted).2).2
    newer_findings.
Proof.
  pose (st0 := (process_episodes delivers engine (model_says reply_fenced)
                  sample_loads [episode_7] (init interrupted).2).2).
  pose (st1 := (download_episode delivers episode_25 st0).2).
  pose (st2 := (transcribe_episode engine episode_25
                  (audio_filename episode_25) st1).2).
  exists (audio_filename episode_25), st1, example_transcript, st2,
    (analyze_with_claude (model_says reply_fenced) sample_loads episode_25
       example_transcript st2).2.
  split; [|split]; vm_compute; reflexivity.
Qed.

Lemma progress_results_of_run_witness :
  (exists st', init interrupted = (Ok tt, st')
               /\ results (progress st') = [old_finding])
  /\ (exists fss : list (list Finding),
        length fss = length [episode_7; episode_25]
        /\ (forall i fs,
              fss !! i = Some fs ->
              completed_at delivers engine (model_says reply_fenced) sample_loads
                [episode_7; episode_25] (init interrupted).2 i fs
              \/ (fs = []
                  /\ forall fs',
                      ~ completed_at delivers engine (model_says reply_fenced)
                          sample_loads [episode_7; episode_25]
                          (init interrupted).2 i fs'))
        /\ new_findings ++ newer_findings = concat fss
        /\ (((forall i fs,
                ~ completed_at delivers engine (model_says reply_fenced)
                    sample_loads [episode_7; episode_25] (init interrupted).2 i fs)
             /\ progress_file
                  (process_episodes delivers engine (model_says reply_fenced)
                     sample_loads [episode_7; episode_25] (init interrupted).2).2
                = progress_file (init interrupted).2)
            \/ exists p,
                progress_file
                  (process_episodes delivers engine (model_says reply_fenced)
                     sample_loads [episode_7; episode_25] (init interrupted).2).2
                = Some p
                /\ results p = concat fss))
  /\ exists st2 p,
      process_episodes delivers engine (model_says reply_fenced) sample_loads
        ([episode_7] ++ [episode_25]) (init interrupted).2
      = (Ok (new_findings ++ newer_findings), st2)
      /\ progress_file st2 = Some p
      /\ results p = new_findings ++ newer_findings.
Proof.
  destruct progress_results_of_run as (Hload & Hlog & Hrun).
  split; [|split].
  - destruct (Hload interrupted _ eq_refl) as (st' & Hinit & Hp).
    exists st'. by rewrite Hp.
  - apply (Hlog delivers engine (model_says reply_fenced) sample_loads
             [episode_7; episode_25] (init interrupted).2).
    vm_compute. reflexivity.
  - apply (Hrun delivers engine (model_says reply_fenced) sample_loads
             [episode_7] episode_25 (init interrupted).2
             (process_episodes delivers engine (model_says reply_fenced)
                sample_loads [episode_7] (init interrupted).2).2
             new_findings newer_findings).
    + vm_compute. reflexivity.
    + exact episode_25_completes.
Defined.

(** The progress file after the two episodes: the findings of episode 7
    and of episode 25, and not the finding about episode 3 that the file
    held before the run. *)
Example results_after_two_episodes :
  results <$> progress_file
    (process_episodes delivers engine (model_says reply_fenced) sample_loads
       [episode_7; episode_25] (init interrupted).2).2
  = Some [ {| f_episode_number := EpInt 7;
              f_episode_title := py "Episode 7: P-values";
              f_timestamp := py "1:02:05";
              f_topic := py "p-hacking";
              f_quote := py "we should do an episode on p-hacking";
              f_context := [] |};
           {| f_episode_number := EpInt 25;
              f_episode_title := py "Episode 25: Replication";
              f_timestamp := py "1:02:05";
              f_topic := py "p-hacking";
              f_quote := py "we should do an episode on p-hacking";
              f_context := [] |} ].
Proof. vm_compute. reflexivity. Qed.


Section TheRun.
Variable http_get : str -> Response.
Variable whisper_transcribe : str -> option Transcript.
Variable claude : str -> option str.
Variable json_loads : str -> option (list JItem).

(** X16. An episode with an audio URL whose identifier is a string that
    starts with "P" and has no number after it, and whose file is not in
    the cache, makes the run raise [ValueError]: the episodes after it are
    not processed, nothing is requested and nothing is written. *)
Theorem bad_tag_aborts_run (e : Episode) (rest : list Episode) (st : St) (t : str) :
  no_audio_url e = false ->
  episode_number e = EpStr t ->
  Py.startswith (py "P") t = true ->
  Py.int_of_str (drop 1 t) = None ->
  downloads st !! audio_filename e = None ->
  exists st',
    process_episodes http_get whisper_transcribe claude json_loads (e :: rest) st
    = (Raise ValueError, st')
    /\ st' = (log (Exists Downloads (audio_filename e)) st).2.
Proof.
  intros Hurl Hnum HP Hbad Hnew.
  unfold process_episodes. cbn [process_loop]. unfold process_one.
  rewrite !bind_run. unfold download_episode.
  rewrite Hurl, bind_run, exists_download_run.
  rewrite bool_decide_eq_false_2 by (rewrite Hnew; by intros [? ?]).
  rewrite Hnum, HP, Hbad. by eexists.
Qed.

(** X17. Every finding a run returns carries the number and the title of
    one of the episodes it was given. *)
Theorem findings_belong_to_episodes (episodes : list Episode)
        (findings : list Finding) (st st' : St) :
  process_episodes http_get whisper_transcribe claude json_loads episodes st
  = (Ok findings, st') ->
  Forall (fun f => exists e, e ∈ episodes /\ tagged e f) findings.
Proof.
  intros H. apply process_loop_inv in H as (fs & -> & Htag & _). exact Htag.
Qed.

Lemma init_run (st : St) :
  exists st_i, init st = (Ok tt, st_i) /\ progress_file st_i = progress_file st.
Proof.
  unfold init, _load_progress. rewrite !bind_run. cbn.
  destruct (progress_file st); by eexists.
Qed.

(** A run of [main] that returns, stage by stage. *)
Lemma main_run (entries : list Entry) (st st' : St) :
  main http_get whisper_transcribe claude json_loads entries st = (Ok tt, st') ->
  exists st_i episodes findings sorted st_p,
    init st = (Ok tt, st_i)
    /\ progress_file st_i = progress_file st
    /\ parse_rss_feed entries = Ok episodes
    /\ process_episodes http_get whisper_transcribe claude json_loads episodes st_i
       = (Ok findings, st_p)
    /\ sort_reverse sort_key findings = Some sorted
    /\ csv_file st' = Some (csv_text sorted)
    /\ md_file st' = Some (md_text sorted)
    /\ progress_file st' = progress_file st_p
    /\ ((progress_file st_p = progress_file st_i /\ findings = [])
        \/ exists p, progress_file st_p = Some p /\ results p = findings).
Proof.
  intros Hmain. destruct (init_run st) as (st_i & Hinit & Hfile_i).
  unfold main in Hmain. rewrite bind_run, Hinit in Hmain.
  destruct (parse_rss_feed entries) as [episodes|x] eqn:Hparse; [|discriminate].
  rewrite bind_run in Hmain.
  destruct (process_episodes http_get whisper_transcribe claude json_loads
              episodes st_i) as [[findings|x] st_p] eqn:Hrun; [|discriminate].
  rewrite bind_run in Hmain. unfold generate_report in Hmain.
  destruct (sort_reverse sort_key findings) as [sorted|] eqn:Hsorted.
  - destruct (write_reports_run findings sorted st_p Hsorted)
      as (st1 & Hwrite & Hcsv & Hmd & Hfile).
    rewrite Hwrite in Hmain. injection Hmain as <-.
    pose proof Hrun as Hinv.
    apply process_loop_inv in Hinv as (fs & Heq & _ & Hsaved).
    simpl in Heq. subst fs.
    by exists st_i, episodes, findings, sorted, st_p.
  - rewrite write_reports_raise in Hmain by done. discriminate.
Qed.

(** X18. When a full run returns, the CSV file and the Markdown file
    hold the rows of one list, and that list is a rearrangement of the
    findings the run gathered from the episodes of the feed. *)
Theorem main_reports_findings (entries : list Entry) (st st' : St) :
  main http_get whisper_transcribe claude json_loads entries st = (Ok tt, st') ->
  exists st_i episodes findings sorted st_p,
    init st = (Ok tt, st_i)
    /\ parse_rss_feed entries = Ok episodes
    /\ process_episodes http_get whisper_transcribe claude json_loads episodes st_i
       = (Ok findings, st_p)
    /\ sorted ≡ₚ findings
    /\ csv_file st' = Some (csv_text sorted)
    /\ md_file st' = Some (md_text sorted).
Proof.
  intros H.
  destruct (main_run entries st st' H)
    as (st_i & episodes & findings & sorted & st_p & Hinit & _ & Hparse & Hrun
        & Hsorted & Hcsv & Hmd & _).
  exists st_i, episodes, findings, sorted, st_p.
  split; [done|]. split; [done|]. split; [done|].
  split; [by eapply sort_reverse_perm|done].
Qed.

(** X19. After a full run, either no episode completed, and then the
    progress file is as it was before the run and the reports have no
    row, or the report-only program run next writes the same two files
    again. *)
Theorem report_only_after_main (entries : list Entry) (st st1 : St) :
  main http_get whisper_transcribe claude json_loads entries st = (Ok tt, st1) ->
  (progress_file st1 = progress_file st
   /\ csv_file st1 = Some (csv_text []) /\ md_file st1 = Some (md_text []))
  \/ exists st2,
      ReportOnly.generate_report st1 = (Ok tt, st2)
      /\ csv_file st2 = csv_file st1 /\ md_file st2 = md_file st1.
Proof.
  intros H.
  destruct (main_run entries st st1 H)
    as (st_i & episodes & findings & sorted & st_p & _ & Hfile_i & _ & _
        & Hsorted & Hcsv & Hmd & Hfile & Hsaved).
  destruct Hsaved as [[Hsame ->]|(p & Hp & Hres)].
  - left. injection Hsorted as <-. split; [congruence|done].
  - right. rewrite report_only_run, Hfile, Hp, Hres.
    edestruct (write_reports_run findings sorted) as (st2 & -> & Hcsv2 & Hmd2 & _);
      [exact Hsorted|].
    exists st2. by rewrite Hcsv, Hmd, Hcsv2, Hmd2.
Qed.

End TheRun.

(** ** Instances *)


Lemma download_twice_witness :
  exists st2,
    download_episode delivers bonus_episode
      (download_episode delivers bonus_episode blank).2
    = (Ok (Some (audio_filename bonus_episode)), st2)
    /\ http_requests (trace st2)
       = http_requests (trace (download_episode delivers bonus_episode blank).2)
    /\ downloads st2 = downloads (download_episode delivers bonus_episode blank).2.
Proof.
  apply (download_twice delivers bonus_episode blank). vm_compute. reflexivity.
Defined.


Lemma transcript_hit_witness :
  exists st',
    transcribe_episode no_engine episode_7 (py "anywhere.mp3") interrupted
    = (Ok (Some example_transcript), st')
    /\ engine_runs (trace st') = engine_runs (trace interrupted)
    /\ whisper_model st' = whisper_model interrupted
    /\ transcripts st' = transcripts interrupted.
Proof.
  apply transcript_hit. vm_compute. reflexivity.
Defined.


Lemma transcribe_twice_witness :
  exists st2,
    transcribe_episode engine episode_7 (py "elsewhere.mp3")
      (transcribe_episode engine episode_7 (audio_filename episode_7)
         (one_download (audio_filename episode_7))).2
    = (Ok (Some example_transcript), st2)
    /\ engine_runs (trace st2)
       = engine_runs
           (trace (transcribe_episode engine episode_7 (audio_filename episode_7)
                     (one_download (audio_filename episode_7))).2)
    /\ transcripts st2
       = transcripts (transcribe_episode engine episode_7 (audio_filename episode_7)
                        (one_download (audio_filename episode_7))).2.
Proof.
  apply (transcribe_twice engine episode_7 (audio_filename episode_7)
           (py "elsewhere.mp3") (one_download (audio_filename episode_7))).
  vm_compute. reflexivity.
Defined.

Lemma paid_reads_regular_transcript_witness :
  exists st',
    transcribe_episode no_engine paid_episode (py "p25.mp3") regular_transcribed
    = (Ok (Some example_transcript), st')
    /\ engine_runs (trace st') = engine_runs (trace regular_transcribed)
    /\ transcripts st' = transcripts regular_transcribed.
Proof.
  apply (paid_reads_regular_transcript no_engine paid_episode episode_25
           (py "p25.mp3") regular_transcribed (py "25"));
    [reflexivity|discriminate|repeat constructor|reflexivity
    |vm_compute; reflexivity|vm_compute; reflexivity].
Defined.

Lemma report_keeps_findings_witness :
  (generate_report example_findings blank).1
  = Ok [finding_of EpNone; finding_of (EpStr (py "P3"));
        finding_of (EpInt 10); finding_of (EpInt 5)]
  /\ [finding_of EpNone; finding_of (EpStr (py "P3"));
      finding_of (EpInt 10); finding_of (EpInt 5)] ≡ₚ example_findings.
Proof.
  split; [reflexivity|].
  apply (report_keeps_findings example_findings _ blank
           (generate_report example_findings blank).2).
  reflexivity.
Defined.

Lemma report_order_within_episode_witness :
  filter (fun f => f_episode_number f = EpInt 10)
         [finding_of EpNone; finding_of (EpStr (py "P3"));
          finding_of (EpInt 10); finding_of (EpInt 5)]
  = filter (fun f => f_episode_number f = EpInt 10) example_findings.
Proof.
  apply (report_order_within_episode example_findings _ blank
           (generate_report example_findings blank).2).
  reflexivity.
Defined.

Lemma report_raises_on_bad_identifier_witness :
  (forall st,
      generate_report [finding_of (EpInt 5); finding_of (EpStr (py "Bonus"))] st
      = (Raise ValueError, st))
  /\ (forall st p,
        progress_file st = Some p ->
        results p = [finding_of (EpInt 5); finding_of (EpStr (py "Bonus"))] ->
        exists st',
          ReportOnly.generate_report st = (Raise ValueError, st')
          /\ csv_file st' = csv_file st /\ md_file st' = md_file st).
Proof.
  apply (report_raises_on_bad_identifier _ (finding_of (EpStr (py "Bonus")))
           (py "Bonus")); [|reflexivity|reflexivity].
  right. left.
Defined.

Lemma bad_tag_aborts_run_witness :
  exists st',
    process_episodes delivers engine (model_says reply_fenced) sample_loads
      [pilot_episode; episode_7] blank
    = (Raise ValueError, st')
    /\ st' = (log (Exists Downloads (audio_filename pilot_episode)) blank).2.
Proof.
  apply (bad_tag_aborts_run delivers engine (model_says reply_fenced) sample_loads
           pilot_episode [episode_7] blank (py "Pilot")); reflexivity.
Defined.

Lemma findings_belong_to_episodes_witness :
  Forall (fun f => exists e, e ∈ [episode_7] /\ tagged e f) new_findings.
Proof.
  apply (findings_belong_to_episodes no_server no_engine
           (model_says reply_fenced) sample_loads [episode_7] new_findings
           (init interrupted).2
           (process_episodes no_server no_engine (model_says reply_fenced)
              sample_loads [episode_7] (init interrupted).2).2).
  vm_compute. reflexivity.
Defined.

Lemma report_only_after_main_witness :
  (progress_file
     (main no_server no_engine (model_says reply_fenced) sample_loads
        [entry_7] interrupted).2
   = progress_file interrupted
   /\ csv_file (main no_server no_engine (model_says reply_fenced) sample_loads
                  [entry_7] interrupted).2 = Some (csv_text [])
   /\ md_file (main no_server no_engine (model_says reply_fenced) sample_loads
                 [entry_7] interrupted).2 = Some (md_text []))
  \/ exists st2,
      ReportOnly.generate_report
        (main no_server no_engine (model_says reply_fenced) sample_loads
           [entry_7] interrupted).2
      = (Ok tt, st2)
      /\ csv_file st2
         = csv_file (main no_server no_engine (model_says reply_fenced)
                       sample_loads [entry_7] interrupted).2
      /\ md_file st2
         = md_file (main no_server no_engine (model_says reply_fenced)
                      sample_loads [entry_7] interrupted).2.
Proof.
  apply (report_only_after_main no_server no_engine (model_says reply_fenced)
           sample_loads [entry_7] interrupted).
  vm_compute. reflexivity.
Defined.

Lemma parse_rss_feed_spec_witness :
  Forall2 (fun en e =>
             title e = entry_title en
             /\ published e = entry_published en
             /\ link e = entry_link en
             /\ audio_url e = match entry_enclosures en with
                              | href :: _ => href
                              | [] => None
                              end
             /\ _extract_episode_number (entry_title en) = Ok (episode_number e)
             /\ well_formed (episode_number e))
          [entry_7; bonus_entry] [episode_7; bonus_episode].
Proof.
  apply (parse_rss_feed_spec [entry_7; bonus_entry] [episode_7; bonus_episode]).
  reflexivity.
Defined.

Lemma main_reports_findings_witness :
  exists st_i episodes findings sorted st_p,
    init interrupted = (Ok tt, st_i)
    /\ parse_rss_feed [entry_7] = Ok episodes
    /\ process_episodes no_server no_engine (model_says reply_fenced) sample_loads
         episodes st_i
       = (Ok findings, st_p)
    /\ sorted ≡ₚ findings
    /\ csv_file (main no_server no_engine (model_says reply_fenced) sample_loads
                   [entry_7] interrupted).2 = Some (csv_text sorted)
    /\ md_file (main no_server no_engine (model_says reply_fenced) sample_loads
                  [entry_7] interrupted).2 = Some (md_text sorted).
Proof.
  apply (main_reports_findings no_server no_engine (model_says reply_fenced)
           sample_loads [entry_7] interrupted).
  vm_compute. reflexivity.
Defined.

(** ** Cache file names *)

Module DigitFacts.
Import Py.
Local Open Scope Z_scope.

Lemma digit_char_val (d : Z) : 0 <= d < 10 -> digit_val (digit_char d) = d.
Proof.
  intros H. unfold digit_val, digit_char, code.
  rewrite N_ascii_embedding by lia. lia.
Qed.

Lemma digit_char_digit (d : Z) : 0 <= d < 10 -> is_digit (digit_char d) = true.
Proof.
  intros H. unfold is_digit, in_range, digit_char, code.
  rewrite N_ascii_embedding by lia.
  apply andb_true_iff. split; apply N.leb_le; lia.
Qed.

Lemma digits_fuel_value (fuel : nat) (n : Z) (acc : str) :
  0 <= n < 2 ^ Z.of_nat fuel ->
  fold_left (fun a c => 10 * a + digit_val c) (digits_fuel fuel n acc) 0
  = fold_left (fun a c => 10 * a + digit_val c) acc n.
Proof.
  revert n acc; induction fuel as [|fuel IH]; intros n acc Hn.
  - simpl in Hn. assert (n = 0) by lia. subst n. done.
  - cbn [digits_fuel]. cbv zeta.
    assert (0 <= n mod 10 < 10) by (apply Z.mod_pos_bound; lia).
    destruct (Z.ltb_spec n 10).
    + cbn [fold_left]. rewrite digit_char_val by done.
      rewrite Z.mod_small by lia. done.
    + rewrite IH.
      * cbn [fold_left]. rewrite digit_char_val by done.
        f_equal. pose proof (Z.div_mod n 10). lia.
      * split; [apply Z.div_pos; lia|].
        apply Z.div_lt_upper_bound; [lia|].
        rewrite Nat2Z.inj_succ, Z.pow_succ_r in Hn by lia. lia.
Qed.

Lemma digits_fuel_digits (fuel : nat) (n : Z) (acc : str) :
  0 <= n -> Re.all is_digit acc -> Re.all is_digit (digits_fuel fuel n acc).
Proof.
  revert n acc; induction fuel as [|fuel IH]; intros n acc Hn Hacc; [done|].
  cbn [digits_fuel]. cbv zeta.
  assert (Hd : Re.all is_digit (digit_char (n mod 10) :: acc)).
  { constructor; [|done]. apply digit_char_digit, Z.mod_pos_bound. lia. }
  destruct (n <? 10); [done|]. apply IH; [apply Z.div_pos; lia|done].
Qed.

Lemma digits_value_digits (n : Z) : 0 <= n -> digits_value (digits n) = n.
Proof.
  intros Hn. unfold digits_value, digits. rewrite digits_fuel_value; [done|].
  split; [done|]. destruct (Z.eq_dec n 0) as [->|]; [done|].
  rewrite Nat2Z.inj_succ, Z2Nat.id by apply Z.log2_nonneg.
  apply Z.log2_spec. lia.
Qed.

Lemma zeros_value (k : nat) (t : str) :
  digits_value (repeat "0"%char k ++ t) = digits_value t.
Proof.
  unfold digits_value. induction k as [|k IH]; [done|]. exact IH.
Qed.

(** A number padded with zeros reads back as the number. *)
Lemma fmt_0d_value (w : nat) (n : Z) : 0 <= n -> digits_value (fmt_0d w n) = n.
Proof.
  intros Hn. unfold fmt_0d. destruct (Z.ltb_spec n 0); [lia|].
  cbn [app]. rewrite zeros_value, Z.abs_eq by done. by apply digits_value_digits.
Qed.

Lemma fmt_0d_digits (w : nat) (n : Z) : 0 <= n -> Re.all is_digit (fmt_0d w n).
Proof.
  intros Hn. unfold fmt_0d. destruct (Z.ltb_spec n 0); [lia|]. cbn [app].
  apply Forall_app. split.
  - apply Forall_forall. intros c Hc. apply list_elem_of_In, repeat_spec in Hc.
    by subst c.
  - apply digits_fuel_digits; [lia|constructor].
Qed.

End DigitFacts.

Lemma underscore_not_digit : Py.is_digit "_" = false.
Proof. reflexivity. Qed.

Lemma digits_prefix_unique (u u' x x' : str) :
  Re.all Py.is_digit u -> Re.all Py.is_digit u' ->
  u ++ py "_" ++ x = u' ++ py "_" ++ x' -> u = u'.
Proof.
  intros Hu Hu' Heq.
  by destruct (ReSteps.run_unique Py.is_digit u u' "_"%char x x'
                 Hu Hu' underscore_not_digit Heq).
Qed.

(** X20. Numbered episodes do not share cache files: two regular
    episodes with different numbers, and two paid episodes with different
    tags, have different audio files and different transcript files,
    whatever their titles. *)
Theorem numbered_files_differ (e1 e2 : Episode) :
  (forall n m : Z,
      episode_number e1 = EpInt n -> episode_number e2 = EpInt m ->
      (0 <= n)%Z -> (0 <= m)%Z -> n <> m ->
      audio_filename e1 <> audio_filename e2
      /\ transcript_filename e1 <> transcript_filename e2)
  /\ (forall N M : str,
        episode_number e1 = EpStr (py "P" ++ N) ->
        episode_number e2 = EpStr (py "P" ++ M) ->
        Re.all Py.is_digit N -> Re.all Py.is_digit M -> N <> M ->
        audio_filename e1 <> audio_filename e2
        /\ transcript_filename e1 <> transcript_filename e2).
Proof.
  split.
  - intros n m H1 H2 Hn Hm Hne.
    unfold audio_filename, transcript_filename. rewrite H1, H2.
    assert (Hdiff : Py.fmt_0d 3 n <> Py.fmt_0d 3 m).
    { intros Heq. apply Hne.
      rewrite <- (DigitFacts.fmt_0d_value 3 n), <- (DigitFacts.fmt_0d_value 3 m)
        by done.
      by rewrite Heq. }
    split; intros Heq; apply Hdiff;
      (eapply digits_prefix_unique; [| |exact Heq]);
      by apply DigitFacts.fmt_0d_digits.
  - intros N M H1 H2 HN HM Hne.
    unfold audio_filename, transcript_filename. rewrite H1, H2.
    split; intros Heq; apply Hne; injection Heq as Heq;
      (eapply digits_prefix_unique; [| |exact Heq]); done.
Qed.

Lemma numbered_files_differ_witness :
  (audio_filename episode_7 <> audio_filename episode_25
   /\ transcript_filename episode_7 <> transcript_filename episode_25)
  /\ (audio_filename paid_episode <> audio_filename paid_episode_3
      /\ transcript_filename paid_episode <> transcript_filename paid_episode_3).
Proof.
  split.
  - apply (proj1 (numbered_files_differ episode_7 episode_25) 7%Z 25%Z);
      [reflexivity|reflexivity|lia|lia|lia].
  - apply (proj2 (numbered_files_differ paid_episode paid_episode_3)
             (py "25") (py "3"));
      [reflexivity|reflexivity|repeat constructor|repeat constructor|discriminate].
Defined.

(** ** The downloads a run requests *)

Section Quiet.
Context {A B : Type}.

Lemma quiet_ret (a : A) : no_requests (ret a).
Proof. intros st r st' [= <- <-]. done. Qed.

Lemma quiet_raise (e : exc) : no_requests (@raise A e).
Proof. intros st r st' [= <- <-]. done. Qed.

Lemma quiet_bind (m : M A) (k : A -> M B) :
  no_requests m -> (forall a, no_requests (k a)) -> no_requests (bind m k).
Proof.
  intros Hm Hk st r st' H. rewrite bind_run in H.
  destruct (m st) as [[a|x] st1] eqn:Hrun.
  - rewrite (Hk a _ _ _ H). by eapply Hm.
  - injection H as <- <-. by eapply Hm.
Qed.

End Quiet.

Lemma quiet_log (ev : event) :
  (forall url, ev <> HttpGet url) -> no_requests (log ev).
Proof.
  intros Hev st r st' [= <- <-]. cbn. rewrite http_requests_snoc.
  destruct ev; try apply app_nil_r. by destruct (Hev url).
Qed.

Lemma quiet_get : no_requests get.
Proof. intros st r st' [= <- <-]. done. Qed.

Lemma quiet_set_downloads f : no_requests (set_downloads f).
Proof. intros st r st' [= <- <-]. done. Qed.

Lemma quiet_set_transcripts f : no_requests (set_transcripts f).
Proof. intros st r st' [= <- <-]. done. Qed.

Lemma quiet_set_whisper_model b : no_requests (set_whisper_model b).
Proof. intros st r st' [= <- <-]. done. Qed.

Lemma quiet_set_progress p : no_requests (set_progress p).
Proof. intros st r st' [= <- <-]. done. Qed.

Lemma quiet_set_progress_file p : no_requests (set_progress_file p).
Proof. intros st r st' [= <- <-]. done. Qed.

Ltac quietly :=
  repeat first
    [ apply quiet_ret | apply quiet_raise | apply quiet_get
    | apply quiet_log; discriminate
    | apply quiet_set_downloads | apply quiet_set_transcripts
    | apply quiet_set_whisper_model | apply quiet_set_progress
    | apply quiet_set_progress_file
    | apply quiet_bind; [|intros ?]
    | match goal with
      | |- no_requests (match ?x with _ => _ end) => destruct x
      | |- no_requests (if ?b then _ else _) => destruct b
      end ].

Section Requests.
Variable http_get : str -> Response.
Variable whisper_transcribe : str -> option Transcript.
Variable claude : str -> option str.
Variable json_loads : str -> option (list JItem).

Lemma quiet_transcribe (e : Episode) (audio_path : str) :
  no_requests (transcribe_episode whisper_transcribe e audio_path).
Proof.
  unfold transcribe_episode, run_whisper, load_transcript, exists_transcript.
  cbv zeta. quietly.
Qed.

Lemma quiet_analyze (e : Episode) (transcript : Transcript) :
  no_requests (analyze_with_claude claude json_loads e transcript).
Proof. unfold analyze_with_claude. quietly. Qed.

Lemma quiet_exists_download (name : str) : no_requests (exists_download name).
Proof. unfold exists_download. quietly. Qed.

Lemma fetch_requests (e : Episode) (name : str) (st : St) r st' :
  fetch http_get e name st = (r, st') ->
  http_requests (trace st') = http_requests (trace st) ++ [url_of e].
Proof.
  intros H. destruct (fetch_spec http_get e name st) as (st1 & Hreq & Hrun).
  destruct (http_get (url_of e)); destruct Hrun as [Hrun _];
    rewrite Hrun in H; by injection H as <- <-.
Qed.

(** A download asks for nothing, or once for the URL of the episode. *)
Lemma download_requests (e : Episode) (st : St) r st' :
  download_episode http_get e st = (r, st') ->
  exists urls,
    http_requests (trace st') = http_requests (trace st) ++ urls
    /\ (urls = [] \/ (no_audio_url e = false /\ urls = [url_of e])).
Proof.
  unfold download_episode. destruct (no_audio_url e) eqn:Hurl.
  { intros [= <- <-]. exists []. by rewrite app_nil_r; auto. }
  assert (Hfetch : forall st0,
             http_requests (trace st0) = http_requests (trace st) ->
             fetch http_get e (audio_filename e) st0 = (r, st') ->
             exists urls,
               http_requests (trace st') = http_requests (trace st) ++ urls
               /\ (urls = [] \/ (false = false /\ urls = [url_of e]))).
  { intros st0 Hsame Hf. apply fetch_requests in Hf. exists [url_of e].
    rewrite Hf, Hsame. auto. }
  assert (Hquiet : forall st0,
             http_requests (trace st0) = http_requests (trace st) ->
             exists urls,
               http_requests (trace st0) = http_requests (trace st) ++ urls
               /\ (urls = [] \/ (false = false /\ urls = [url_of e]))).
  { intros st0 Hsame. exists []. rewrite app_nil_r. auto. }
  rewrite bind_run, exists_download_run.
  pose proof (http_requests_exists (trace st) Downloads (audio_filename e)) as H1.
  destruct (bool_decide _).
  { intros [= <- <-]. by apply Hquiet. }
  destruct (episode_number e) as [k|t|]; [by apply Hfetch| |by apply Hfetch].
  destruct (Py.startswith (py "P") t); [|by apply Hfetch].
  destruct (Py.int_of_str (drop 1 t)) as [n|].
  - cbv zeta. rewrite bind_run, exists_download_run. cbn [downloads log snd].
    destruct (bool_decide _).
    + intros [= <- <-]. apply Hquiet. cbn [trace log snd].
      by rewrite !http_requests_exists.
    + apply Hfetch. cbn [trace log snd]. by rewrite !http_requests_exists.
  - intros [= <- <-]. by apply Hquiet.
Qed.

Lemma process_one_requests (e : Episode) (all_findings : list Finding)
      (st : St) r st' :
  process_one http_get whisper_transcribe claude json_loads e all_findings st
  = (r, st') ->
  exists urls,
    http_requests (trace st') = http_requests (trace st) ++ urls
    /\ (urls = [] \/ (no_audio_url e = false /\ urls = [url_of e])).
Proof.
  unfold process_one. rewrite bind_run.
  destruct (download_episode http_get e st) as [[audio|x] st1] eqn:Hd.
  - apply download_requests in Hd as (urls & Hreq & Hurls).
    intros Hrest. exists urls. split; [|done]. rewrite <- Hreq.
    revert Hrest. generalize st1 r st'. clear.
    change (no_requests
              (match audio with
               | Some path =>
                   bind (transcribe_episode whisper_transcribe e path)
                     (fun transcript =>
                        match transcript with
                        | Some tr =>
                            bind (analyze_with_claude claude json_loads e tr)
                              (fun findings =>
                                 bind get
                                   (fun st =>
                                      bind (set_progress
                                              (with_results (progress st)
                                                 (all_findings ++ findings)))
                                        (fun _ =>
                                           bind _save_progress
                                             (fun _ =>
                                                ret (all_findings ++ findings)))))
                        | None => ret all_findings
                        end)
               | None => ret all_findings
               end)).
    destruct audio as [path|]; [|apply quiet_ret].
    apply quiet_bind; [apply quiet_transcribe|]. intros [tr|]; [|apply quiet_ret].
    apply quiet_bind; [apply quiet_analyze|]. intros findings.
    unfold _save_progress. quietly.
  - intros [= <- <-]. by apply download_requests in Hd.
Qed.

(** X21. The only URLs a run calls [requests.get] on are audio URLs of
    its episodes: the calls it adds are for episodes that have a URL, in
    the order of the episodes and at most one for each. The calls of the
    language model's client are logged as [Ask] events and are not counted
    here. *)
Theorem run_requests_only_audio (episodes : list Episode) (st : St) r st' :
  process_episodes http_get whisper_transcribe claude json_loads episodes st
  = (r, st') ->
  exists urls,
    http_requests (trace st') = http_requests (trace st) ++ urls
    /\ urls `sublist_of`
         (url_of <$> filter (fun e => no_audio_url e = false) episodes).
Proof.
  unfold process_episodes. generalize (@nil Finding) as all_findings.
  revert st; induction episodes as [|e episodes IH]; intros st all_findings.
  - intros [= <- <-]. exists []. by rewrite app_nil_r.
  - cbn [process_loop]. rewrite bind_run.
    destruct (process_one _ _ _ _ e all_findings st) as [[all1|x] st1] eqn:Hone.
    + apply process_one_requests in Hone as (urls1 & Hreq1 & Hurls1).
      intros Hrest. apply IH in Hrest as (urls2 & Hreq2 & Hsub).
      exists (urls1 ++ urls2). rewrite Hreq2, Hreq1, app_assoc. split; [done|].
      rewrite filter_cons.
      destruct Hurls1 as [->|[Hurl ->]].
      * destruct (decide (no_audio_url e = false)); [|done].
        rewrite fmap_cons. by apply sublist_cons.
      * rewrite decide_True by done. rewrite fmap_cons. by apply sublist_skip.
    + intros [= <- <-].
      apply process_one_requests in Hone as (urls1 & Hreq1 & Hurls1).
      exists urls1. split; [done|]. rewrite filter_cons.
      destruct Hurls1 as [->|[Hurl ->]]; [apply sublist_nil_l|].
      rewrite decide_True by done. rewrite fmap_cons.
      apply sublist_skip, sublist_nil_l.
Qed.

End Requests.

Lemma run_requests_only_audio_witness :
  exists urls,
    http_requests
      (trace (process_episodes delivers engine (model_says reply_fenced)
                sample_loads [bonus_no_url; episode_7] blank).2)
    = http_requests (trace blank) ++ urls
    /\ urls `sublist_of`
         (url_of <$> filter (fun e => no_audio_url e = false)
                       [bonus_no_url; episode_7]).
Proof.
  apply (run_requests_only_audio delivers engine (model_says reply_fenced)
           sample_loads [bonus_no_url; episode_7] blank
           (process_episodes delivers engine (model_says reply_fenced)
              sample_loads [bonus_no_url; episode_7] blank).1).
  by destruct (process_episodes _ _ _ _ _ _).
Defined.
